(** * Checkpoint conversion and mixture-of-experts routing

    A shallow embedding of
    - [src/transformers/models/openai/convert_openai_weights_to_hf.py]
      (the key remapper and the conversion loop of [write_model],
      [compute_intermediate_size], the special tokens of [write_tokenizer]),
    - [src/transformers/models/openai/modeling_openai.py] ([OpenaiMLP]),
    - [src/transformers/models/qwen2_moe/modular_qwen2_moe.py]
      ([Qwen2MoeNaiveMoe], [Qwen2MoeSparseMoeBlock], the test that chooses
      the MLP in [Qwen2MoeDecoderLayer]).

    Python exceptions are values of [result]; dicts are [gmap]s, and an
    association list where the order of insertion matters; tensors are a
    shape together with a row-major buffer.  Reading the shards from disk,
    saving and reloading the model are outside the embedding: the conversion
    starts from the loaded checkpoint. *)

From Stdlib Require Import Ascii String List Arith ZArith Lia Bool Sorted Reals Lra.
From Stdlib Require Import SpecFloat.
From stdpp Require Import gmap strings list sorting pretty.

Import ListNotations.
Local Open Scope list_scope.

(** ** Exceptions *)

Inductive exn :=
| ReError          (* regex: invalid group reference in a replacement *)
| ValueError       (* tuple unpacking with the wrong number of values *)
| RuntimeError     (* torch: shapes that do not fit, index out of range *)
| AttributeError   (* attribute never set on the module *)
| IndexError.      (* index past the end of a module list *)

Inductive result (A : Type) :=
| Ok (a : A)
| Raise (e : exn).
Arguments Ok {A} a.
Arguments Raise {A} e.

#[global] Instance result_ret : MRet result := fun _ a => Ok a.

#[global] Instance result_bind : MBind result := fun _ _ f m =>
  match m with
  | Ok a => f a
  | Raise e => Raise e
  end.

Fixpoint mapM {A B} (f : A -> result B) (l : list A) : result (list B) :=
  match l with
  | [] => Ok []
  | x :: l' => y ← f x; ys ← mapM f l'; Ok (y :: ys)
  end.

(** ** Regular expressions

    The fragment of the [regex] module's syntax that the conversion script
    uses: ordinary characters, [.], [\d+], concatenation, alternation and
    capture groups.  Text is a list of characters; parameter names are
    ASCII. *)

Module Re.

Definition text := list ascii.

Definition newline : ascii := "010"%char.

Inductive cclass :=
| CLit (c : ascii)   (* the character itself *)
| CAny               (* [.]: anything but a newline *)
| CDigit.            (* [\d] *)

Definition is_digit (c : ascii) : bool :=
  let n := nat_of_ascii c in (48 <=? n)%nat && (n <=? 57)%nat.

Definition cmatch (k : cclass) (c : ascii) : bool :=
  match k with
  | CLit c' => Ascii.eqb c' c
  | CAny => negb (Ascii.eqb c newline)
  | CDigit => is_digit c
  end.

Inductive regex :=
| REps
| RCls (k : cclass)
| RPlus (k : cclass)            (* greedy [k+] *)
| RSeq (r1 r2 : regex)
| RAlt (r1 r2 : regex)
| RGroup (r : regex).           (* [( r )], numbered by opening parenthesis *)

Fixpoint RStr (s : text) : regex :=
  match s with
  | [] => REps
  | [c] => RCls (CLit c)
  | c :: s' => RSeq (RCls (CLit c)) (RStr s')
  end.

Fixpoint ngroups (r : regex) : nat :=
  match r with
  | REps | RCls _ | RPlus _ => 0
  | RSeq r1 r2 | RAlt r1 r2 => ngroups r1 + ngroups r2
  | RGroup r => S (ngroups r)
  end.

(** A capture is the text of a group, or [None] for a group that did not
    take part in the match. *)
Definition captures := list (option text).

(** The longest run of characters of class [k] at the head of [s], then every
    shorter non-empty one: the order in which a greedy [k+] tries them. *)
Fixpoint plus_rests (k : cclass) (s : text) : list text :=
  match s with
  | c :: s' => if cmatch k c then plus_rests k s' ++ [s'] else []
  | [] => []
  end.

(** [rmatch r s]: every way [r] matches a prefix of [s], as the captures and
    the text left over, in the order a backtracking matcher tries them. *)
Fixpoint rmatch (r : regex) (s : text) : list (captures * text) :=
  match r with
  | REps => [([], s)]
  | RCls k =>
      match s with
      | c :: s' => if cmatch k c then [([], s')] else []
      | [] => []
      end
  | RPlus k => map (fun rest => ([], rest)) (plus_rests k s)
  | RSeq r1 r2 =>
      flat_map (fun '(c1, s1) =>
                  map (fun '(c2, s2) => (c1 ++ c2, s2)) (rmatch r2 s1))
               (rmatch r1 s)
  | RAlt r1 r2 =>
      map (fun '(c1, s1) => (c1 ++ repeat None (ngroups r2), s1)) (rmatch r1 s)
      ++ map (fun '(c2, s2) => (repeat None (ngroups r1) ++ c2, s2)) (rmatch r2 s)
  | RGroup r0 =>
      map (fun '(c0, s0) =>
             (Some (firstn (length s - length s0) s) :: c0, s0))
          (rmatch r0 s)
  end.

(** The match a search finds at the head of [s], if any. *)
Definition match_here (r : regex) (s : text) : option (captures * text) :=
  head (rmatch r s).

(** [re.search]: is there a match starting anywhere in [s]? *)
Fixpoint search (r : regex) (s : text) : bool :=
  match match_here r s with
  | Some _ => true
  | None => match s with
            | [] => false
            | _ :: s' => search r s'
            end
  end.

(** Replacement templates: literal text and numbered group references. *)
Inductive titem :=
| TLit (s : text)
| TRef (n : nat).

Definition template := list titem.

(** A reference to a group the pattern does not have is an error, raised when
    a match is substituted; a group that did not take part in the match
    expands to the empty text. *)
Fixpoint expand (t : template) (caps : captures) : result text :=
  match t with
  | [] => Ok []
  | TLit s :: t' => tl ← expand t' caps; Ok (s ++ tl)
  | TRef n :: t' =>
      match n with
      | 0 => Raise ReError
      | S i =>
          match nth_error caps i with
          | Some g => tl ← expand t' caps; Ok (default [] g ++ tl)
          | None => Raise ReError
          end
      end
  end.

(** [re.sub pattern repl s]: every non-overlapping match, leftmost first, is
    replaced.  [skip] counts the characters of [s] still covered by the match
    just replaced. *)
Fixpoint sub_from (r : regex) (t : template) (skip : nat) (s : text)
  : result text :=
  match s with
  | [] =>
      match skip, match_here r [] with
      | 0, Some (caps, _) => expand t caps
      | _, _ => Ok []
      end
  | c :: s' =>
      match skip with
      | S k => sub_from r t k s'
      | 0 =>
          match match_here r s with
          | Some (caps, rest) =>
              rep ← expand t caps;
              match length s - length rest with
              | 0 => tl ← sub_from r t 0 s'; Ok (rep ++ c :: tl)
              | S k => tl ← sub_from r t k s'; Ok (rep ++ tl)
              end
          | None => tl ← sub_from r t 0 s'; Ok (c :: tl)
          end
      end
  end.

Definition sub (r : regex) (t : template) (s : text) : result text :=
  sub_from r t 0 s.

End Re.

(** ** Tensors

    A tensor is its shape and its elements in row-major order, the layout of
    a contiguous torch tensor.  The element type is a parameter: the
    conversion script moves elements around and never computes with them. *)

Module Tensor.

Record tensor (A : Type) := mk { shape : list nat; data : list A }.
Arguments mk {A} shape data.
Arguments shape {A} t.
Arguments data {A} t.

Definition numel (shp : list nat) : nat := fold_right Nat.mul 1 shp.

(** The buffer holds exactly the elements the shape announces. *)
Definition wf {A} (t : tensor A) : Prop := length (data t) = numel (shape t).

(** Size of the last axis ([t.shape[-1]]) and the axes before it. *)
Definition last_dim (shp : list nat) : nat := List.last shp 0.
Definition lead (shp : list nat) : list nat := removelast shp.

(** The buffer cut into [n] rows of [s] elements: the slices along the last
    axis. *)
Fixpoint split_rows {A} (n s : nat) (d : list A) : list (list A) :=
  match n with
  | 0 => []
  | S n' => firstn s d :: split_rows n' s (skipn s d)
  end.

Definition rows {A} (t : tensor A) : list (list A) :=
  split_rows (numel (lead (shape t))) (last_dim (shape t)) (data t).

(** [t.narrow(-1, start, len)] *)
Definition narrow_last {A} (start len : nat) (t : tensor A) : tensor A :=
  mk (lead (shape t) ++ [len])
     (concat (map (fun row => firstn len (skipn start row)) (rows t))).

(** [torch.chunk(t, chunks, dim=-1)]: pieces of [ceil(size / chunks)]
    elements along the last axis, the last piece taking what is left; there
    are fewer than [chunks] pieces when the size runs out first. *)
Definition chunk {A} (chunks : nat) (t : tensor A) : result (list (tensor A)) :=
  match shape t, chunks with
  | [], _ | _, 0 => Raise RuntimeError
  | _, _ =>
      let dim_size := last_dim (shape t) in
      let split_size := (dim_size + chunks - 1) / chunks in
      if (split_size =? 0)%nat then
        Ok (repeat (narrow_last 0 0 t) chunks)
      else
        let num_splits := Nat.max ((dim_size + split_size - 1) / split_size) 1 in
        let last_split_size := split_size - (split_size * num_splits - dim_size) in
        Ok (map (fun i =>
                   narrow_last (i * split_size)
                     (if (i <? num_splits - 1)%nat then split_size
                      else last_split_size) t)
                (seq 0 num_splits))
  end.

(** [torch.cat(ts, dim=-1)] for tensors that agree on the leading axes: row
    by row, the rows of the pieces one after the other. *)
Definition cat_last {A} (ts : list (tensor A)) : tensor A :=
  let ld := match ts with t :: _ => lead (shape t) | [] => [] end in
  mk (ld ++ [sum_list (map (fun t => last_dim (shape t)) ts)])
     (concat (foldr (fun t acc => zip_with app (rows t) acc)
                    (repeat [] (numel ld)) ts)).

End Tensor.

(** ** The key remapper ([convert_openai_weights_to_hf.py]) *)

Module Convert.
Import Re Tensor.

Definition txt (s : string) : text := list_ascii_of_string s.
Definition str (s : text) : string := string_of_list_ascii s.

(** A pattern without groups, as the script writes it: [.] is the wildcard,
    every other character stands for itself. *)
Fixpoint pat_text (s : text) : regex :=
  match s with
  | [] => REps
  | c :: s' =>
      let k := if Ascii.eqb c "."%char then CAny else CLit c in
      match s' with
      | [] => RCls k
      | _ => RSeq (RCls k) (pat_text s')
      end
  end.

Definition pat (s : string) : regex := pat_text (txt s).

(** [block.(\d+)] followed by the rest of the pattern. *)
Definition block_pat (rest : string) : regex :=
  RSeq (pat "block.") (RSeq (RGroup (RPlus CDigit)) (pat rest)).

Definition T (s : string) : titem := TLit (txt s).

(** The table, in the order the dict literal lists it. *)
Definition ORIGINAL_TO_CONVERTED_KEY_MAPPING : list (regex * option template) :=
  [ (pat "norm.weight",             Some [T "norm.weight"]);
    (pat "unembedding.weight",      Some [T "lm_head.weight"]);
    (pat "embedding",               Some [T "embed_tokens"]);
    (pat "rope.freqs",              None);
    (block_pat ".attn.qkv",         Some [T "layers."; TRef 1; T ".self_attn.(k|v|q)_proj"]);
    (block_pat ".attn.out",         Some [T "layers."; TRef 1; T ".self_attn."; TRef 2; T "_proj"]);
    (block_pat ".attn.sinks",       Some [T "layers."; TRef 1; T ".self_attn.sinks"]);
    (block_pat ".attn.norm",        Some [T "layers."; TRef 1; T ".input_layernorm.weight"]);
    (block_pat ".mlp.mlp1_weight",  Some [T "layers."; TRef 1; T ".mlp.gate_up_proj.weight"]);
    (block_pat ".mlp.mlp1_bias",    Some [T "layers."; TRef 1; T ".mlp.gate_up_proj.bias"]);
    (block_pat ".mlp.mlp2_weight",  Some [T "layers."; TRef 1; T ".mlp.down_proj.weight"]);
    (block_pat ".mlp.mlp2_bias",    Some [T "layers."; TRef 1; T ".mlp.down_proj.bias"]);
    (block_pat ".mlp.norm",         Some [T "layers."; TRef 1; T ".post_attention_layernorm.weight"]);
    (block_pat ".mlp.gate",         Some [T "layers."; TRef 1; T ".mlp.router.weight"]) ].

(** ["\n".join(keys)] *)
Fixpoint join_nl (ls : list text) : text :=
  match ls with
  | [] => []
  | [l] => l
  | l :: ls' => l ++ newline :: join_nl ls'
  end.

(** [s.split("\n")], never empty: the current line and the lines after it. *)
Fixpoint split_nl (s : text) : text * list text :=
  match s with
  | [] => ([], [])
  | c :: s' =>
      let '(l, ls) := split_nl s' in
      if Ascii.eqb c newline then ([], l :: ls) else (c :: l, ls)
  end.

Definition lines (s : text) : list text :=
  let '(l, ls) := split_nl s in l :: ls.

(** [dict(zip(ks, vs))]: a later pair overwrites an earlier one with the same
    key. *)
Definition dict_zip {V} (ks : list string) (vs : list V) : gmap string V :=
  foldl (fun d kv => <[kv.1 := kv.2]> d) ∅ (zip ks vs).

(** One turn of the loop over the table. *)
Definition apply_rule (new_text : text) (rule : regex * option template)
  : result text :=
  match rule.2 with
  | None => sub rule.1 [] new_text
  | Some replacement => sub rule.1 replacement new_text
  end.

Fixpoint apply_rules (rules : list (regex * option template)) (new_text : text)
  : result text :=
  match rules with
  | [] => Ok new_text
  | rule :: rules' => t ← apply_rule new_text rule; apply_rules rules' t
  end.

Definition convert_old_keys_to_new_keys (state_dict_keys : option (list string))
  : result (gmap string string) :=
  match state_dict_keys with
  | None => Ok ∅
  | Some keys =>
      let old_text := join_nl (map txt keys) in
      new_text ← apply_rules ORIGINAL_TO_CONVERTED_KEY_MAPPING old_text;
      Ok (dict_zip (map str (lines old_text)) (map str (lines new_text)))
  end.

(** *** The conversion loop of [write_model] *)

(** ["(k|v|q)_proj.weight"] *)
Definition fused_pat : regex :=
  RSeq (RGroup (RAlt (RCls (CLit "k")) (RAlt (RCls (CLit "v")) (RCls (CLit "q")))))
       (pat "_proj.weight").

Fixpoint is_prefix (p s : text) : bool :=
  match p, s with
  | [], _ => true
  | _ :: _, [] => false
  | a :: p', b :: s' => Ascii.eqb a b && is_prefix p' s'
  end.

(** [needle in hay] *)
Fixpoint contains (needle hay : text) : bool :=
  is_prefix needle hay ||
  match hay with
  | [] => false
  | _ :: hay' => contains needle hay'
  end.

Definition re_sub (r : regex) (t : template) (s : string) : result string :=
  new ← sub r t (txt s); Ok (str new).

(** The test of line 115. *)
Definition is_fused (new_key : string) : bool :=
  search fused_pat (txt new_key) && contains (txt "language_model") (txt new_key).

Section WriteModel.
Context {A : Type}.

(** The body of [for key in all_keys]; [value] is [loaded[0][key]]. *)
Definition write_model_step (new_keys : gmap string string)
    (state_dict : gmap string (tensor A)) (entry : string * tensor A)
  : result (gmap string (tensor A)) :=
  let key := entry.1 in
  let value := entry.2 in
  let new_key := default key (new_keys !! key) in
  if is_fused new_key then
    parts ← chunk 3 value;
    match parts with
    | [q; k; v] =>
        q_key ← re_sub fused_pat [T "q_proj.weight"] new_key;
        let state_dict := <[q_key := q]> state_dict in
        k_key ← re_sub fused_pat [T "k_proj.weight"] new_key;
        v_key ← re_sub fused_pat [T "v_proj.weight"] new_key;
        let state_dict := <[k_key := k]> state_dict in
        Ok (<[v_key := v]> state_dict)
    | _ => Raise ValueError
    end
  else
    Ok (<[new_key := value]> state_dict).

Fixpoint write_model_loop (new_keys : gmap string string)
    (state_dict : gmap string (tensor A)) (entries : list (string * tensor A))
  : result (gmap string (tensor A)) :=
  match entries with
  | [] => Ok state_dict
  | entry :: entries' =>
      state_dict' ← write_model_step new_keys state_dict entry;
      write_model_loop new_keys state_dict' entries'
  end.

(** Lines 108 to 124: [loaded] is the checkpoint [loaded[0]], a dict in
    insertion order. *)
Definition convert_state_dict (loaded : list (string * tensor A))
  : result (gmap string (tensor A)) :=
  let all_keys := map fst loaded in
  new_keys ← convert_old_keys_to_new_keys (Some all_keys);
  write_model_loop new_keys ∅ loaded.

(** Modelled from the spec: [OpenaiForCausalLM(config)] and
    [Module.load_state_dict], which are not part of this slice.  The target
    model is the set of parameter names it expects, each with its shape.
    Tensors are bound by exact name; with [strict], a name the model expects
    and the state dict lacks, or one the state dict has and the model does not
    expect, is an error, and so is a tensor of the wrong shape. *)
Definition load_state_dict (expected : gmap string (list nat))
    (state_dict : gmap string (tensor A)) (strict : bool)
  : result (gmap string (tensor A)) :=
  let missing_keys := dom expected ∖ dom state_dict in
  let unexpected_keys := dom state_dict ∖ dom expected in
  let bound := filter (fun kv => kv.1 ∈ dom expected) state_dict in
  if strict && negb (bool_decide (missing_keys = ∅ ∧ unexpected_keys = ∅)) then
    Raise RuntimeError
  else if bool_decide (map_Forall (fun k t => expected !! k = Some (shape t)) bound)
  then Ok bound
  else Raise RuntimeError.

(** Lines 108 to 132 of [write_model]: nothing catches an exception. *)
Definition write_model (expected : gmap string (list nat))
    (loaded : list (string * tensor A)) : result (gmap string (tensor A)) :=
  state_dict ← convert_state_dict loaded;
  load_state_dict expected state_dict true.

End WriteModel.

End Convert.

(** ** Reshaping and broadcasting *)

Module TensorOps.
Import Tensor.

Section Ops.
Context {A : Type}.

(** [t.reshape(shp)] for a shape without [-1]: the same elements, as many as
    the new shape announces. *)
Definition reshape (shp : list nat) (t : tensor A) : result (tensor A) :=
  if (numel shp =? numel (shape t))%nat then Ok (mk shp (data t))
  else Raise RuntimeError.

(** [t.view(-1, h)] and [t.reshape(-1, h)]: the number of rows is what the
    number of elements leaves; it cannot be told when [h] is [0]. *)
Definition view_rows (h : nat) (t : tensor A) : result (tensor A) :=
  let n := numel (shape t) in
  if (h =? 0)%nat then Raise RuntimeError
  else if (n mod h =? 0)%nat then Ok (mk [n / h; h] (data t))
  else Raise RuntimeError.

(** A matrix from its rows. *)
Definition of_rows (n h : nat) (rs : list (list A)) : tensor A :=
  mk [n; h] (concat rs).

(** Row [i] of a matrix ([t[i]]); the empty row when there is none, which the
    callers rule out first. *)
Definition row (t : tensor A) (i : nat) : list A := nth i (rows t) [].

(** [t.transpose(0, 1)] of a matrix with [h] columns, row by row. *)
Definition transpose_rows (h : nat) (rs : list (list A)) : list (list A) :=
  map (fun j => flat_map (fun r => firstn 1 (skipn j r)) rs) (seq 0 h).

Definition transpose (t : tensor A) : result (tensor A) :=
  match shape t with
  | [n; h] => Ok (of_rows h n (transpose_rows h (rows t)))
  | _ => Raise RuntimeError
  end.

(** Broadcasting, on shapes read from the last axis backwards: two sizes go
    together when they are equal or one of them is [1]. *)
Fixpoint broadcast_rev (a b : list nat) : result (list nat) :=
  match a, b with
  | [], _ => Ok b
  | _, [] => Ok a
  | x :: a', y :: b' =>
      rest ← broadcast_rev a' b';
      if (x =? y)%nat then Ok (x :: rest)
      else if (x =? 1)%nat then Ok (y :: rest)
      else if (y =? 1)%nat then Ok (x :: rest)
      else Raise RuntimeError
  end.

Definition broadcast_shapes (a b : list nat) : result (list nat) :=
  r ← broadcast_rev (rev a) (rev b); Ok (rev r).

(** The shape with axes of size [1] put in front, up to [rank] axes. *)
Definition pad_shape (rank : nat) (shp : list nat) : list nat :=
  repeat 1 (rank - length shp) ++ shp.

(** The elements of a tensor of shape [src] laid out for the shape [tgt] it
    broadcasts to: an axis of size [1] is repeated. *)
Fixpoint expand_data (src tgt : list nat) (d : list A) : list A :=
  match src, tgt with
  | s :: src', g :: tgt' =>
      let blocks := map (expand_data src' tgt') (split_rows s (numel src') d) in
      if (s =? g)%nat then concat blocks
      else concat (repeat (concat blocks) g)
  | _, _ => d
  end.

Definition expand (tgt : list nat) (t : tensor A) : list A :=
  expand_data (pad_shape (length tgt) (shape t)) tgt (data t).

(** An element-wise operation of two tensors, with broadcasting. *)
Definition binop (f : A → A → A) (a b : tensor A) : result (tensor A) :=
  shp ← broadcast_shapes (shape a) (shape b);
  Ok (mk shp (zip_with f (expand shp a) (expand shp b))).

(** An element-wise operation of one tensor. *)
Definition tmap {B} (f : A → B) (t : tensor A) : tensor B :=
  mk (shape t) (map f (data t)).

(** The same operation on every slice along the last axis; [h] is the size
    of the slices it returns. *)
Definition map_rows {B} (h : nat) (f : list A → list B) (t : tensor A) : tensor B :=
  mk (lead (shape t) ++ [h]) (concat (map f (rows t))).

End Ops.

End TensorOps.

(** ** Mixture-of-experts routing

    Tensor elements are real numbers: rounding is not part of the model, and
    [.float()] and [.to(dtype)] are the identity.  A sigmoid or a softmax
    of real numbers lies strictly between [0] and [1], where the floats of
    the code reach both ends: the properties below state equalities and
    bounds that include the ends.  The matrices the routing
    works on have the experts (or the hidden features) as their last axis, so
    that [dim=1] is the last axis. *)

Module Moe.
Import Tensor TensorOps.
Local Open Scope R_scope.

Definition sum_R (l : list R) : R := fold_right Rplus 0 l.

Definition dot (x w : list R) : R := sum_R (zip_with Rmult x w).

(** [nn.Linear(in_features, out_features, bias=False)], given by its weight
    of shape [[out_features; in_features]]. *)
Definition linear (weight x : tensor R) : result (tensor R) :=
  match shape weight, shape x with
  | [out_features; in_features], _ :: _ =>
      if (last_dim (shape x) =? in_features)%nat
      then Ok (map_rows out_features (fun r => map (dot r) (rows weight)) x)
      else Raise RuntimeError
  | _, _ => Raise RuntimeError
  end.

(** [F.softmax] of one row. *)
Definition softmax_row (r : list R) : list R :=
  let z := sum_R (map exp r) in map (fun x => exp x / z) r.

Definition softmax (t : tensor R) : tensor R :=
  map_rows (last_dim (shape t)) softmax_row t.

Definition sigmoid (x : R) : R := 1 / (1 + exp (- x)).

(** Scores that may be [float("-inf")]. *)
Inductive xreal :=
| NegInf
| Fin (x : R).

(** [torch.sigmoid], which is [0] at [-inf]. *)
Definition sigmoid_x (s : xreal) : R :=
  match s with
  | NegInf => 0
  | Fin x => sigmoid x
  end.

(** *** [torch.topk]

    The [k] largest elements of a row with their positions, largest first.
    torch does not say which of several equal elements it returns, nor in
    what order: the choice is the parameter [tie_rank].  For a call with [k]
    on the row [r], [tie_rank k r i] ranks position [i]; among equal elements
    the one of lower rank comes first, and among equal ranks the one at the
    lower position.  Every result that is sorted, has [k] distinct positions
    and leaves out no element larger than one it returns is the result for
    some ranking, the one that ranks the returned positions by their place in
    the result and the others above them ([topk_row_complete] below). *)

Class TopkTies := tie_rank : nat → list R → nat → nat.

Definition indexed (r : list R) : list (nat * R) := zip (seq 0 (length r)) r.

(** Whether [x] goes before [y]: when it is larger, or equal and not of
    higher rank. *)
Definition goes_before (rank : nat → nat) (x y : nat * R) : bool :=
  if Rlt_dec (snd y) (snd x) then true
  else if Rlt_dec (snd x) (snd y) then false
  else (rank (fst x) <=? rank (fst y))%nat.

Fixpoint insert_desc (rank : nat → nat) (x : nat * R) (l : list (nat * R))
  : list (nat * R) :=
  match l with
  | [] => [x]
  | y :: l' =>
      if goes_before rank x y then x :: y :: l' else y :: insert_desc rank x l'
  end.

Definition sort_desc (rank : nat → nat) (l : list (nat * R)) : list (nat * R) :=
  fold_right (insert_desc rank) [] l.

Section Routing.
Context `{ties : TopkTies}.

Definition topk_row (k : nat) (r : list R) : list (nat * R) :=
  firstn k (sort_desc (tie_rank k r) (indexed r)).

(** Values and indices, along the last axis. *)
Definition topk (k : nat) (t : tensor R) : result (tensor R * tensor nat) :=
  match shape t with
  | [] => Raise RuntimeError
  | _ :: _ =>
      if (k <=? last_dim (shape t))%nat
      then Ok (map_rows k (fun r => map snd (topk_row k r)) t,
               map_rows k (fun r => map fst (topk_row k r)) t)
      else Raise RuntimeError
  end.

(** [t.sum(dim=-1, keepdim=True)] *)
Definition sum_last (t : tensor R) : tensor R :=
  map_rows 1 (fun r => [sum_R r]) t.

(** [x.add_(y)] and [x /= y]: the result has to fit in [x]. *)
Definition inplace (f : R → R → R) (x y : tensor R) : result (tensor R) :=
  r ← binop f x y;
  if bool_decide (shape r = shape x) then Ok r else Raise RuntimeError.

(** [self.index_add_(0, index, source)] on matrices: row [index[p]] of [self]
    gets row [p] of [source] added. *)
Definition index_add_0 (self : tensor R) (index : list nat) (source : tensor R)
  : result (tensor R) :=
  match shape self, shape source with
  | [n; h], [p; h'] =>
      if (p =? length index)%nat && (h =? h')%nat
         && forallb (fun i => i <? n)%nat index
      then Ok (of_rows n h
                 (fold_left (fun rs ir => alter (zip_with Rplus ir.2) ir.1 rs)
                            (zip index (rows source)) (rows self)))
      else Raise RuntimeError
  | _, _ => Raise RuntimeError
  end.

(** [self.scatter_(1, index, src)] on matrices: in row [t], the element at
    position [index[t][j]] becomes [src[t][j]]. *)
Definition scatter_row {A} (self : list A) (index : list nat) (src : list A)
  : list A :=
  fold_left (fun r iv => <[iv.1 := iv.2]> r) (zip index src) self.

Definition scatter_1 {A} (self : tensor A) (index : tensor nat) (src : tensor A)
  : result (tensor A) :=
  match shape self, shape index, shape src with
  | [n; e], [n'; k], [n''; k'] =>
      if (n' <=? n)%nat && (n' <=? n'')%nat && (k <=? k')%nat
         && forallb (fun i => i <? e)%nat (data index)
      then Ok (of_rows n e
                 (zip_with (fun r ij => scatter_row r ij.1 ij.2)
                    (rows self)
                    (zip (rows index) (rows src) ++
                     repeat ([], []) (n - n'))))
      else Raise RuntimeError
  | _, _, _ => Raise RuntimeError
  end.

(** [t.repeat(e, 1)] of a matrix: its rows, [e] times over. *)
Definition repeat_rows {A} (e : nat) (t : tensor A) : result (tensor A) :=
  match shape t with
  | [n; h] => Ok (mk [(e * n)%nat; h] (concat (repeat (data t) e)))
  | _ => Raise RuntimeError
  end.

(** [t.reshape(e, -1, h).sum(dim=0)] *)
Definition sum_blocks (e h : nat) (t : tensor R) : result (tensor R) :=
  let n := numel (shape t) in
  if ((e * h =? 0) || negb (n mod (e * h) =? 0))%nat then Raise RuntimeError
  else
    let m := (n / (e * h))%nat in
    Ok (mk [m; h]
          (fold_right (zip_with Rplus) (repeat 0 (m * h))
                      (split_rows e (m * h) (data t)))).

(** *** [modular_qwen2_moe.py] *)

(** The fields of the configuration that the routing reads. *)
Record Qwen2MoeConfig := {
  hidden_size : nat;
  num_experts : nat;
  num_experts_per_tok : nat;
  norm_topk_prob : bool
}.

(** [Qwen2MoeMLP]: [forward] is inherited from [GemmaMLP], which is not part
    of the slice.  Its layers take rows of [hidden_size] features to rows of
    [hidden_size] features ([gate_proj] and [down_proj] in [__init__]); what
    they compute on a row is the parameter [mlp_row]. *)
Record Qwen2MoeMLP := {
  mlp_hidden_size : nat;
  mlp_row : list R → list R
}.

Definition Qwen2MoeMLP_forward (self : Qwen2MoeMLP) (x : tensor R)
  : result (tensor R) :=
  match shape x with
  | [] => Raise RuntimeError
  | _ :: _ =>
      if (last_dim (shape x) =? mlp_hidden_size self)%nat
      then Ok (map_rows (mlp_hidden_size self) (mlp_row self) x)
      else Raise RuntimeError
  end.

(** [Qwen2MoeNaiveMoe], a module list of experts. *)
Record Qwen2MoeNaiveMoe := {
  naive_top_k : nat;
  naive_num_experts : nat;
  naive_norm_topk_prob : bool;
  naive_experts : list Qwen2MoeMLP
}.

(** [torch.where(expert_mask[e])]: the pairs [(idx, top_x)] with
    [selected_experts[top_x][idx] = e], slot by slot and token by token. *)
Definition where_expert (selected_experts : tensor nat) (e : nat)
  : list (nat * nat) :=
  let sel := rows selected_experts in
  flat_map (fun idx =>
              flat_map (fun top_x =>
                          if (nth idx (nth top_x sel []) (S e) =? e)%nat
                          then [(idx, top_x)] else [])
                       (seq 0 (length sel)))
           (seq 0 (last_dim (shape selected_experts))).

(** One turn of [for expert_idx in expert_hit]. *)
Definition expert_step (self : Qwen2MoeNaiveMoe)
    (hidden_states routing_weights : tensor R) (selected_experts : tensor nat)
    (final_hidden_states : tensor R) (expert_idx : nat) : result (tensor R) :=
  expert_layer ← match naive_experts self !! expert_idx with
                 | Some m => Ok m
                 | None => Raise IndexError
                 end;
  let hits := where_expert selected_experts expert_idx in
  let idx := map fst hits in
  let top_x := map snd hits in
  let h := last_dim (shape hidden_states) in
  current_state ←
    view_rows h (mk [1%nat; length top_x; h]
                    (concat (map (row hidden_states) top_x)));
  expert_out ← Qwen2MoeMLP_forward expert_layer current_state;
  let weights :=
    of_rows (length hits) 1
      (map (fun it => [nth it.1 (row routing_weights it.2) 0]) hits) in
  current_hidden_states ← binop Rmult expert_out weights;
  index_add_0 final_hidden_states top_x current_hidden_states.

Fixpoint expert_loop (self : Qwen2MoeNaiveMoe)
    (hidden_states routing_weights : tensor R) (selected_experts : tensor nat)
    (final_hidden_states : tensor R) (expert_hit : list nat)
  : result (tensor R) :=
  match expert_hit with
  | [] => Ok final_hidden_states
  | expert_idx :: rest =>
      final' ← expert_step self hidden_states routing_weights selected_experts
                 final_hidden_states expert_idx;
      expert_loop self hidden_states routing_weights selected_experts final' rest
  end.

(** Lines 90 to 95: the weights and the experts they go to. *)
Definition Qwen2MoeNaiveMoe_routing (self : Qwen2MoeNaiveMoe)
    (routing_weights : tensor R) : result (tensor R * tensor nat) :=
  let routing_weights := softmax routing_weights in
  '(routing_weights, selected_experts) ← topk (naive_top_k self) routing_weights;
  routing_weights ←
    (if naive_norm_topk_prob self
     then inplace Rdiv routing_weights (sum_last routing_weights)
     else Ok routing_weights);
  Ok (routing_weights, selected_experts).

Definition Qwen2MoeNaiveMoe_forward (self : Qwen2MoeNaiveMoe)
    (hidden_states routing_weights : tensor R) : result (tensor R) :=
  '(routing_weights, selected_experts) ← Qwen2MoeNaiveMoe_routing self routing_weights;
  let final_hidden_states := tmap (fun _ => 0) hidden_states in
  (* [one_hot] refuses an index that is not below [num_classes] *)
  if negb (forallb (fun e => e <? naive_num_experts self)%nat
                   (data selected_experts))
  then Raise RuntimeError
  else
    let expert_hit :=
      filter (fun e => e ∈ data selected_experts)
             (seq 0 (naive_num_experts self)) in
    expert_loop self hidden_states routing_weights selected_experts
                final_hidden_states expert_hit.

Record Qwen2MoeSparseMoeBlock := {
  block_num_experts : nat;
  block_top_k : nat;
  block_norm_topk_prob : bool;
  gate : tensor R;                  (* weight of [nn.Linear(hidden_size, num_experts)] *)
  experts : Qwen2MoeNaiveMoe;
  shared_expert : Qwen2MoeMLP;
  shared_expert_gate : tensor R     (* weight of [nn.Linear(hidden_size, 1)] *)
}.

Definition Qwen2MoeSparseMoeBlock_forward (self : Qwen2MoeSparseMoeBlock)
    (hidden_states : tensor R) : result (tensor R * tensor R) :=
  match shape hidden_states with
  | [batch_size; sequence_length; hidden_dim] =>
      hidden_states ← view_rows hidden_dim hidden_states;
      router_logits ← linear (gate self) hidden_states;
      routed ← Qwen2MoeNaiveMoe_forward (experts self) hidden_states router_logits;
      final_hidden_states ← reshape [batch_size; sequence_length; hidden_dim] routed;
      shared_expert_output ← Qwen2MoeMLP_forward (shared_expert self) hidden_states;
      gate_logit ← linear (shared_expert_gate self) hidden_states;
      shared_expert_output ← binop Rmult (tmap sigmoid gate_logit) shared_expert_output;
      final_hidden_states ← binop Rplus final_hidden_states shared_expert_output;
      final_hidden_states ←
        reshape [batch_size; sequence_length; hidden_dim] final_hidden_states;
      Ok (final_hidden_states, router_logits)
  | _ => Raise ValueError
  end.

(** *** [modeling_openai.py] *)

Record OpenaiConfig := {
  oa_hidden_size : nat;
  oa_num_local_experts : nat;
  oa_num_experts_per_tok : nat
}.

(** A submodule, as the function its [forward] is. *)
Definition module := tensor R → result (tensor R).

(** [OpenaiMLP].  [oa_experts] is [OpenaiExperts], whose [forward] is
    inherited from [Llama4TextExperts] and not part of the slice.
    [oa_shared_expert] is the attribute [forward] reads on line 74: [None]
    stands for an attribute that was never set. *)
Record OpenaiMLP := {
  oa_top_k : nat;
  oa_hidden_dim : nat;
  oa_num_experts : nat;
  oa_experts : module;
  oa_router : tensor R;             (* weight of [nn.Linear(hidden_size, num_local_experts)] *)
  oa_shared_expert : option module
}.

(** [__init__] sets [top_k], [hidden_dim], [num_experts], [experts] and
    [router], and nothing else. *)
Definition OpenaiMLP_init (config : OpenaiConfig) (experts : module)
    (router_weight : tensor R) : OpenaiMLP :=
  {| oa_top_k := oa_num_experts_per_tok config;
     oa_hidden_dim := oa_hidden_size config;
     oa_num_experts := oa_num_local_experts config;
     oa_experts := experts;
     oa_router := router_weight;
     oa_shared_expert := None |}.

(** Lines 64 to 70: the flattened input, and the score of every expert for
    every token. *)
Definition OpenaiMLP_router_scores (self : OpenaiMLP) (hidden_states : tensor R)
  : result (tensor R * tensor R) :=
  hidden_states ← view_rows (oa_hidden_dim self) hidden_states;
  router_logits ← linear (oa_router self) hidden_states;
  '(router_top_value, router_indices) ← topk (oa_top_k self) router_logits;
  scattered ← scatter_1 (tmap (fun _ => NegInf) router_logits)
                        router_indices (tmap Fin router_top_value);
  router_scores ← transpose scattered;
  let router_scores := tmap sigmoid_x router_scores in
  Ok (hidden_states, router_scores).

Definition OpenaiMLP_forward (self : OpenaiMLP) (hidden_states : tensor R)
  : result (tensor R * tensor R) :=
  '(hidden_states, router_scores) ← OpenaiMLP_router_scores self hidden_states;
  routed_in ← repeat_rows (oa_num_experts self) hidden_states;
  column ← view_rows 1 router_scores;
  routed_in ← binop Rmult routed_in column;
  routed_out ← oa_experts self routed_in;
  shared_expert ← match oa_shared_expert self with
                  | Some m => Ok m
                  | None => Raise AttributeError
                  end;
  out ← shared_expert hidden_states;
  routed_sum ← sum_blocks (oa_num_experts self) (oa_hidden_dim self) routed_out;
  out ← inplace Rplus out routed_sum;
  Ok (out, router_scores).

End Routing.

End Moe.

(** ** Predicates used to state the properties *)

Module Props.
Import Re Convert.

(** Text without a line break: a parameter name. *)
Definition nl_free (s : text) : bool :=
  forallb (fun c => negb (Ascii.eqb c newline)) s.

Definition cls_nl_free (k : cclass) : bool :=
  match k with
  | CLit c => negb (Ascii.eqb c newline)
  | CAny | CDigit => true
  end.

(** A pattern none of whose characters is a line break. *)
Fixpoint re_nl_free (r : regex) : bool :=
  match r with
  | REps => true
  | RCls k | RPlus k => cls_nl_free k
  | RSeq r1 r2 | RAlt r1 r2 => re_nl_free r1 && re_nl_free r2
  | RGroup r0 => re_nl_free r0
  end.

Definition tpl_nl_free (t : template) : bool :=
  forallb (fun i => match i with TLit s => nl_free s | TRef _ => true end) t.

Definition rule_nl_free (rule : regex * option template) : bool :=
  re_nl_free rule.1 && from_option tpl_nl_free true rule.2.

Definition caps_nl_free (caps : captures) : Prop :=
  Forall (fun g => nl_free (default [] g) = true) caps.

(** A match found in a line, seen from the text that continues with [u] on
    the next line. *)
Definition extend (u : text) (cr : captures * text) : captures * text :=
  (cr.1, cr.2 ++ newline :: u).

(** A name in which no pattern of the table finds a match. *)
Definition unmatched (name : string) : bool :=
  forallb (fun rule : regex * option template => negb (search rule.1 (txt name)))
          ORIGINAL_TO_CONVERTED_KEY_MAPPING.

(** A name in which the pattern of a rule that drops (replacement [None])
    finds a match. *)
Definition dropped (name : string) : bool :=
  existsb (fun rule : regex * option template =>
             match rule.2 with
             | None => search rule.1 (txt name)
             | Some _ => false
             end)
          ORIGINAL_TO_CONVERTED_KEY_MAPPING.

(** The table applied to the lines one at a time, rule after rule: what
    [apply_rules] does to the joined text, seen line by line. *)
Fixpoint rules_lines (rules : list (regex * option template)) (ls : list text)
  : result (list text) :=
  match rules with
  | [] => Ok ls
  | rule :: rules' =>
      ls' ← mapM (fun l => apply_rule l rule) ls; rules_lines rules' ls'
  end.

(** A well-formed matrix of [n] rows and [h] columns. *)
Definition matrix {A} (n h : nat) (t : Tensor.tensor A) : Prop :=
  Tensor.shape t = [n; h] ∧ length (Tensor.data t) = n * h.

Section Routing.
Context `{ties : Moe.TopkTies}.

(** The routing of one token, read off lines 90 to 93: the weights and the
    experts selected for a row of router logits. *)
Definition selected_row (k : nat) (logits : list R) : list (nat * R) :=
  Moe.topk_row k (Moe.softmax_row logits).

Definition weights_row (k : nat) (norm : bool) (logits : list R) : list R :=
  let v := map snd (selected_row k logits) in
  if norm then map (fun x => Rdiv x (Moe.sum_R v)) v else v.

(** What [__init__] guarantees about an expert: rows of [h] features in,
    rows of [h] features out. *)
Definition mlp_ok (h : nat) (m : Moe.Qwen2MoeMLP) : Prop :=
  Moe.mlp_hidden_size m = h ∧ ∀ r, length r = h → length (Moe.mlp_row m r) = h.

(** A [Qwen2MoeNaiveMoe] as [__init__] builds it from a configuration. *)
Definition naive_built (config : Moe.Qwen2MoeConfig) (self : Moe.Qwen2MoeNaiveMoe)
  : Prop :=
  Moe.naive_top_k self = Moe.num_experts_per_tok config
  ∧ Moe.naive_num_experts self = Moe.num_experts config
  ∧ Moe.naive_norm_topk_prob self = Moe.norm_topk_prob config
  ∧ length (Moe.naive_experts self) = Moe.num_experts config
  ∧ Forall (mlp_ok (Moe.hidden_size config)) (Moe.naive_experts self).

(** A [Qwen2MoeSparseMoeBlock] as [__init__] builds it. *)
Definition block_built (config : Moe.Qwen2MoeConfig)
    (self : Moe.Qwen2MoeSparseMoeBlock) : Prop :=
  matrix (Moe.num_experts config) (Moe.hidden_size config) (Moe.gate self)
  ∧ naive_built config (Moe.experts self)
  ∧ mlp_ok (Moe.hidden_size config) (Moe.shared_expert self)
  ∧ matrix 1 (Moe.hidden_size config) (Moe.shared_expert_gate self).

(** A configuration the routing can work with: features to route on, and no
    more experts per token than there are experts. *)
Definition config_ok (config : Moe.Qwen2MoeConfig) : Prop :=
  0 < Moe.hidden_size config
  ∧ 0 < Moe.num_experts_per_tok config ≤ Moe.num_experts config.

(** The score [OpenaiMLP] gives expert [e] for a token with router logits
    [logits], read off lines 66 to 70: the sigmoid of its own logit when [e]
    is among the top [k], and the sigmoid of [-inf] otherwise. *)
Definition openai_score (k : nat) (logits : list R) (e : nat) : R :=
  Moe.sigmoid_x
    (if decide (e ∈ map fst (Moe.topk_row k logits))
     then Moe.Fin (nth e logits 0%R) else Moe.NegInf).

(** An [OpenaiMLP] whose router has the shape [__init__] gives it, for a
    configuration the routing can work with. *)
Definition openai_built (self : Moe.OpenaiMLP) : Prop :=
  matrix (Moe.oa_num_experts self) (Moe.oa_hidden_dim self) (Moe.oa_router self)
  ∧ 0 < Moe.oa_hidden_dim self
  ∧ 0 < Moe.oa_top_k self ≤ Moe.oa_num_experts self.

(** Lines 71 to 73 and the operand of line 75: what the experts contribute,
    computed from the flattened input and the scores alone. *)
Definition openai_routed_sum (self : Moe.OpenaiMLP)
    (hidden_states router_scores : Tensor.tensor R) : result (Tensor.tensor R) :=
  routed_in ← Moe.repeat_rows (Moe.oa_num_experts self) hidden_states;
  column ← TensorOps.view_rows 1 router_scores;
  routed_in ← TensorOps.binop Rmult routed_in column;
  routed_out ← Moe.oa_experts self routed_in;
  Moe.sum_blocks (Moe.oa_num_experts self) (Moe.oa_hidden_dim self) routed_out.

(** A submodule that takes a matrix of [n] rows and [h] columns to a matrix
    of the same shape. *)
Definition module_ok (n h : nat) (m : Moe.module) : Prop :=
  ∀ x, matrix n h x → ∃ y, m x = Ok y ∧ matrix n h y.

End Routing.

(** The ranking under which, among equal elements, [torch.topk] returns
    the one at the lower position first. *)
Definition lower_index_first : Moe.TopkTies := fun _ _ i => i.

(** What [torch.topk] promises of its result [sel] for [k] on the row [r]:
    [k] distinct positions with their elements, largest first, and no element
    left out that is larger than one it returns. *)
Definition topk_result (k : nat) (r : list R) (sel : list (nat * R)) : Prop :=
  length sel = k
  ∧ NoDup (map fst sel)
  ∧ (∀ i v, (i, v) ∈ sel → r !! i = Some v)
  ∧ StronglySorted (fun a b : nat * R => (b.2 <= a.2)%R) sel
  ∧ ∀ i v j w, (i, v) ∈ sel → r !! j = Some w → j ∉ map fst sel → (w <= v)%R.

(** The ranking that puts the positions listed in [order] first, in the
    order of the list. *)
Definition ranked (order : list nat) : Moe.TopkTies :=
  fun _ _ i => from_option fst (length order) (list_find (fun j => j = i) order).

(** The smallest instances: one expert, one feature, experts that return
    their input. *)
Definition identity_mlp : Moe.Qwen2MoeMLP :=
  {| Moe.mlp_hidden_size := 1; Moe.mlp_row := fun r => r |}.

Definition tiny_config : Moe.Qwen2MoeConfig :=
  {| Moe.hidden_size := 1; Moe.num_experts := 1;
     Moe.num_experts_per_tok := 1; Moe.norm_topk_prob := true |}.

Definition tiny_block : Moe.Qwen2MoeSparseMoeBlock :=
  {| Moe.block_num_experts := 1; Moe.block_top_k := 1;
     Moe.block_norm_topk_prob := true;
     Moe.gate := Tensor.mk [1; 1] [1%R];
     Moe.experts := {| Moe.naive_top_k := 1; Moe.naive_num_experts := 1;
                       Moe.naive_norm_topk_prob := true;
                       Moe.naive_experts := [identity_mlp] |};
     Moe.shared_expert := identity_mlp;
     Moe.shared_expert_gate := Tensor.mk [1; 1] [0%R] |}.

(** An [OpenaiMLP] with one expert that returns zero, and a shared expert
    attached by hand that returns its input. *)
Definition tiny_openai : Moe.OpenaiMLP :=
  {| Moe.oa_top_k := 1; Moe.oa_hidden_dim := 1; Moe.oa_num_experts := 1;
     Moe.oa_experts := fun x => Ok (TensorOps.tmap (fun _ => 0%R) x);
     Moe.oa_router := Tensor.mk [1; 1] [1%R];
     Moe.oa_shared_expert := Some (fun x => Ok x) |}.

(** The same module as [__init__] leaves it: no shared expert. *)
Definition tiny_openai_as_built : Moe.OpenaiMLP :=
  Moe.OpenaiMLP_init
    {| Moe.oa_hidden_size := 1; Moe.oa_num_local_experts := 1;
       Moe.oa_num_experts_per_tok := 1 |}
    (Moe.oa_experts tiny_openai) (Moe.oa_router tiny_openai).

End Props.


(** ** The rest of the conversion script and of the decoder layer *)

(** *** [compute_intermediate_size] and [write_tokenizer]

    Python floats are IEEE 754 binary64 numbers, here [spec_float] with a
    mantissa of [53] bits. *)

Module Script.

Inductive arith_error :=
| ZeroDivisionError
| OverflowError
| NanToIntError.       (* [ValueError]: cannot convert float NaN to integer *)

Inductive outcome (A : Type) :=
| Returns (a : A)
| Fails (e : arith_error).
Arguments Returns {A} a.
Arguments Fails {A} e.

#[global] Instance arith_error_eq_dec : EqDecision arith_error.
Proof. solve_decision. Defined.

#[global] Instance outcome_eq_dec {A} `{EqDecision A} : EqDecision (outcome A).
Proof. solve_decision. Defined.

Definition and_then {A B} (m : outcome A) (k : A → outcome B) : outcome B :=
  match m with
  | Returns a => k a
  | Fails e => Fails e
  end.

Definition float := spec_float.
Definition prec : Z := 53.
Definition emax : Z := 1024.

(** [float(n)] of an integer: the nearest float, ties to even. *)
Definition float_of_int (n : Z) : outcome float :=
  match binary_normalize prec emax n 0 false with
  | S754_infinity _ => Fails OverflowError
  | f => Returns f
  end.

(** [int(f)]: towards zero. *)
Definition int_of_float (f : float) : outcome Z :=
  match f with
  | S754_zero _ => Returns 0%Z
  | S754_infinity _ => Fails OverflowError
  | S754_nan => Fails NanToIntError
  | S754_finite s m e =>
      let v := match e with
               | Zneg k => Z.quot (Zpos m) (2 ^ Zpos k)
               | _ => (Zpos m * 2 ^ e)%Z
               end in
      Returns (if s then Z.opp v else v)
  end.

(** [a / b] of two integers, whatever their size: the float nearest to the
    quotient, ties to even; the sign of a zero is that of the quotient. *)
Definition true_divide (a b : Z) : outcome float :=
  if (b =? 0)%Z then Fails ZeroDivisionError
  else
    let '(m, e, l) := SFdiv_core_binary prec emax (Z.abs a) 0 (Z.abs b) 0 in
    match binary_round_aux prec emax (xorb (a <? 0)%Z (b <? 0)%Z) m e l with
    | S754_infinity _ => Fails OverflowError
    | f => Returns f
    end.

(** The literal [1.3]. *)
Definition default_ffn_dim_multiplier : float :=
  SFdiv prec emax (binary_normalize prec emax 13 0 false)
                  (binary_normalize prec emax 10 0 false).

(** The first two lines of [compute_intermediate_size]. *)
Definition scaled_hidden_dim (hidden_dim : Z) (ffn_dim_multiplier : float)
  : outcome Z :=
  and_then (true_divide (2 * hidden_dim) 3) (fun q =>
  and_then (int_of_float q) (fun i =>
  let hidden_dim := (4 * i)%Z in
  and_then (float_of_int hidden_dim) (fun x =>
  int_of_float (SFmul prec emax ffn_dim_multiplier x)))).

Definition compute_intermediate_size (hidden_dim multiple_of : Z)
    (ffn_dim_multiplier : float) : outcome Z :=
  and_then (scaled_hidden_dim hidden_dim ffn_dim_multiplier) (fun hidden_dim =>
  if (multiple_of =? 0)%Z then Fails ZeroDivisionError
  else Returns (multiple_of * ((hidden_dim + multiple_of - 1) / multiple_of))%Z).

(** The special tokens of [write_tokenizer]; [num_reserved_special_tokens]
    is [256] there. *)
Definition named_special_tokens : list string :=
  [ "<|begin_of_text|>"; "<|end_of_text|>";
    "<|reserved_special_token_0|>"; "<|reserved_special_token_1|>";
    "<|finetune_right_pad_id|>"; "<|step_id|>";
    "<|start_header_id|>"; "<|end_header_id|>";
    "<|eom_id|>"; "<|eot_id|>"; "<|python_tag|>" ]%string.

(** [f"<|reserved_special_token_{i + 2}|>"] *)
Definition reserved_special_token (i : nat) : string :=
  ("<|reserved_special_token_" +:+ pretty (i + 2)%nat +:+ "|>")%string.

Definition special_tokens_of (num_reserved_special_tokens : nat) : list string :=
  let special_tokens := named_special_tokens in
  let special_tokens :=
    special_tokens
    ++ map reserved_special_token
           (seq 0 (num_reserved_special_tokens - length special_tokens)) in
  special_tokens ++ ["<|image|>"%string].

Definition special_tokens : list string := special_tokens_of 256.

(** The tokens [write_tokenizer] passes as [bos_token], [eos_token] and
    [pad_token]. *)
Definition bos_token : string := "<|begin_of_text|>".
Definition eos_token (instruct : bool) : string :=
  if negb instruct then "<|end_of_text|>"%string else "<|eot_id|>"%string.
Definition pad_token : string := "<|finetune_right_pad_id|>".

End Script.

(** *** [Qwen2MoeDecoderLayer.__init__]: which branch a layer takes

    Only the test of lines 150 to 152 is modelled, which decides whether
    [Qwen2MoeSparseMoeBlock(config)] or [Qwen2MoeMLP(config, ...)] is called.
    The two constructors are not: [Qwen2MoeMLP.__init__], which both run,
    reads the name [ACT2FN], which the module never imports. *)

Module Layers.
Import Script.

Record Qwen2MoeConfig := {
  mlp_only_layers : list Z;
  num_experts : Z;
  decoder_sparse_step : Z
}.

(** The value of the test.  [and] does not evaluate its right operand when
    the left one is false, and [%] by zero raises. *)
Definition Qwen2MoeDecoderLayer_is_sparse (config : Qwen2MoeConfig)
    (layer_idx : nat) : outcome bool :=
  if bool_decide (Z.of_nat layer_idx ∉ mlp_only_layers config) then
    if bool_decide (num_experts config > 0)%Z then
      if bool_decide (decoder_sparse_step config = 0)%Z
      then Fails ZeroDivisionError
      else Returns (bool_decide
                      ((Z.of_nat layer_idx + 1) `mod` decoder_sparse_step config
                       = 0)%Z)
    else Returns false
  else Returns false.

(** The layer indices below [n] for which the test holds. *)
Definition sparse_indices (config : Qwen2MoeConfig) (n : nat) : list nat :=
  filter (fun layer_idx =>
            Qwen2MoeDecoderLayer_is_sparse config layer_idx = Returns true)
         (seq 0 n).

End Layers.

(** ** Further predicates on the key remapper and the conversion loop *)

Module ConvertProps.
Import Re Tensor Convert.

(** Every group reference of the template names a group of the pattern. *)
Definition template_ok (r : regex) (t : template) : bool :=
  forallb (fun i => match i with
                    | TLit _ => true
                    | TRef n => (0 <? n)%nat && (n <=? ngroups r)%nat
                    end) t.

Definition rule_ok (rule : regex * option template) : bool :=
  from_option (template_ok rule.1) true rule.2.

(** [new_keys.get(key, key)] of line 114. *)
Definition new_name (new_keys : gmap string string) (key : string) : string :=
  default key (new_keys !! key).

(** The entries of the checkpoint that the loop binds under the name [n]. *)
Definition bound_as {A} (new_keys : gmap string string) (n : string)
    (entries : list (string * tensor A)) : list (string * tensor A) :=
  filter (fun e => new_name new_keys e.1 = n) entries.

(** The rules of the table before the one for [attn.out], and that rule. *)
Definition rules_before_attn_out : list (regex * option template) :=
  firstn 5 ORIGINAL_TO_CONVERTED_KEY_MAPPING.

Definition attn_out_pattern : regex := block_pat ".attn.out".

(** The character a match of the pattern has to start with, when there is
    one. *)
Fixpoint first_lit (r : regex) : option ascii :=
  match r with
  | RCls (CLit c) => Some c
  | RSeq r1 _ => first_lit r1
  | RGroup r0 => first_lit r0
  | _ => None
  end.

(** The key of the fused attention weights of the block numbered by the
    digits [ds], and the name the table gives it. *)
Definition qkv_key (ds : text) : string :=
  str (txt "block." ++ ds ++ txt ".attn.qkv.weight").

Definition qkv_name (ds : text) : string :=
  str (txt "layers." ++ ds ++ txt ".self_attn.(k|v|q)_proj.weight").

(** The same key and name behind the prefix [language_model.], which the
    test of line 115 looks for. *)
Definition lm_qkv_key (ds : text) : string :=
  str (txt "language_model.block." ++ ds ++ txt ".attn.qkv.weight").

Definition lm_qkv_name (ds : text) : string :=
  str (txt "language_model.layers." ++ ds ++ txt ".self_attn.(k|v|q)_proj.weight").

(** The rules of the table for the tensors of a block, as the text after
    [block.(\d+)] and the replacement. *)
Definition block_table : list (string * template) :=
  [ (".attn.qkv",        [T "layers."; TRef 1; T ".self_attn.(k|v|q)_proj"]);
    (".attn.out",        [T "layers."; TRef 1; T ".self_attn."; TRef 2; T "_proj"]);
    (".attn.sinks",      [T "layers."; TRef 1; T ".self_attn.sinks"]);
    (".attn.norm",       [T "layers."; TRef 1; T ".input_layernorm.weight"]);
    (".mlp.mlp1_weight", [T "layers."; TRef 1; T ".mlp.gate_up_proj.weight"]);
    (".mlp.mlp1_bias",   [T "layers."; TRef 1; T ".mlp.gate_up_proj.bias"]);
    (".mlp.mlp2_weight", [T "layers."; TRef 1; T ".mlp.down_proj.weight"]);
    (".mlp.mlp2_bias",   [T "layers."; TRef 1; T ".mlp.down_proj.bias"]);
    (".mlp.norm",        [T "layers."; TRef 1; T ".post_attention_layernorm.weight"]);
    (".mlp.gate",        [T "layers."; TRef 1; T ".mlp.router.weight"]) ]%string.

Definition block_rule (pt : string * template) : regex * option template :=
  (block_pat pt.1, Some pt.2).

(** The key of a tensor of the block numbered by the digits [ds], and the
    name of a tensor of the layer with that number. *)
Definition block_key (ds : text) (p : string) : string :=
  str (txt "block." ++ ds ++ txt p).

Definition layer_name (ds : text) (q : string) : string :=
  str (txt "layers." ++ ds ++ txt q).

(** The letter after the wildcard that a pattern starts with. *)
Definition wild_then_lit (r : regex) : option ascii :=
  match r with
  | RSeq (RCls CAny) r' => first_lit r'
  | _ => None
  end.

(** A sufficient test for [block.(\d+)] followed by [p] not to be found in
    [block.N] followed by [tail], whatever the number [N]. *)
Definition block_rule_misses (p : string) (tail : text) : bool :=
  match wild_then_lit (pat p), tail with
  | Some a, c :: _ =>
      negb (is_digit a) && negb (is_digit c) && negb (Ascii.eqb a c)
      && match rmatch (pat p) tail with [] => true | _ => false end
      && negb (search (block_pat p) tail)
  | _, _ => false
  end.

(** A sufficient test for rule [k] of [block_table], with pattern text [p]
    and replacement [layers.\1] followed by [q], to be the one rule that
    rewrites the key [block.N] followed by [p]. *)
Definition block_rule_check (k : nat) (p q : string) : bool :=
  forallb (fun rule : regex * option template => negb (search rule.1 (txt p)))
          (firstn 4 ORIGINAL_TO_CONVERTED_KEY_MAPPING)
  && forallb (fun pt : string * template => block_rule_misses pt.1 (txt p))
             (firstn k block_table)
  && match txt p with c :: _ => negb (is_digit c) | [] => false end
  && match rmatch (pat p) (txt p) with ([], []) :: _ => true | _ => false end
  && forallb (fun pt : string * template => negb (search (block_pat pt.1) (txt q)))
             (skipn (S k) block_table)
  && forallb (fun c => negb (Ascii.eqb c newline)) (txt p).

End ConvertProps.

(** ** Further predicates on the routing *)

Module MoeProps.
Import Tensor TensorOps Moe Props.
Local Open Scope R_scope.

(** What expert [e] of a module list returns for one token. *)
Definition expert_row (experts : list Qwen2MoeMLP) (e : nat) (x : list R)
  : list R :=
  from_option (fun m => mlp_row m x) [] (experts !! e).

(** The mixture of experts for one token with hidden vector [x] of [h]
    features: the outputs of the selected experts, each multiplied by its
    weight, added up. *)
Definition mixture (experts : list Qwen2MoeMLP) (h : nat) (x : list R)
    (selected : list nat) (weights : list R) : list R :=
  foldr (fun ew acc =>
           zip_with Rplus (map (fun v => v * ew.2) (expert_row experts ew.1 x)) acc)
        (repeat 0 h) (zip selected weights).

(** The slots of a token's selection that hold expert [e]. *)
Definition slots (selected : list nat) (e : nat) : list nat :=
  filter (fun j => nth j selected (S e) = e) (seq 0 (length selected)).

(** A small instance: three experts that scale their input, two of them
    selected per token. *)
Definition scaling_mlp (c : R) : Qwen2MoeMLP :=
  {| mlp_hidden_size := 2; mlp_row := map (Rmult c) |}.

Definition small_config : Qwen2MoeConfig :=
  {| hidden_size := 2; num_experts := 3;
     num_experts_per_tok := 2; norm_topk_prob := true |}.

Definition small_moe : Qwen2MoeNaiveMoe :=
  {| naive_top_k := 2; naive_num_experts := 3; naive_norm_topk_prob := true;
     naive_experts := [scaling_mlp 1; scaling_mlp 2; scaling_mlp 3] |}.

Definition small_block : Qwen2MoeSparseMoeBlock :=
  {| block_num_experts := 3; block_top_k := 2; block_norm_topk_prob := true;
     gate := Tensor.mk [3%nat; 2%nat] [1; 0; 0; 1; 1; 1];
     experts := small_moe;
     shared_expert := scaling_mlp 5;
     shared_expert_gate := Tensor.mk [1%nat; 2%nat] [1; -1] |}.

(** Lines 64 to 72 of [OpenaiMLP.forward]: the flattened input, the scores
    and the input of the experts. *)
Definition OpenaiMLP_routed_in `{ties : TopkTies} (self : OpenaiMLP)
    (hidden_states : tensor R) : result (tensor R * tensor R * tensor R) :=
  '(hidden_states, router_scores) ← OpenaiMLP_router_scores self hidden_states;
  routed_in ← repeat_rows (oa_num_experts self) hidden_states;
  column ← view_rows 1 router_scores;
  routed_in ← binop Rmult routed_in column;
  Ok (hidden_states, router_scores, routed_in).

End MoeProps.
(** * Properties *)

(** ** Rows of a row-major buffer *)

Section TensorFacts.
Import Tensor.
Context {A : Type}.
Implicit Types (d : list A) (t : tensor A) (rs : list (list A)).

Lemma split_rows_length n s d : length (split_rows n s d) = n.
Proof. revert d; induction n; intros; simpl; auto. Qed.

Lemma split_rows_concat n s d :
  length d = n * s → concat (split_rows n s d) = d.
Proof.
  revert d; induction n as [|n IH]; intros d Hd; simpl in *.
  - destruct d; [done | discriminate].
  - rewrite IH.
    + apply firstn_skipn.
    + rewrite length_skipn. lia.
Qed.

Lemma split_rows_row_length n s d :
  length d = n * s → Forall (fun r => length r = s) (split_rows n s d).
Proof.
  revert d; induction n as [|n IH]; intros d Hd; simpl in *; constructor.
  - rewrite length_firstn. lia.
  - apply IH. rewrite length_skipn. lia.
Qed.

Lemma split_rows_of_concat s rs :
  Forall (fun r => length r = s) rs →
  split_rows (length rs) s (concat rs) = rs.
Proof.
  induction 1 as [|r rs Hr _ IH]; simpl; [done|].
  rewrite (take_app_length' r (concat rs) s) by done.
  rewrite (drop_app_length' r (concat rs) s) by done.
  by rewrite IH.
Qed.

Lemma numel_app a b : numel (a ++ b) = numel a * numel b.
Proof. induction a; simpl; [lia|]. rewrite IHa. lia. Qed.

Lemma shape_lead_last (shp : list nat) :
  shp ≠ [] → shp = lead shp ++ [last_dim shp].
Proof. intros H. unfold lead, last_dim. by apply app_removelast_last. Qed.

Lemma numel_lead_last (shp : list nat) :
  shp ≠ [] → numel shp = numel (lead shp) * last_dim shp.
Proof.
  intros H. rewrite (shape_lead_last shp H) at 1.
  rewrite numel_app. simpl. lia.
Qed.

Lemma lead_snoc (l : list nat) x : lead (l ++ [x]) = l.
Proof. unfold lead. apply removelast_last. Qed.

Lemma last_dim_snoc (l : list nat) x : last_dim (l ++ [x]) = x.
Proof. unfold last_dim. apply last_last. Qed.

Lemma rows_length t : length (rows t) = numel (lead (shape t)).
Proof. apply split_rows_length. Qed.

Lemma rows_concat t : wf t → shape t ≠ [] → concat (rows t) = data t.
Proof.
  intros Hw Hs. apply split_rows_concat.
  rewrite Hw. by apply numel_lead_last.
Qed.

Lemma rows_row_length t :
  wf t → shape t ≠ [] →
  Forall (fun r => length r = last_dim (shape t)) (rows t).
Proof.
  intros Hw Hs. apply split_rows_row_length.
  rewrite Hw. by apply numel_lead_last.
Qed.

(** The rows of a slice along the last axis are the slices of the rows. *)
Lemma rows_narrow_last start len t :
  wf t → shape t ≠ [] → start + len ≤ last_dim (shape t) →
  rows (narrow_last start len t)
  = map (fun row => firstn len (skipn start row)) (rows t).
Proof.
  intros Hw Hs Hle. unfold rows at 1, narrow_last; simpl.
  rewrite lead_snoc, last_dim_snoc.
  rewrite <- (rows_length t), <- (length_map (fun row => firstn len (skipn start row))).
  apply split_rows_of_concat.
  apply Forall_map. eapply Forall_impl; [by apply rows_row_length|].
  simpl. intros r Hr. rewrite length_firstn, length_skipn. lia.
Qed.

Lemma narrow_last_wf start len t :
  wf t → shape t ≠ [] → start + len ≤ last_dim (shape t) →
  wf (narrow_last start len t).
Proof.
  intros Hw Hs Hle. unfold wf, narrow_last; simpl.
  rewrite numel_app; simpl.
  pose proof (rows_row_length t Hw Hs) as Hr.
  rewrite <- (rows_length t).
  induction Hr as [|r rs Hr _ IH]; simpl; [done|].
  rewrite length_app, IH, length_firstn, length_skipn. lia.
Qed.

End TensorFacts.

(** ** [torch.chunk] into three along the last axis *)

Section ChunkFacts.
Import Tensor.
Context {A : Type}.
Implicit Types (t : tensor A).

Lemma ceil_div3 s : (s + 3 - 1) / 3 = (s + 2) / 3.
Proof. f_equal. lia. Qed.

(** When the pieces do not run out early: three pieces, the first two of
    [c = ceil(s / 3)] elements, the third of what is left. *)
Lemma chunk3_three t s c :
  shape t ≠ [] → last_dim (shape t) = s → c = (s + 2) / 3 →
  0 < c → 2 * c < s →
  chunk 3 t = Ok [narrow_last 0 c t; narrow_last c c t;
                  narrow_last (2 * c) (s - 2 * c) t].
Proof.
  intros Hs Hl Hc Hpos Hlt. unfold chunk.
  destruct (shape t) as [|d shp] eqn:E; [done|]. rewrite Hl.
  rewrite ceil_div3, <- Hc.
  destruct (Nat.eqb_spec c 0) as [?|_]; [lia|].
  assert (Hle : s ≤ 3 * c).
  { subst c. pose proof (Nat.div_mod_eq (s + 2) 3).
    pose proof (Nat.mod_upper_bound (s + 2) 3). lia. }
  assert (Hn : (s + c - 1) / c = 3).
  { symmetry. apply (Nat.div_unique _ _ _ (s - 2 * c - 1)); lia. }
  rewrite Hn. cbn [Nat.max seq map Nat.sub Nat.ltb Nat.leb].
  replace (0 * c) with 0 by lia. replace (1 * c) with c by lia.
  replace (c - (c * 3 - s)) with (s - 2 * c) by lia. done.
Qed.

(** A last axis of [3 n] elements: three pieces of [n]. *)
Lemma chunk3_even t n :
  shape t ≠ [] → last_dim (shape t) = 3 * n →
  chunk 3 t = Ok [narrow_last 0 n t; narrow_last n n t;
                  narrow_last (2 * n) n t].
Proof.
  intros Hs Hl. destruct n as [|n].
  - unfold chunk. destruct (shape t) as [|d shp] eqn:E; [done|].
    rewrite Hl. done.
  - assert (Hc : S n = (3 * S n + 2) / 3).
    { apply (Nat.div_unique _ _ _ 2); lia. }
    rewrite (chunk3_three t (3 * S n) (S n)) by (done || lia).
    replace (3 * S n - 2 * S n) with (S n) by lia. done.
Qed.

(** When the pieces run out early there are fewer than three of them. *)
Lemma chunk3_short t s :
  shape t ≠ [] → last_dim (shape t) = s → 0 < s → s ≤ 2 * ((s + 2) / 3) →
  ∃ ps, chunk 3 t = Ok ps ∧ length ps < 3.
Proof.
  intros Hs Hl Hpos Hle. unfold chunk.
  destruct (shape t) as [|d shp] eqn:E; [done|]. rewrite Hl.
  rewrite ceil_div3. set (c := (s + 2) / 3) in *.
  assert (Hc : 0 < c).
  { subst c. apply Nat.div_str_pos. lia. }
  destruct (Nat.eqb_spec c 0) as [?|_]; [lia|].
  eexists; split; [done|].
  rewrite length_map, length_seq.
  assert ((s + c - 1) / c < 3); [|lia].
  apply Nat.Div0.div_lt_upper_bound. lia.
Qed.

(** The three slices of a row of [a + b + c] elements put it back together. *)
Lemma row_three_slices (r : list A) a b c :
  length r = a + b + c →
  firstn a r ++ firstn b (skipn a r) ++ firstn c (skipn (a + b) r) = r.
Proof.
  intros Hr.
  rewrite <- (firstn_skipn a r) at 4. f_equal.
  rewrite <- (firstn_skipn b (skipn a r)) at 2. f_equal.
  rewrite skipn_skipn, (Nat.add_comm b a).
  apply firstn_all2. rewrite length_skipn. lia.
Qed.

Lemma zip_with_map_same {B C D} (f : B → C → D) (g h : list A → _) (rs : list (list A)) :
  zip_with f (map g rs) (map h rs) = map (fun r => f (g r) (h r)) rs.
Proof. induction rs; simpl; congruence. Qed.

Lemma zip_with_app_nil_r (rs : list (list A)) :
  zip_with app rs (repeat [] (length rs)) = rs.
Proof. induction rs; simpl; [done|]. by rewrite app_nil_r, IHrs. Qed.

(** Concatenating three slices that cover the last axis gives the tensor
    back. *)
Lemma cat_last_three_slices t a b c :
  wf t → shape t ≠ [] → last_dim (shape t) = a + b + c →
  cat_last [narrow_last 0 a t; narrow_last a b t; narrow_last (a + b) c t] = t.
Proof.
  intros Hw Hs Hl. unfold cat_last.
  cbn [map foldr]. 
  rewrite !rows_narrow_last by (done || lia).
  assert (Hlen : numel (lead (shape (narrow_last 0 a t))) = length (rows t)).
  { simpl. by rewrite lead_snoc, rows_length. }
  rewrite Hlen.
  rewrite <- (length_map (fun row => firstn c (skipn (a + b) row)) (rows t)) at 1.
  rewrite zip_with_app_nil_r.
  rewrite !zip_with_map_same.
  destruct t as [shp d]; simpl in *. f_equal.
  - rewrite lead_snoc, !last_dim_snoc.
    rewrite (shape_lead_last shp Hs) at 2. f_equal. f_equal. lia.
  - rewrite <- (rows_concat (mk shp d) Hw Hs) at 2. f_equal.
    rewrite <- (map_id (rows (mk shp d))) at 2.
    apply map_ext_Forall.
    eapply Forall_impl; [apply (rows_row_length (mk shp d) Hw Hs)|].
    simpl. intros r Hr. unfold id. rewrite skipn_O.
    apply row_three_slices. lia.
Qed.

End ChunkFacts.

(** ** The matcher *)

Ltac rsimpl := cbn [mbind result_bind mret result_ret].

Section ReFacts.
Import Re Props.
Implicit Types (r : regex) (s u rest : text) (caps : captures).

Lemma nl_free_spec s : nl_free s = true ↔ newline ∉ s.
Proof.
  unfold nl_free. rewrite forallb_forall. split.
  - intros H Hin. apply list_elem_of_In in Hin. specialize (H _ Hin).
    by rewrite Ascii.eqb_refl in H.
  - intros H c Hc. apply list_elem_of_In in Hc.
    destruct (Ascii.eqb_spec c newline) as [->|]; done.
Qed.

Lemma nl_free_app s u : nl_free (s ++ u) = nl_free s && nl_free u.
Proof. apply forallb_app. Qed.

Lemma plus_rests_suffix k s rest :
  rest ∈ plus_rests k s → ∃ p, s = p ++ rest ∧ p ≠ [].
Proof.
  revert rest; induction s as [|c s IH]; intros rest; simpl.
  - by intros ?%elem_of_nil.
  - destruct (cmatch k c); [|by intros ?%elem_of_nil].
    rewrite elem_of_app, list_elem_of_singleton. intros [H| ->].
    + destruct (IH _ H) as (p & -> & _). by exists (c :: p).
    + by exists [c].
Qed.

(** What a match leaves over is a suffix of the text. *)
Lemma rmatch_suffix r s caps rest :
  (caps, rest) ∈ rmatch r s → ∃ p, s = p ++ rest.
Proof.
  revert s caps rest; induction r as [|k|k|r1 IH1 r2 IH2|r1 IH1 r2 IH2|r IH];
    intros s caps rest; simpl.
  - rewrite list_elem_of_singleton. intros [= -> ->]. by exists [].
  - destruct s as [|c s]; [by intros ?%elem_of_nil|].
    destruct (cmatch k c); [|by intros ?%elem_of_nil].
    rewrite list_elem_of_singleton. intros [= -> ->]. by exists [c].
  - rewrite list_elem_of_fmap. intros (x & [= -> ->] & Hx).
    destruct (plus_rests_suffix _ _ _ Hx) as (p & -> & _). by exists p.
  - rewrite list_elem_of_In, in_flat_map.
    intros ([c1 s1] & H1%list_elem_of_In & H2%list_elem_of_In).
    apply list_elem_of_fmap in H2 as ([c2 s2] & [= -> ->] & H2).
    destruct (IH1 _ _ _ H1) as (p1 & ->), (IH2 _ _ _ H2) as (p2 & ->).
    exists (p1 ++ p2). by rewrite app_assoc.
  - rewrite elem_of_app, !list_elem_of_fmap.
    intros [([c1 s1] & [= -> ->] & H)|([c2 s2] & [= -> ->] & H)]; eauto.
  - rewrite list_elem_of_fmap. intros ([c0 s0] & [= -> ->] & H). eauto.
Qed.

Lemma match_here_suffix r s caps rest :
  match_here r s = Some (caps, rest) → ∃ p, s = p ++ rest.
Proof.
  unfold match_here. intros H. apply (rmatch_suffix r s caps).
  destruct (rmatch r s); simplify_eq/=. left.
Qed.

(** *** Matches stay within a line *)

Lemma cmatch_newline k : cls_nl_free k = true → cmatch k newline = false.
Proof.
  destruct k as [c| |]; simpl; [|done..].
  rewrite Ascii.eqb_sym. by intros ->%negb_true_iff.
Qed.

Lemma plus_rests_nl k s u :
  cls_nl_free k = true →
  plus_rests k (s ++ newline :: u)
  = map (fun rest => rest ++ newline :: u) (plus_rests k s).
Proof.
  intros Hk. induction s as [|c s IH]; simpl.
  - by rewrite cmatch_newline.
  - destruct (cmatch k c); [|done].
    by rewrite IH, map_app.
Qed.

Lemma rmatch_nl r s u :
  re_nl_free r = true →
  rmatch r (s ++ newline :: u) = map (extend u) (rmatch r s).
Proof.
  revert s; induction r as [|k|k|r1 IH1 r2 IH2|r1 IH1 r2 IH2|r IH];
    intros s Hr; simpl in *.
  - done.
  - destruct s as [|c s]; simpl.
    + by rewrite cmatch_newline.
    + by destruct (cmatch k c).
  - rewrite plus_rests_nl, !map_map by done. done.
  - apply andb_true_iff in Hr as [H1 H2]. rewrite IH1 by done.
    induction (rmatch r1 s) as [|[c1 s1] l IHl]; simpl; [done|].
    rewrite map_app, IHl. f_equal.
    unfold extend at 1; simpl. rewrite IH2, !map_map by done.
    apply map_ext. by intros [c2 s2].
  - apply andb_true_iff in Hr as [H1 H2].
    rewrite IH1, IH2, map_app, !map_map by done.
    f_equal; apply map_ext; by intros [c0 s0].
  - rewrite IH, !map_map by done.
    apply map_ext_in. intros [c0 s0] Hin. unfold extend; simpl.
    apply list_elem_of_In, rmatch_suffix in Hin as [p ->].
    rewrite <- app_assoc, !length_app.
    replace (_ + _ - _) with (length p) by lia.
    replace (length p + length s0 - length s0) with (length p) by lia.
    by rewrite !take_app_length.
Qed.

Lemma match_here_nl r s u :
  re_nl_free r = true →
  match_here r (s ++ newline :: u) = option_map (extend u) (match_here r s).
Proof.
  intros Hr. unfold match_here. rewrite rmatch_nl by done.
  by destruct (rmatch r s).
Qed.

(** *** Substitution works line by line *)

Lemma sub_from_line r t skip s u :
  re_nl_free r = true → skip ≤ length s →
  sub_from r t skip (s ++ newline :: u)
  = a ← sub_from r t skip s; b ← sub_from r t 0 u; Ok (a ++ newline :: b).
Proof.
  intros Hr. revert skip; induction s as [|c s IH]; intros skip Hskip.
  - assert (skip = 0) as -> by (simpl in Hskip; lia).
    change ([] ++ newline :: u) with (newline :: u).
    cbn [sub_from].
    pose proof (match_here_nl r [] u Hr) as Hm. simpl in Hm. rewrite Hm.
    destruct (match_here r []) as [[caps rest]|] eqn:E; simpl.
    + apply match_here_suffix in E as [p Hp].
      symmetry in Hp. apply app_eq_nil in Hp as [_ ->]. simpl.
      rewrite Nat.sub_diag.
      destruct (expand t caps); simpl; [|done].
      by destruct (sub_from r t 0 u).
    + by destruct (sub_from r t 0 u).
  - change ((c :: s) ++ newline :: u) with (c :: s ++ newline :: u).
    destruct skip as [|k]; cbn [sub_from].
    + pose proof (match_here_nl r (c :: s) u Hr) as Hm.
      change ((c :: s) ++ newline :: u) with (c :: s ++ newline :: u) in Hm.
      rewrite Hm.
      destruct (match_here r (c :: s)) as [[caps rest]|] eqn:E;
        cbn [option_map extend fst snd].
      * apply match_here_suffix in E as [p Hp].
        assert (Hlp : length rest ≤ length (c :: s)).
        { rewrite Hp, length_app. lia. }
        replace (length (c :: s ++ newline :: u) - length (rest ++ newline :: u))
          with (length (c :: s) - length rest)
          by (cbn [length] in *; rewrite !length_app; cbn [length]; lia).
        destruct (expand t caps) as [rep|]; rsimpl; [|done].
        destruct (length (c :: s) - length rest) as [|k] eqn:En.
        -- rewrite IH by lia.
           destruct (sub_from r t 0 s); rsimpl; [|done].
           destruct (sub_from r t 0 u); rsimpl; [|done].
           by rewrite <- !app_assoc.
        -- rewrite IH by (cbn [length] in *; lia).
           destruct (sub_from r t k s); rsimpl; [|done].
           destruct (sub_from r t 0 u); rsimpl; [|done].
           by rewrite <- !app_assoc.
      * rewrite IH by lia.
        destruct (sub_from r t 0 s); rsimpl; [|done].
        by destruct (sub_from r t 0 u).
    + apply IH. simpl in Hskip. lia.
Qed.

(** *** Substitution keeps a line a line *)

Lemma nl_free_take n s : nl_free s = true → nl_free (take n s) = true.
Proof.
  intros H. rewrite <- (take_drop n s), nl_free_app in H.
  by apply andb_true_iff in H as [? _].
Qed.

Lemma rmatch_nl_free r s caps rest :
  nl_free s = true → (caps, rest) ∈ rmatch r s →
  caps_nl_free caps ∧ nl_free rest = true.
Proof.
  intros Hs Hin. split.
  2:{ apply rmatch_suffix in Hin as [p ->]. rewrite nl_free_app in Hs.
      by apply andb_true_iff in Hs as [_ ?]. }
  revert s caps rest Hs Hin.
  induction r as [|k|k|r1 IH1 r2 IH2|r1 IH1 r2 IH2|r IH];
    intros s caps rest Hs; simpl.
  - rewrite list_elem_of_singleton. intros [= -> ->]. constructor.
  - destruct s as [|c s]; [by intros ?%elem_of_nil|].
    destruct (cmatch k c); [|by intros ?%elem_of_nil].
    rewrite list_elem_of_singleton. intros [= -> ->]. constructor.
  - rewrite list_elem_of_fmap. intros (x & [= -> ->] & Hx). constructor.
  - rewrite list_elem_of_In, in_flat_map.
    intros ([c1 s1] & H1%list_elem_of_In & H2%list_elem_of_In).
    apply list_elem_of_fmap in H2 as ([c2 s2] & [= -> ->] & H2).
    apply Forall_app; split; [by eapply IH1|].
    eapply IH2; [|done].
    apply rmatch_suffix in H1 as [p ->]. rewrite nl_free_app in Hs.
    by apply andb_true_iff in Hs as [_ ?].
  - rewrite elem_of_app, !list_elem_of_fmap.
    intros [([c1 s1] & [= -> ->] & H)|([c2 s2] & [= -> ->] & H)];
      apply Forall_app; split;
      try (by eapply IH1); try (by eapply IH2);
      apply Forall_forall; by intros x ->%list_elem_of_In%repeat_spec.
  - rewrite list_elem_of_fmap. intros ([c0 s0] & [= -> ->] & H).
    constructor; [|by eapply IH]. simpl. by apply nl_free_take.
Qed.

Lemma expand_nl_free t caps o :
  tpl_nl_free t = true → caps_nl_free caps →
  expand t caps = Ok o → nl_free o = true.
Proof.
  intros Ht Hc. revert o; induction t as [|[lit|n] t IH]; intros o; simpl in *.
  - by intros [= <-].
  - apply andb_true_iff in Ht as [Hl Ht].
    destruct (expand t caps) as [tl|]; rsimpl; [|done].
    intros [= <-]. rewrite nl_free_app, Hl. by apply IH.
  - destruct n as [|i]; [done|].
    destruct (nth_error caps i) as [g|] eqn:E; [|done].
    destruct (expand t caps) as [tl|]; rsimpl; [|done].
    intros [= <-]. rewrite nl_free_app, (IH Ht tl eq_refl), andb_true_r.
    eapply Forall_forall in Hc; [done|].
    apply list_elem_of_In. by eapply nth_error_In.
Qed.

Lemma sub_from_nl_free r t skip s o :
  tpl_nl_free t = true → nl_free s = true →
  sub_from r t skip s = Ok o → nl_free o = true.
Proof.
  intros Ht. revert skip o; induction s as [|c s IH]; intros skip o Hs.
  - simpl. destruct skip; [|by intros [= <-]].
    destruct (match_here r []) as [[caps rest]|] eqn:E; [|by intros [= <-]].
    intros Ho. eapply expand_nl_free; [done| |done].
    eapply (rmatch_nl_free r [] caps rest); [done|].
    unfold match_here in E. destruct (rmatch r []); simplify_eq/=. left.
  - pose proof Hs as Hs'. simpl in Hs'.
    apply andb_true_iff in Hs' as [Hc Hs'].
    cbn [sub_from]. destruct skip as [|k]; [|by apply IH].
    destruct (match_here r (c :: s)) as [[caps rest]|] eqn:E.
    + assert (Hcaps : caps_nl_free caps).
      { eapply (rmatch_nl_free r (c :: s) caps rest); [done|].
        unfold match_here in E. destruct (rmatch r (c :: s)); simplify_eq/=.
        left. }
      destruct (expand t caps) as [rep|] eqn:Er; rsimpl; [|done].
      pose proof (expand_nl_free _ _ _ Ht Hcaps Er) as Hrep.
      destruct (length (c :: s) - length rest) as [|k].
      * destruct (sub_from r t 0 s) as [tl|] eqn:Et; rsimpl; [|done].
        intros [= <-]. rewrite nl_free_app, Hrep. simpl. rewrite Hc.
        by eapply IH.
      * destruct (sub_from r t k s) as [tl|] eqn:Et; rsimpl; [|done].
        intros [= <-]. rewrite nl_free_app, Hrep. by eapply IH.
    + destruct (sub_from r t 0 s) as [tl|] eqn:Et; rsimpl; [|done].
      intros [= <-]. simpl. rewrite Hc. by eapply IH.
Qed.

(** Where the pattern finds nothing, nothing changes. *)
Lemma sub_from_unmatched r t s :
  search r s = false → sub_from r t 0 s = Ok s.
Proof.
  induction s as [|c s IH]; simpl.
  - by destruct (match_here r []).
  - destruct (match_here r (c :: s)); [done|].
    intros H. by rewrite IH.
Qed.

(** *** Replacement by a literal *)

Lemma sub_from_lit_total r w skip s :
  ∃ o, sub_from r [TLit w] skip s = Ok o.
Proof.
  revert skip; induction s as [|c s IH]; intros skip; cbn [sub_from expand].
  - destruct skip, (match_here r []) as [[caps rest]|]; rsimpl; eauto.
  - destruct skip as [|k]; [|done].
    destruct (match_here r (c :: s)) as [[caps rest]|]; rsimpl.
    + destruct (length (c :: s) - length rest) as [|k].
      * destruct (IH 0) as [o ->]. rsimpl. eauto.
      * destruct (IH k) as [o ->]. rsimpl. eauto.
    + destruct (IH 0) as [o ->]. rsimpl. eauto.
Qed.

(** Two literals that differ in their first character give different results
    as soon as the pattern is found once. *)
Lemma sub_from_lit_differ r c1 c2 w s o1 o2 :
  c1 ≠ c2 → search r s = true →
  sub_from r [TLit (c1 :: w)] 0 s = Ok o1 →
  sub_from r [TLit (c2 :: w)] 0 s = Ok o2 →
  o1 ≠ o2.
Proof.
  intros Hc. revert o1 o2; induction s as [|c s IH]; intros o1 o2;
    cbn [sub_from expand search].
  - destruct (match_here r []) as [[caps rest]|]; [|done]. rsimpl.
    intros _ [= <-] [= <-]. simpl. congruence.
  - destruct (match_here r (c :: s)) as [[caps rest]|]; rsimpl.
    + intros _.
      destruct (length (c :: s) - length rest) as [|k].
      * destruct (sub_from_lit_total r (c1 :: w) 0 s) as [t1 ->].
        destruct (sub_from_lit_total r (c2 :: w) 0 s) as [t2 ->]. rsimpl.
        intros [= <-] [= <-]. simpl. congruence.
      * destruct (sub_from_lit_total r (c1 :: w) k s) as [t1 ->].
        destruct (sub_from_lit_total r (c2 :: w) k s) as [t2 ->]. rsimpl.
        intros [= <-] [= <-]. simpl. congruence.
    + intros Hs.
      destruct (sub_from r [TLit (c1 :: w)] 0 s) as [t1|] eqn:E1; rsimpl; [|done].
      destruct (sub_from r [TLit (c2 :: w)] 0 s) as [t2|] eqn:E2; rsimpl; [|done].
      intros [= <-] [= <-]. specialize (IH t1 t2 Hs eq_refl eq_refl). congruence.
Qed.

End ReFacts.

(** ** The key remapper *)

Section ConvertFacts.
Import Re Convert Props.
Implicit Types (l s : text) (ls : list text) (rules : list (regex * option template)).

Lemma str_txt (k : string) : str (txt k) = k.
Proof. apply string_of_list_ascii_of_string. Qed.

Lemma txt_str s : txt (str s) = s.
Proof. apply list_ascii_of_string_of_list_ascii. Qed.

Lemma map_str_txt (ks : list string) : map str (map txt ks) = ks.
Proof. rewrite map_map. rewrite <- (map_id ks) at 2. apply map_ext, str_txt. Qed.

Lemma mapM_Ok {A B} (f : A → result B) (xs : list A) (ys : list B) :
  mapM f xs = Ok ys ↔ Forall2 (fun x y => f x = Ok y) xs ys.
Proof.
  revert ys; induction xs as [|x xs IH]; intros ys; simpl.
  - split; [intros [= <-]; constructor | by inversion 1].
  - split.
    + destruct (f x) as [y|] eqn:E; rsimpl; [|done].
      destruct (mapM f xs) as [ys'|]; rsimpl; [|done].
      intros [= <-]. constructor; [done|]. by apply IH.
    + inversion 1 as [|? y ? ys' Hy Hys]; subst. rewrite Hy; rsimpl.
      apply IH in Hys. by rewrite Hys.
Qed.

(** *** Joining and splitting lines *)

Lemma split_nl_line l : nl_free l = true → split_nl l = (l, []).
Proof.
  induction l as [|c l IH]; simpl; [done|].
  intros [Hc Hl]%andb_true_iff. rewrite (IH Hl).
  by apply negb_true_iff in Hc as ->.
Qed.

Lemma split_nl_app l u :
  nl_free l = true →
  split_nl (l ++ newline :: u) = (l, (split_nl u).1 :: (split_nl u).2).
Proof.
  induction l as [|c l IH]; simpl.
  - intros _. by destruct (split_nl u).
  - intros [Hc Hl]%andb_true_iff. rewrite (IH Hl).
    by apply negb_true_iff in Hc as ->.
Qed.

Lemma lines_join ls :
  ls ≠ [] → Forall (fun l => nl_free l = true) ls → lines (join_nl ls) = ls.
Proof.
  intros Hne H. induction H as [|l ls Hl Hls IH]; [done|].
  destruct ls as [|l' ls]; unfold lines in *.
  - simpl. by rewrite split_nl_line.
  - change (join_nl (l :: l' :: ls)) with (l ++ newline :: join_nl (l' :: ls)).
    rewrite split_nl_app by done.
    specialize (IH ltac:(done)).
    destruct (split_nl (join_nl (l' :: ls))). simpl. by rewrite IH.
Qed.

(** *** The table works line by line *)

Lemma sub_join r t ls :
  re_nl_free r = true → ls ≠ [] →
  sub r t (join_nl ls) = ls' ← mapM (sub r t) ls; Ok (join_nl ls').
Proof.
  intros Hr Hne. induction ls as [|l ls IH]; [done|].
  destruct ls as [|l' ls].
  - simpl. by destruct (sub r t l).
  - change (join_nl (l :: l' :: ls)) with (l ++ newline :: join_nl (l' :: ls)).
    unfold sub at 1. rewrite sub_from_line by (done || lia).
    fold (sub r t l). fold (sub r t (join_nl (l' :: ls))).
    rewrite IH by done.
    cbn [mapM]. destruct (sub r t l) as [y|]; rsimpl; [|done].
    destruct (sub r t l') as [y'|]; rsimpl; [|done].
    by destruct (mapM (sub r t) ls) as [ys|].
Qed.

Lemma apply_rule_join rule ls :
  rule_nl_free rule = true → ls ≠ [] →
  apply_rule (join_nl ls) rule
  = ls' ← mapM (fun l => apply_rule l rule) ls; Ok (join_nl ls').
Proof.
  intros [Hr _]%andb_true_iff Hne. unfold apply_rule.
  destruct rule.2; by apply sub_join.
Qed.

Lemma apply_rule_nl_free rule l l' :
  rule_nl_free rule = true → nl_free l = true →
  apply_rule l rule = Ok l' → nl_free l' = true.
Proof.
  intros [_ Ht]%andb_true_iff Hl. unfold apply_rule.
  destruct rule.2; simpl in Ht; by apply sub_from_nl_free.
Qed.

Lemma apply_rules_join rules ls :
  Forall (fun rule => rule_nl_free rule = true) rules →
  ls ≠ [] → Forall (fun l => nl_free l = true) ls →
  apply_rules rules (join_nl ls)
  = ls' ← rules_lines rules ls; Ok (join_nl ls').
Proof.
  intros Hrules. revert ls; induction Hrules as [|rule rules Hr _ IH];
    intros ls Hne Hls; [done|].
  cbn [apply_rules rules_lines].
  rewrite apply_rule_join by done.
  destruct (mapM (fun l => apply_rule l rule) ls) as [ls1|] eqn:E; rsimpl; [|done].
  apply mapM_Ok in E. apply IH.
  - intros ->. inversion E; by subst.
  - clear -E Hls Hr. induction E as [|l l1 ls ls1 H1 _ IH']; [constructor|].
    inversion Hls; subst. constructor; [|by apply IH'].
    by eapply apply_rule_nl_free.
Qed.

(** A line keeps its place, and its fate is that of the line alone. *)
Lemma rules_lines_Ok rules ls ls' :
  rules_lines rules ls = Ok ls' →
  Forall2 (fun l l' => apply_rules rules l = Ok l') ls ls'.
Proof.
  revert ls; induction rules as [|rule rules IH]; intros ls; simpl.
  - intros [= <-]. induction ls; by constructor.
  - destruct (mapM (fun l => apply_rule l rule) ls) as [ls1|] eqn:E; rsimpl; [|done].
    intros H%IH. apply mapM_Ok in E. clear IH.
    revert ls' H. induction E as [|l l1 ls ls1 H1 _ IH']; intros ls' H.
    + inversion H; constructor.
    + inversion H; subst. constructor; [|by apply IH'].
      by rewrite H1.
Qed.

Lemma rules_lines_nl_free rules ls ls' :
  Forall (fun rule => rule_nl_free rule = true) rules →
  Forall (fun l => nl_free l = true) ls →
  rules_lines rules ls = Ok ls' → Forall (fun l => nl_free l = true) ls'.
Proof.
  intros Hrules. revert ls; induction Hrules as [|rule rules Hr _ IH];
    intros ls Hls; simpl.
  - by intros [= <-].
  - destruct (mapM (fun l => apply_rule l rule) ls) as [ls1|] eqn:E; rsimpl; [|done].
    apply IH. apply mapM_Ok in E. clear -E Hls Hr.
    induction E as [|l l1 ls ls1 H1 _ IH']; [constructor|].
    inversion Hls; subst. constructor; [|by apply IH'].
    by eapply apply_rule_nl_free.
Qed.

Lemma apply_rules_unmatched rules l :
  forallb (fun rule : regex * option template => negb (search rule.1 l)) rules = true →
  apply_rules rules l = Ok l.
Proof.
  induction rules as [|rule rules IH]; simpl; [done|].
  intros [Hr Hrs%IH]%andb_true_iff. apply negb_true_iff in Hr.
  unfold apply_rule, sub. destruct rule.2; by rewrite sub_from_unmatched.
Qed.

Lemma rules_lines_unmatched rules ls :
  Forall (fun l => forallb (fun rule : regex * option template =>
                              negb (search rule.1 l)) rules = true) ls →
  rules_lines rules ls = Ok ls.
Proof.
  induction rules as [|rule rules IH]; intros Hls; simpl; [done|].
  assert (mapM (fun l => apply_rule l rule) ls = Ok ls) as ->.
  { apply mapM_Ok. clear IH.
    induction Hls as [|l ls Hl _ IH']; [constructor|]. constructor; [|done].
    simpl in Hl. apply andb_true_iff in Hl as [Hr%negb_true_iff _].
    unfold apply_rule, sub. destruct rule.2; by rewrite sub_from_unmatched. }
  rsimpl. apply IH. eapply Forall_impl; [done|].
  simpl. by intros l [_ ?]%andb_true_iff.
Qed.

(** *** [dict(zip(ks, vs))] *)

Lemma dict_zip_lookup {V} (ks : list string) (vs : list V) k x :
  k ∈ ks → Forall2 (fun k' v => k' = k → v = x) ks vs →
  dict_zip ks vs !! k = Some x.
Proof.
  unfold dict_zip. intros Hin H.
  assert (Hgen : ∀ d : gmap string V, (d !! k = Some x ∨ k ∈ ks) →
            foldl (fun d kv => <[kv.1 := kv.2]> d) d (zip ks vs) !! k = Some x);
    [|by apply Hgen; right].
  clear Hin. induction H as [|k' v ks vs Hkv _ IH]; intros d Hd; simpl.
  - destruct Hd as [?|?%elem_of_nil]; done.
  - apply IH. destruct (decide (k' = k)) as [->|Hne].
    + left. rewrite lookup_insert_eq. f_equal. by apply Hkv.
    + destruct Hd as [Hd|Hd].
      * left. by rewrite lookup_insert_ne.
      * right. by apply elem_of_cons in Hd as [->|?].
Qed.

Lemma table_nl_free :
  Forall (fun rule => rule_nl_free rule = true) ORIGINAL_TO_CONVERTED_KEY_MAPPING.
Proof.
  apply Forall_forall. intros rule Hin%list_elem_of_In. revert rule Hin.
  apply forallb_forall. by vm_compute.
Qed.

(** The remapper, line by line: each key is rewritten on its own and bound
    to its own result. *)
Lemma convert_lines (keys : list string) :
  keys ≠ [] → Forall (fun k => nl_free (txt k) = true) keys →
  convert_old_keys_to_new_keys (Some keys)
  = ls' ← rules_lines ORIGINAL_TO_CONVERTED_KEY_MAPPING (map txt keys);
    Ok (dict_zip keys (map str ls')).
Proof.
  intros Hne Hnl. unfold convert_old_keys_to_new_keys.
  assert (Hne' : map txt keys ≠ []) by by destruct keys.
  assert (Hnl' : Forall (fun l => nl_free l = true) (map txt keys))
    by by apply Forall_map.
  rewrite apply_rules_join by (done || apply table_nl_free).
  rewrite lines_join, map_str_txt by done.
  destruct (rules_lines _ _) as [ls'|] eqn:E; rsimpl; [|done].
  rewrite lines_join; [done| |].
  - apply rules_lines_Ok in E. intros ->. inversion E as [Hnil|]; subst.
    by rewrite <- Hnil in Hne'.
  - eapply rules_lines_nl_free; [apply table_nl_free| |done]. done.
Qed.

End ConvertFacts.

(** ** Matrices, reshaping and broadcasting *)

Section OpsFacts.
Import Tensor TensorOps Props.
Context {A : Type}.
Implicit Types (t : tensor A) (rs : list (list A)).

Lemma matrix_wf n h t : matrix n h t → wf t.
Proof. intros [Hs Hd]. unfold wf. rewrite Hs, Hd. simpl. lia. Qed.

Lemma rows_matrix n h t :
  shape t = [n; h] → rows t = split_rows n h (data t).
Proof. intros Hs. unfold rows. rewrite Hs. simpl. by rewrite Nat.mul_1_r. Qed.

Lemma matrix_rows_length n h t : matrix n h t → length (rows t) = n.
Proof. intros [Hs _]. by rewrite (rows_matrix n h), split_rows_length. Qed.

Lemma matrix_rows_row_length n h t :
  matrix n h t → Forall (fun r => length r = h) (rows t).
Proof.
  intros [Hs Hd]. rewrite (rows_matrix n h) by done.
  by apply split_rows_row_length.
Qed.

Lemma matrix_rows_concat n h t : matrix n h t → concat (rows t) = data t.
Proof.
  intros [Hs Hd]. rewrite (rows_matrix n h) by done.
  by apply split_rows_concat.
Qed.

Lemma concat_length_rows rs h :
  Forall (fun r => length r = h) rs → length (concat rs) = length rs * h.
Proof.
  induction 1 as [|r rs Hr _ IH]; simpl; [done|].
  rewrite length_app, IH, Hr. lia.
Qed.

Lemma of_rows_matrix n h rs :
  length rs = n → Forall (fun r => length r = h) rs →
  matrix n h (of_rows n h rs).
Proof.
  intros Hn Hr. split; [done|]. simpl. rewrite (concat_length_rows rs h Hr). lia.
Qed.

Lemma rows_of_rows n h rs :
  length rs = n → Forall (fun r => length r = h) rs →
  rows (of_rows n h rs) = rs.
Proof.
  intros Hn Hr. rewrite (rows_matrix n h) by done. simpl.
  rewrite <- Hn. by apply split_rows_of_concat.
Qed.

Lemma nth_rows_length n h t i :
  matrix n h t → i < n → length (row t i) = h.
Proof.
  intros Hm Hi. unfold row.
  pose proof (matrix_rows_row_length n h t Hm) as Hf.
  rewrite Forall_forall in Hf. apply Hf.
  apply list_elem_of_In, nth_In. by rewrite (matrix_rows_length n h).
Qed.

End OpsFacts.

Section MapRowsFacts.
Import Tensor TensorOps Props.
Context {A B : Type}.

(** An operation on rows, seen on the rows of the result. *)
Lemma map_rows_matrix n h h' (f : list A → list B) (t : tensor A) :
  matrix n h t → (∀ r, length r = h → length (f r) = h') →
  matrix n h' (map_rows h' f t) ∧ rows (map_rows h' f t) = map f (rows t).
Proof.
  intros Hm Hf. destruct (Hm) as [Hs Hd].
  assert (Hmr : map_rows h' f t = of_rows n h' (map f (rows t))).
  { unfold map_rows, of_rows. by rewrite Hs. }
  assert (Hlen : length (map f (rows t)) = n).
  { by rewrite length_map, (matrix_rows_length n h). }
  assert (Hrows : Forall (fun r => length r = h') (map f (rows t))).
  { apply Forall_map. eapply Forall_impl; [by apply (matrix_rows_row_length n h)|].
    simpl. auto. }
  rewrite Hmr. split; [by apply of_rows_matrix | by apply rows_of_rows].
Qed.

End MapRowsFacts.

Section BroadcastFacts.
Import Tensor TensorOps Props.
Context {A : Type}.
Implicit Types (d : list A) (a b : tensor A).

Lemma expand_data_same shp d :
  length d = numel shp → expand_data shp shp d = d.
Proof.
  revert d; induction shp as [|s shp IH]; intros d Hd; simpl; [done|].
  rewrite Nat.eqb_refl. simpl in Hd.
  rewrite <- (split_rows_concat s (numel shp) d Hd) at 2. f_equal.
  rewrite <- (map_id (split_rows s (numel shp) d)) at 2.
  apply map_ext_Forall.
  eapply Forall_impl; [by apply split_rows_row_length|].
  simpl. intros r Hr. by apply IH.
Qed.

Lemma split_rows_singletons d :
  split_rows (length d) 1 d = map (fun x => [x]) d.
Proof.
  induction d as [|x d IH]; [done|].
  cbn [length split_rows]. change (skipn 1 (x :: d)) with d.
  change (firstn 1 (x :: d)) with [x]. by rewrite IH.
Qed.

Lemma expand_data_col n h d :
  length d = n →
  expand_data [n; 1] [n; h] d = flat_map (fun x => repeat x h) d.
Proof.
  intros <-. cbn [expand_data]. rewrite Nat.eqb_refl.
  change (numel [1]) with 1. rewrite split_rows_singletons, map_map.
  induction d as [|x d IH]; [done|].
  cbn [map concat flat_map]. rewrite IH. f_equal.
  change (numel []) with 1. cbn [split_rows firstn map concat app].
  destruct (Nat.eqb_spec 1 h) as [<-|]; [done|].
  clear. induction h as [|h IHh]; [done|]. cbn [repeat concat app]. by rewrite IHh.
Qed.

Lemma broadcast_rev_same (l : list nat) : broadcast_rev l l = Ok l.
Proof.
  induction l as [|x l IH]; simpl; [done|].
  rewrite IH. rsimpl. by rewrite Nat.eqb_refl.
Qed.

Lemma broadcast_shapes_same (shp : list nat) : broadcast_shapes shp shp = Ok shp.
Proof.
  unfold broadcast_shapes. rewrite broadcast_rev_same. rsimpl.
  by rewrite rev_involutive.
Qed.

Lemma broadcast_shapes_col_r (n h : nat) :
  broadcast_shapes [n; h] [n; 1] = Ok [n; h].
Proof.
  unfold broadcast_shapes. cbn. rewrite Nat.eqb_refl.
  destruct (Nat.eqb_spec h 1) as [->|]; by cbn.
Qed.

Lemma broadcast_shapes_col_l (n h : nat) :
  broadcast_shapes [n; 1] [n; h] = Ok [n; h].
Proof.
  unfold broadcast_shapes. cbn. rewrite Nat.eqb_refl.
  destruct h as [|[|h]]; by cbn.
Qed.

Lemma broadcast_shapes_lead1 (s h : nat) :
  broadcast_shapes [1; s; h] [s; h] = Ok [1; s; h].
Proof. unfold broadcast_shapes. cbn. by rewrite !Nat.eqb_refl. Qed.

Lemma expand_same a : wf a → expand (shape a) a = data a.
Proof.
  intros Hw. unfold expand, pad_shape. rewrite Nat.sub_diag. simpl.
  by apply expand_data_same.
Qed.

(** Two tensors of the same shape: element by element. *)
Lemma binop_same f a b :
  wf a → wf b → shape b = shape a →
  binop f a b = Ok (mk (shape a) (zip_with f (data a) (data b))).
Proof.
  intros Ha Hb Hs. unfold binop. rewrite Hs, broadcast_shapes_same. rsimpl.
  rewrite expand_same by done.
  replace (expand (shape a) b) with (data b); [done|].
  rewrite <- Hs. symmetry. by apply expand_same.
Qed.

(** A leading axis of size [1] changes nothing. *)
Lemma binop_lead1 f a b s h :
  shape a = [1; s; h] → shape b = [s; h] → wf a → wf b →
  binop f a b = Ok (mk [1; s; h] (zip_with f (data a) (data b))).
Proof.
  intros Ha Hb Hwa Hwb. unfold binop. rewrite Ha, Hb, broadcast_shapes_lead1.
  rsimpl. replace (expand [1; s; h] a) with (data a)
    by (rewrite <- Ha; symmetry; by apply expand_same).
  unfold expand, pad_shape. rewrite Hb. cbn [length Nat.sub repeat app].
  rewrite expand_data_same; [done|]. unfold wf in Hwb. rewrite Hwb, Hb. simpl. lia.
Qed.

Lemma zip_with_repeat_r {B C} (f : A → B → C) (r : list A) (s : B) :
  zip_with f r (repeat s (length r)) = map (fun x => f x s) r.
Proof. induction r; simpl; congruence. Qed.

Lemma zip_with_repeat_l {B C} (f : B → A → C) (r : list A) (s : B) :
  zip_with f (repeat s (length r)) r = map (f s) r.
Proof. induction r; simpl; congruence. Qed.

Lemma zip_with_concat_col_r (f : A → A → A) h (rs : list (list A)) (ds : list A) :
  Forall (fun r => length r = h) rs → length rs = length ds →
  zip_with f (concat rs) (flat_map (fun x => repeat x h) ds)
  = concat (zip_with (fun r s => map (fun x => f x s) r) rs ds).
Proof.
  intros Hr. revert ds; induction Hr as [|r rs Hl _ IH]; intros [|s ds] Hlen;
    simplify_eq/=; [done|].
  rewrite zip_with_app by (by rewrite repeat_length).
  rewrite IH by done. by rewrite zip_with_repeat_r.
Qed.

Lemma zip_with_concat_col_l (f : A → A → A) h (rs : list (list A)) (ds : list A) :
  Forall (fun r => length r = h) rs → length rs = length ds →
  zip_with f (flat_map (fun x => repeat x h) ds) (concat rs)
  = concat (zip_with (fun s r => map (f s) r) ds rs).
Proof.
  intros Hr. revert ds; induction Hr as [|r rs Hl _ IH]; intros [|s ds] Hlen;
    simplify_eq/=; [done|].
  rewrite zip_with_app by (by rewrite repeat_length).
  rewrite IH by done. by rewrite zip_with_repeat_l.
Qed.

(** A matrix and a column: every row meets the element of its own row. *)
Lemma binop_col_r f a b n h :
  matrix n h a → matrix n 1 b →
  binop f a b
  = Ok (of_rows n h (zip_with (fun r s => map (fun x => f x s) r)
                              (rows a) (data b))).
Proof.
  intros Ha Hb. destruct (Ha) as [Hsa Hda], (Hb) as [Hsb Hdb].
  unfold binop. rewrite Hsa, Hsb, broadcast_shapes_col_r. rsimpl.
  unfold of_rows. f_equal. f_equal.
  replace (expand [n; h] a) with (data a)
    by (rewrite <- Hsa; symmetry; by eapply expand_same, matrix_wf).
  unfold expand, pad_shape. rewrite Hsb. cbn [length Nat.sub repeat app].
  rewrite expand_data_col by lia.
  rewrite <- (matrix_rows_concat n h a Ha) at 1.
  apply zip_with_concat_col_r; [by apply (matrix_rows_row_length n h)|].
  rewrite (matrix_rows_length n h) by done. lia.
Qed.

Lemma binop_col_l f a b n h :
  matrix n 1 a → matrix n h b →
  binop f a b
  = Ok (of_rows n h (zip_with (fun s r => map (f s) r) (data a) (rows b))).
Proof.
  intros Ha Hb. destruct (Ha) as [Hsa Hda], (Hb) as [Hsb Hdb].
  unfold binop. rewrite Hsa, Hsb, broadcast_shapes_col_l. rsimpl.
  unfold of_rows. f_equal. f_equal.
  replace (expand [n; h] b) with (data b)
    by (rewrite <- Hsb; symmetry; by eapply expand_same, matrix_wf).
  unfold expand, pad_shape. rewrite Hsa. cbn [length Nat.sub repeat app].
  rewrite expand_data_col by lia.
  rewrite <- (matrix_rows_concat n h b Hb) at 1.
  apply zip_with_concat_col_l; [by apply (matrix_rows_row_length n h)|].
  rewrite (matrix_rows_length n h) by done. lia.
Qed.

End BroadcastFacts.

(** ** Selecting the top [k] *)

Section TopkFacts.
Import Tensor TensorOps Moe Props.
Local Open Scope R_scope.
Context `{ties : Moe.TopkTies}.
Implicit Types (r : list R) (l : list (nat * R)) (x : nat * R).

Lemma insert_desc_perm rank x l : insert_desc rank x l ≡ₚ x :: l.
Proof.
  induction l as [|y l IH]; simpl; [done|].
  destruct (goes_before rank x y); [done|].
  rewrite IH. apply Permutation_swap.
Qed.

Lemma sort_desc_perm rank l : sort_desc rank l ≡ₚ l.
Proof.
  induction l as [|x l IH]; simpl; [done|].
  by rewrite insert_desc_perm, IH.
Qed.

(** Whatever the ranking, what goes before is not smaller, and what does
    not is not larger. *)
Lemma goes_before_ge rank x y : goes_before rank x y = true → y.2 <= x.2.
Proof.
  unfold goes_before. destruct (Rlt_dec y.2 x.2); [lra|].
  destruct (Rlt_dec x.2 y.2); [done|lra].
Qed.

Lemma goes_before_le rank x y : goes_before rank x y = false → x.2 <= y.2.
Proof.
  unfold goes_before. destruct (Rlt_dec y.2 x.2); [done|]. lra.
Qed.

Lemma indexed_length r : length (indexed r) = length r.
Proof. unfold indexed. rewrite length_zip, length_seq. lia. Qed.

Lemma zip_seq_lookup {A} (r : list A) (o i : nat) (v : A) :
  (i, v) ∈ zip (seq o (length r)) r ↔ (o ≤ i)%nat ∧ r !! (i - o)%nat = Some v.
Proof.
  revert o; induction r as [|a r IH]; intros o; simpl.
  - split; [by intros ?%elem_of_nil | by intros [_ ?]].
  - rewrite elem_of_cons, IH. split.
    + intros [[= -> ->]|[Hle Hl]].
      * split; [lia|]. by rewrite Nat.sub_diag.
      * split; [lia|]. by replace (i - o)%nat with (S (i - S o)) by lia.
    + intros [Hle Hl]. destruct (decide (i = o)) as [->|Hne].
      * left. rewrite Nat.sub_diag in Hl. by simplify_eq/=.
      * right. split; [lia|].
        by replace (i - o)%nat with (S (i - S o)) in Hl by lia.
Qed.

Lemma indexed_lookup r i v : (i, v) ∈ indexed r ↔ r !! i = Some v.
Proof.
  unfold indexed. rewrite zip_seq_lookup, Nat.sub_0_r. split; [by intros [_ ?]|].
  intros ?. split; [lia|done].
Qed.

Lemma indexed_fst r : map fst (indexed r) = seq 0 (length r).
Proof.
  unfold indexed. generalize 0%nat.
  induction r as [|a r IH]; intros o; simpl; [done|]. by rewrite IH.
Qed.

Lemma topk_row_length k r :
  (k ≤ length r)%nat → length (topk_row k r) = k.
Proof.
  intros Hk. unfold topk_row.
  rewrite length_firstn, (Permutation_length (sort_desc_perm _ _)), indexed_length.
  lia.
Qed.

(** A selected value is the element of the row at the selected index. *)
Lemma topk_row_lookup k r i v :
  (i, v) ∈ topk_row k r → r !! i = Some v.
Proof.
  unfold topk_row. intros Hin%elem_of_take.
  destruct Hin as (j & Hj & _). apply list_elem_of_lookup_2 in Hj.
  rewrite sort_desc_perm in Hj. by apply indexed_lookup.
Qed.

(** No index is selected twice. *)
Lemma topk_row_NoDup k r : NoDup (map fst (topk_row k r)).
Proof.
  unfold topk_row. rewrite <- firstn_map.
  eapply sublist_NoDup; [|apply sublist_take].
  assert (Hp : map fst (sort_desc (tie_rank k r) (indexed r)) ≡ₚ seq 0 (length r)).
  { rewrite <- indexed_fst. apply Permutation_map, sort_desc_perm. }
  rewrite Hp. apply NoDup_seq.
Qed.

(** *** The selected elements are the largest *)

Lemma insert_desc_sorted rank x l :
  StronglySorted (fun a b : nat * R => b.2 <= a.2) l →
  StronglySorted (fun a b : nat * R => b.2 <= a.2) (insert_desc rank x l).
Proof.
  induction 1 as [|y l Hl IH Hy]; simpl.
  - repeat constructor.
  - destruct (goes_before rank x y) eqn:Eb.
    + apply goes_before_ge in Eb.
      constructor; [by constructor|].
      constructor; [done|]. eapply Forall_impl; [done|]. simpl. intros; lra.
    + apply goes_before_le in Eb.
      constructor; [done|]. rewrite insert_desc_perm.
      constructor; [lra|done].
Qed.

Lemma sort_desc_sorted rank l :
  StronglySorted (fun a b : nat * R => b.2 <= a.2) (sort_desc rank l).
Proof.
  induction l as [|x l IH]; simpl; [constructor|]. by apply insert_desc_sorted.
Qed.

Lemma sorted_take_drop (l : list (nat * R)) k a b :
  StronglySorted (fun a b : nat * R => b.2 <= a.2) l →
  a ∈ take k l → b ∈ drop k l → b.2 <= a.2.
Proof.
  intros Hs. revert k; induction Hs as [|y l Hl IH Hy]; intros k Ha Hb.
  - rewrite take_nil in Ha. by apply elem_of_nil in Ha.
  - destruct k as [|k]; simpl in *; [by apply elem_of_nil in Ha|].
    apply elem_of_cons in Ha as [->|Ha]; [|by eapply IH].
    rewrite Forall_forall in Hy. apply Hy.
    apply list_elem_of_lookup in Hb as [n Hn]. rewrite lookup_drop in Hn.
    by eapply list_elem_of_lookup_2.
Qed.

(** The selected elements come largest first. *)
Lemma topk_row_sorted k r :
  StronglySorted (fun a b : nat * R => b.2 <= a.2) (topk_row k r).
Proof.
  unfold topk_row.
  generalize (sort_desc_sorted (tie_rank k r) (indexed r)).
  generalize (sort_desc (tie_rank k r) (indexed r)). intros l Hs.
  revert k; induction Hs as [|y l Hl IH Hy]; intros [|k]; simpl;
    try constructor; [apply IH|].
  eapply Forall_forall. intros z Hz. rewrite Forall_forall in Hy. apply Hy.
  apply elem_of_take in Hz as (j & Hj & _). by eapply list_elem_of_lookup_2.
Qed.

(** No element that was left out is larger than a selected one. *)
Lemma topk_row_largest k r i v j w :
  (i, v) ∈ topk_row k r → r !! j = Some w →
  j ∉ map fst (topk_row k r) → w <= v.
Proof.
  unfold topk_row. intros Hi Hj Hnot.
  apply (sorted_take_drop (sort_desc (tie_rank k r) (indexed r)) k (i, v) (j, w));
    [apply sort_desc_sorted | done |].
  assert (Hin : (j, w) ∈ sort_desc (tie_rank k r) (indexed r)).
  { rewrite sort_desc_perm. by apply indexed_lookup. }
  rewrite <- (take_drop k (sort_desc (tie_rank k r) (indexed r))) in Hin.
  apply elem_of_app in Hin as [Hin|Hin]; [|done].
  exfalso. apply Hnot. apply list_elem_of_fmap. by exists (j, w).
Qed.

(** *** The results of [torch.topk] and the rankings *)

(** Whatever the ranking, the result is one [torch.topk] may return. *)
Lemma topk_row_sound k r :
  (k ≤ length r)%nat → topk_result k r (topk_row k r).
Proof.
  intros Hk. split; [by apply topk_row_length|].
  split; [apply topk_row_NoDup|]. split; [apply topk_row_lookup|].
  split; [apply topk_row_sorted|]. apply topk_row_largest.
Qed.

Lemma goes_before_trans rank x y z :
  goes_before rank x y = true → goes_before rank y z = true →
  goes_before rank x z = true.
Proof.
  unfold goes_before.
  repeat (destruct (Rlt_dec _ _)); try done; try lra.
  intros H1%Nat.leb_le H2%Nat.leb_le. apply Nat.leb_le. lia.
Qed.

Lemma goes_before_total rank x y :
  goes_before rank x y = false → goes_before rank y x = true.
Proof.
  unfold goes_before.
  repeat (destruct (Rlt_dec _ _)); try done; try lra.
  intros H1%Nat.leb_gt. apply Nat.leb_le. lia.
Qed.

Lemma insert_desc_ranked rank x l :
  StronglySorted (fun a b => goes_before rank a b = true) l →
  StronglySorted (fun a b => goes_before rank a b = true) (insert_desc rank x l).
Proof.
  induction 1 as [|y l Hl IH Hy]; simpl.
  - repeat constructor.
  - destruct (goes_before rank x y) eqn:Eb.
    + constructor; [by constructor|].
      constructor; [done|]. eapply Forall_impl; [done|]. simpl.
      intros z Hz. by eapply goes_before_trans.
    + constructor; [done|]. rewrite insert_desc_perm.
      constructor; [by apply goes_before_total|done].
Qed.

Lemma sort_desc_ranked rank l :
  StronglySorted (fun a b => goes_before rank a b = true) (sort_desc rank l).
Proof.
  induction l as [|x l IH]; simpl; [constructor|]. by apply insert_desc_ranked.
Qed.

Lemma indexed_NoDup r : NoDup (indexed r).
Proof.
  apply (NoDup_fmap_1 fst). change (NoDup (map fst (indexed r))).
  rewrite indexed_fst. apply NoDup_seq.
Qed.

Lemma ranked_at (order : list nat) k r p i :
  NoDup order → order !! p = Some i → @tie_rank (ranked order) k r i = p.
Proof.
  intros Hnd Hp. unfold tie_rank, ranked.
  assert (list_find (fun j => j = i) order = Some (p, i)) as ->; [|done].
  apply list_find_Some. split; [done|]. split; [done|].
  intros j y Hj Hlt ->. pose proof (NoDup_lookup _ _ _ _ Hnd Hp Hj). lia.
Qed.

Lemma ranked_out (order : list nat) k r i :
  i ∉ order → @tie_rank (ranked order) k r i = length order.
Proof.
  intros Hout. unfold tie_rank, ranked.
  assert (list_find (fun j => j = i) order = None) as ->; [|done].
  apply list_find_None, Forall_forall. by intros j Hj ->.
Qed.

Lemma StronglySorted_by_lookup {X} (Rel : X → X → Prop) (l : list X) :
  (∀ p q a b, (p < q)%nat → l !! p = Some a → l !! q = Some b → Rel a b) →
  StronglySorted Rel l.
Proof.
  induction l as [|x l IH]; intros H; constructor.
  - apply IH. intros p q a b Hpq Ha Hb. by apply (H (S p) (S q)); [lia|..].
  - apply Forall_forall. intros y [q Hq]%list_elem_of_lookup.
    by apply (H 0%nat (S q)); [lia|..].
Qed.

Lemma StronglySorted_lookup_le {X} (Rel : X → X → Prop) (l : list X) p q a b :
  StronglySorted Rel l → (p < q)%nat → l !! p = Some a → l !! q = Some b → Rel a b.
Proof.
  intros Hs. revert p q. induction Hs as [|x l Hl IH Hx]; intros p q Hpq Ha Hb;
    [done|].
  destruct q as [|q]; [lia|]. destruct p as [|p]; simplify_eq/=.
  - rewrite Forall_forall in Hx. apply Hx. by eapply list_elem_of_lookup_2.
  - apply (IH p q); [lia|done..].
Qed.

(** Every result [torch.topk] may return is the result for the ranking
    that lists its positions. *)
Lemma topk_row_complete k r (sel : list (nat * R)) :
  topk_result k r sel → @topk_row (ranked (map fst sel)) k r = sel.
Proof.
  intros (Hlen & Hnd & Hval & Hsort & Hmax).
  unfold topk_row.
  set (rank := @tie_rank (ranked (map fst sel)) k r).
  set (S := sort_desc rank (indexed r)).
  assert (HSs : StronglySorted (fun a b => goes_before rank a b = true) S)
    by apply sort_desc_ranked.
  assert (HSp : S ≡ₚ indexed r) by apply sort_desc_perm.
  assert (HSnd : NoDup S) by (rewrite HSp; apply indexed_NoDup).
  assert (Hsel_nd : NoDup sel) by by apply (NoDup_fmap_1 fst).
  assert (Hin : ∀ x, x ∈ sel → x ∈ S).
  { intros [i v] Hx. rewrite HSp. by apply indexed_lookup, Hval. }
  assert (Hrank_in : ∀ p x, sel !! p = Some x → rank x.1 = p).
  { intros p x Hp. apply ranked_at; [done|].
    change (map fst sel) with (fst <$> sel). by rewrite list_lookup_fmap, Hp. }
  (* an element left out does not go before a selected one *)
  assert (Hout : ∀ x y, x ∈ sel → y ∈ S → y ∉ sel →
                        goes_before rank y x = false).
  { intros [i v] [j w] Hx Hy Hny.
    assert (Hj : r !! j = Some w) by (apply indexed_lookup; by rewrite <- HSp).
    assert (Hnj : j ∉ map fst sel).
    { intros ([j' w'] & Hjj & Hin')%list_elem_of_fmap. simpl in Hjj. subst j'.
      pose proof (Hval _ _ Hin') as Hw'. rewrite Hj in Hw'. by simplify_eq. }
    pose proof (Hmax _ _ _ _ Hx Hj Hnj) as Hle.
    apply list_elem_of_lookup in Hx as [p Hp].
    pose proof (Hrank_in _ _ Hp) as Hrp. simpl in Hrp.
    assert (Hrj : rank j = length (map fst sel)) by by apply ranked_out.
    apply lookup_lt_Some in Hp as Hplt. rewrite length_map in Hrj.
    unfold goes_before. simpl.
    destruct (Rlt_dec v w); [lra|]. destruct (Rlt_dec w v); [done|].
    apply Nat.leb_gt. lia. }
  (* so the first [k] are selected ones *)
  assert (Htake : ∀ y, y ∈ take k S → y ∈ sel).
  { intros y Hy.
    assert (HyS : y ∈ S).
    { apply elem_of_take in Hy as (q & Hq & _). by eapply list_elem_of_lookup_2. }
    destruct (decide (y.1 ∈ map fst sel)) as [Hi|Hni].
    { apply list_elem_of_fmap in Hi as ([j w] & Hjj & Hin').
      pose proof (Hval _ _ Hin') as Hw.
      destruct y as [i v]. simpl in Hjj. subst j.
      rewrite HSp in HyS. apply indexed_lookup in HyS.
      rewrite HyS in Hw. by simplify_eq. }
    assert (Hny : y ∉ sel).
    { intros Hys. apply Hni, list_elem_of_fmap. by exists y. }
    exfalso.
    apply elem_of_take in Hy as (q & Hq & Hqk).
    destruct (list_elem_of_split_length _ _ _ Hq) as (l1 & l2 & HS & Hql).
    assert (Hsub : sel ⊆+ l1).
    { apply NoDup_submseteq; [done|]. intros x Hx.
      pose proof (Hin x Hx) as HxS. rewrite HS in HxS.
      apply elem_of_app in HxS as [?|HxS]; [done|].
      apply elem_of_cons in HxS as [->|HxS]; [done|]. exfalso.
      rewrite HS in HSs. apply StronglySorted_app_1_r in HSs.
      inversion HSs as [|?? _ Hall]; subst. rewrite Forall_forall in Hall.
      pose proof (Hall x HxS) as Hgb.
      rewrite (Hout x y) in Hgb; [done|done| |done].
      rewrite HS. apply elem_of_app. right. by left. }
    apply submseteq_length in Hsub. lia. }
  assert (Hperm : take k S ≡ₚ sel).
  { apply submseteq_length_Permutation.
    - apply NoDup_submseteq; [|done].
      eapply sublist_NoDup; [exact HSnd|apply sublist_take].
    - rewrite length_take. 
      assert (length sel ≤ length S)%nat; [|lia].
      apply submseteq_length, NoDup_submseteq; done. }
  apply (StronglySorted_unique_strong (fun a b => goes_before rank a b = true)).
  - intros x1 x2 Hx1%Htake Hx2 H12 H21.
    apply list_elem_of_lookup in Hx1 as [p Hp].
    apply list_elem_of_lookup in Hx2 as [q Hq].
    pose proof (Hrank_in _ _ Hp) as Hrp. pose proof (Hrank_in _ _ Hq) as Hrq.
    unfold goes_before in H12, H21.
    destruct (Rlt_dec x2.2 x1.2), (Rlt_dec x1.2 x2.2); try lra; try done.
    apply Nat.leb_le in H12, H21. assert (p = q) as <- by lia.
    rewrite Hp in Hq. by injection Hq.
  - rewrite <- (take_drop k S) in HSs. by apply StronglySorted_app_1_l in HSs.
  - apply StronglySorted_by_lookup. intros p q a b Hpq Ha Hb.
    pose proof (Hrank_in _ _ Ha) as Hra. pose proof (Hrank_in _ _ Hb) as Hrb.
    pose proof (StronglySorted_lookup_le _ _ _ _ _ _ Hsort Hpq Ha Hb) as Hle.
    simpl in Hle. unfold goes_before.
    destruct (Rlt_dec b.2 a.2); [done|]. destruct (Rlt_dec a.2 b.2); [lra|].
    apply Nat.leb_le. lia.
  - done.
Qed.

End TopkFacts.

(** ** Softmax and the routing weights *)

Section RoutingFacts.
Import Tensor TensorOps Moe Props.
Local Open Scope R_scope.
Context `{ties : Moe.TopkTies}.
Implicit Types (r : list R).

Lemma sum_R_app r1 r2 : sum_R (r1 ++ r2) = sum_R r1 + sum_R r2.
Proof. induction r1 as [|x r1 IH]; simpl; [lra|]. rewrite IH. lra. Qed.

Lemma sum_R_pos r : r ≠ [] → Forall (fun x => 0 < x) r → 0 < sum_R r.
Proof.
  intros Hne H. induction H as [|x r Hx Hr IH]; [done|]. simpl.
  destruct r as [|y r]; simpl in *; [lra|].
  specialize (IH ltac:(done)). lra.
Qed.

Lemma sum_R_nonneg r : Forall (fun x => 0 <= x) r → 0 <= sum_R r.
Proof. induction 1 as [|x r Hx Hr IH]; simpl; lra. Qed.

Lemma sum_R_div r s : sum_R (map (fun x => x / s) r) = sum_R r / s.
Proof. induction r as [|x r IH]; simpl; [lra|]. rewrite IH. lra. Qed.

Lemma softmax_row_length r : length (softmax_row r) = length r.
Proof. unfold softmax_row. by rewrite length_map. Qed.

Lemma exp_sum_pos r : r ≠ [] → 0 < sum_R (map exp r).
Proof.
  intros Hne. apply sum_R_pos; [by destruct r|].
  apply Forall_map, Forall_forall. intros x _. apply exp_pos.
Qed.

(** Softmax: positive numbers that sum to [1]. *)
Lemma softmax_row_pos r : Forall (fun x => 0 < x) (softmax_row r).
Proof.
  destruct r as [|a r]; [constructor|].
  unfold softmax_row. apply Forall_map, Forall_forall. intros x _.
  apply Rdiv_lt_0_compat; [apply exp_pos | by apply exp_sum_pos].
Qed.

Lemma softmax_row_sum r : r ≠ [] → sum_R (softmax_row r) = 1.
Proof.
  intros Hne. unfold softmax_row.
  rewrite <- (map_map exp (fun y => y / sum_R (map exp r))), sum_R_div.
  pose proof (exp_sum_pos r Hne). unfold Rdiv. apply Rinv_r. lra.
Qed.

Lemma softmax_row_lookup r i x :
  r !! i = Some x → softmax_row r !! i = Some (exp x / sum_R (map exp r)).
Proof. intros H. unfold softmax_row. by rewrite list_lookup_fmap, H. Qed.

Lemma selected_row_length k r :
  (k ≤ length r)%nat → length (selected_row k r) = k.
Proof. intros H. apply topk_row_length. by rewrite softmax_row_length. Qed.

Lemma selected_row_pos k r :
  Forall (fun x => 0 < x) (map snd (selected_row k r)).
Proof.
  apply Forall_map, Forall_forall. intros [i v] Hin%topk_row_lookup.
  simpl. pose proof (softmax_row_pos r) as Hp.
  rewrite Forall_forall in Hp. apply Hp. by eapply list_elem_of_lookup_2.
Qed.

Lemma weights_row_length k norm r :
  (k ≤ length r)%nat → length (weights_row k norm r) = k.
Proof.
  intros H. unfold weights_row.
  destruct norm; rewrite ?length_map; by apply selected_row_length.
Qed.

(** The weights of a token are not negative; normalised, they sum to [1]. *)
Lemma weights_row_spec k norm r :
  (0 < k ≤ length r)%nat →
  Forall (fun x => 0 <= x) (weights_row k norm r)
  ∧ (norm = true → sum_R (weights_row k norm r) = 1).
Proof.
  intros [Hk Hle]. unfold weights_row.
  pose proof (selected_row_pos k r) as Hpos.
  pose proof (selected_row_length k r Hle) as Hlen.
  set (v := map snd (selected_row k r)) in *.
  assert (Hs : 0 < sum_R v).
  { apply sum_R_pos; [|done]. intros Hv. apply (f_equal length) in Hv.
    unfold v in Hv. rewrite length_map, Hlen in Hv. simpl in Hv. lia. }
  destruct norm; split.
  - apply Forall_map. eapply Forall_impl; [done|]. simpl. intros x Hx.
    apply Rlt_le. by apply Rdiv_lt_0_compat.
  - intros _. rewrite sum_R_div. unfold Rdiv. apply Rinv_r. lra.
  - eapply Forall_impl; [done|]. simpl. intros; lra.
  - done.
Qed.

Lemma zip_with_row_sums (f : list R → R → list R) (rs : list (list R)) :
  zip_with f rs (concat (map (fun r => [sum_R r]) rs))
  = map (fun r => f r (sum_R r)) rs.
Proof. induction rs as [|r rs IH]; simpl; congruence. Qed.

Lemma last_dim_matrix {A} n h (t : tensor A) :
  shape t = [n; h] → last_dim (shape t) = h.
Proof. by intros ->. Qed.

(** [topk] on a matrix: row by row. *)
Lemma topk_matrix k n e (t : tensor R) :
  matrix n e t → (k ≤ e)%nat →
  ∃ vals idxs,
    topk k t = Ok (vals, idxs)
    ∧ matrix n k vals ∧ matrix n k idxs
    ∧ rows vals = map (fun r => map snd (topk_row k r)) (rows t)
    ∧ rows idxs = map (fun r => map fst (topk_row k r)) (rows t).
Proof.
  intros Hm Hk. destruct (Hm) as [Hs _]. unfold topk.
  rewrite Hs. change (last_dim [n; e]) with e.
  destruct (Nat.leb_spec k e) as [_|?]; [|lia].
  eexists _, _. split; [done|].
  destruct (map_rows_matrix n e k (fun r => map snd (topk_row k r)) t Hm)
    as [Hv Hvr].
  { intros r Hr. rewrite length_map. apply topk_row_length. lia. }
  destruct (map_rows_matrix n e k (fun r => map fst (topk_row k r)) t Hm)
    as [Hi Hir].
  { intros r Hr. rewrite length_map. apply topk_row_length. lia. }
  done.
Qed.

(** The routing of [Qwen2MoeNaiveMoe], token by token. *)
Lemma routing_rows self (routing_weights : tensor R) n e :
  matrix n e routing_weights → (naive_top_k self ≤ e)%nat →
  ∃ w sel,
    Qwen2MoeNaiveMoe_routing self routing_weights = Ok (w, sel)
    ∧ matrix n (naive_top_k self) w ∧ matrix n (naive_top_k self) sel
    ∧ rows w = map (weights_row (naive_top_k self) (naive_norm_topk_prob self))
                   (rows routing_weights)
    ∧ rows sel = map (fun r => map fst (selected_row (naive_top_k self) r))
                     (rows routing_weights).
Proof.
  intros Hm Hk. unfold Qwen2MoeNaiveMoe_routing, softmax.
  set (k := naive_top_k self) in *.
  rewrite (last_dim_matrix n e) by apply Hm.
  destruct (map_rows_matrix n e e softmax_row routing_weights Hm) as [Hsm Hsmr].
  { intros r Hr. by rewrite softmax_row_length. }
  destruct (topk_matrix k n e _ Hsm Hk) as (vals & idxs & -> & Hv & Hi & Hvr & Hir).
  rsimpl. rewrite Hsmr, map_map in Hvr, Hir.
  destruct (naive_norm_topk_prob self) eqn:Hnorm.
  - destruct (map_rows_matrix n k 1 (fun r => [sum_R r]) vals Hv) as [Hsl Hslr];
      [done|].
    unfold inplace, sum_last. rewrite (binop_col_r Rdiv vals _ n k Hv Hsl). rsimpl.
    destruct Hv as [Hvs Hvd] eqn:Ev. cbn [shape of_rows]. rewrite Hvs.
    rewrite bool_decide_true by done. rsimpl.
    eexists _, _. split; [done|].
    cbn [map_rows data]. rewrite zip_with_row_sums.
    assert (Hlen : length (map (fun r => map (fun x => x / sum_R r) r) (rows vals)) = n).
    { by rewrite length_map, (matrix_rows_length n k). }
    assert (Hrl : Forall (fun r : list R => length r = k)
              (map (fun r => map (fun x => x / sum_R r) r) (rows vals))).
    { apply Forall_map. eapply Forall_impl; [by apply (matrix_rows_row_length n k)|].
      simpl. intros r Hr. by rewrite length_map. }
    split; [by apply of_rows_matrix|]. split; [done|]. split; [|done].
    rewrite rows_of_rows by done. rewrite Hvr, map_map.
    apply map_ext. intros r. by unfold weights_row, selected_row.
  - rsimpl. eexists _, _. split; [done|].
    repeat split; try done; try apply Hv; try apply Hi.
Qed.

End RoutingFacts.

(** ** Layers on matrices *)

Section LayerFacts.
Import Tensor TensorOps Moe Props.
Local Open Scope R_scope.

Lemma tmap_matrix {A B} (f : A → B) n h (t : tensor A) :
  matrix n h t →
  matrix n h (tmap f t) ∧ rows (tmap f t) = map (map f) (rows t).
Proof.
  intros [Hs Hd]. split.
  - split; [done|]. simpl. by rewrite length_map.
  - rewrite !(rows_matrix n h) by done. simpl. clear Hs Hd.
    generalize (data t). induction n as [|n IH]; intros d; simpl; [done|].
    by rewrite firstn_map, skipn_map, IH.
Qed.

Lemma view_rows_3d {A} (t : tensor A) b s h :
  shape t = [b; s; h] → wf t → (0 < h)%nat →
  view_rows h t = Ok (mk [(b * s)%nat; h] (data t))
  ∧ matrix (b * s) h (mk [(b * s)%nat; h] (data t)).
Proof.
  intros Hs Hw Hh. unfold view_rows, wf in *. rewrite Hs in *.
  assert (Hn : numel [b; s; h] = (b * s * h)%nat) by (simpl; lia).
  rewrite Hn in *.
  destruct (Nat.eqb_spec h 0) as [?|_]; [lia|].
  rewrite Nat.Div0.mod_mul, Nat.eqb_refl, Nat.div_mul by lia.
  split; [done|]. by split.
Qed.

Lemma view_rows_matrix {A} (t : tensor A) n h :
  matrix n h t → (0 < h)%nat → view_rows h t = Ok t.
Proof.
  intros [Hs Hd] Hh. unfold view_rows. rewrite Hs.
  assert (Hn : numel [n; h] = (n * h)%nat) by (simpl; lia).
  rewrite Hn.
  destruct (Nat.eqb_spec h 0) as [?|_]; [lia|].
  rewrite Nat.Div0.mod_mul, Nat.eqb_refl, Nat.div_mul by lia.
  destruct t as [shp d]; simpl in *. by subst.
Qed.

Lemma reshape_ok {A} (t : tensor A) shp :
  numel shp = numel (shape t) → reshape shp t = Ok (mk shp (data t)).
Proof. intros H. unfold reshape. by rewrite H, Nat.eqb_refl. Qed.

Lemma linear_matrix (w x : tensor R) o i n :
  matrix o i w → matrix n i x →
  ∃ y, linear w x = Ok y ∧ matrix n o y
       ∧ rows y = map (fun r => map (dot r) (rows w)) (rows x).
Proof.
  intros Hw Hx. destruct (Hw) as [Hws _], (Hx) as [Hxs _]. unfold linear.
  rewrite Hws, Hxs. change (last_dim [n; i]) with i. rewrite Nat.eqb_refl.
  eexists; split; [done|]. apply (map_rows_matrix n i o); [done|].
  intros r _. by rewrite length_map, (matrix_rows_length o i).
Qed.

Lemma mlp_forward_matrix (m : Qwen2MoeMLP) (x : tensor R) n h :
  mlp_ok h m → matrix n h x →
  ∃ y, Qwen2MoeMLP_forward m x = Ok y ∧ matrix n h y
       ∧ rows y = map (mlp_row m) (rows x).
Proof.
  intros [Hh Hrow] Hx. destruct (Hx) as [Hxs _]. unfold Qwen2MoeMLP_forward.
  rewrite Hxs, Hh. change (last_dim [n; h]) with h. rewrite Nat.eqb_refl.
  eexists; split; [done|]. by apply (map_rows_matrix n h h).
Qed.

End LayerFacts.

(** ** [Qwen2MoeNaiveMoe]: the loop over the experts *)

Section QwenFacts.
Import Tensor TensorOps Moe Props.
Local Open Scope R_scope.
Context `{ties : Moe.TopkTies}.

Lemma index_add_0_matrix (self source : tensor R) (index : list nat) n h p :
  matrix n h self → matrix p h source → length index = p →
  Forall (fun i => (i < n)%nat) index →
  ∃ y, index_add_0 self index source = Ok y ∧ matrix n h y.
Proof.
  intros Hself Hsrc Hlen Hidx.
  destruct (Hself) as [Hs1 _], (Hsrc) as [Hs2 _].
  unfold index_add_0. rewrite Hs1, Hs2, Hlen, !Nat.eqb_refl.
  assert (forallb (fun i => (i <? n)%nat) index = true) as ->.
  { apply forallb_forall. intros i Hi%list_elem_of_In.
    rewrite Forall_forall in Hidx. apply Nat.ltb_lt. auto. }
  eexists; split; [done|]. simpl.
  pose proof (matrix_rows_length n h self Hself) as Hn.
  pose proof (matrix_rows_row_length n h self Hself) as Hr.
  pose proof (matrix_rows_row_length p h source Hsrc) as Hsr.
  assert (Hz : Forall (fun ir : nat * list R => length ir.2 = h)
                 (zip index (rows source))).
  { apply Forall_forall. intros [i r] Hin. simpl.
    apply elem_of_zip_r in Hin. rewrite Forall_forall in Hsr. auto. }
  revert Hn Hr. generalize (rows self). clear -Hz.
  induction Hz as [|[i r] l Hir _ IH]; intros rs Hn Hr; simpl.
  - by apply of_rows_matrix.
  - apply IH.
    + by rewrite length_alter.
    + apply Forall_alter; [done|]. intros x _ Hx. simpl in *.
      rewrite length_zip_with. lia.
Qed.

(** The tokens [where_expert] returns are tokens of the batch. *)
Lemma where_expert_tokens (sel : tensor nat) e n k :
  matrix n k sel →
  Forall (fun it : nat * nat => (it.2 < n)%nat) (where_expert sel e).
Proof.
  intros Hm. unfold where_expert. rewrite (matrix_rows_length n k) by done.
  apply Forall_forall. intros [idx top_x] Hin. simpl.
  apply list_elem_of_In, in_flat_map in Hin as (j & _ & Hin).
  apply in_flat_map in Hin as (t & Ht & Hin).
  apply in_seq in Ht. destruct (_ =? _)%nat; simpl in Hin; [|done].
  destruct Hin as [[= _ <-]|[]]. lia.
Qed.

Lemma expert_step_matrix self (hs w : tensor R) (sel : tensor nat)
    (final : tensor R) e m n h k :
  naive_experts self !! e = Some m → mlp_ok h m → (0 < h)%nat →
  matrix n h hs → matrix n k sel → matrix n h final →
  ∃ y, expert_step self hs w sel final e = Ok y ∧ matrix n h y.
Proof.
  intros Hm Hok Hh Hhs Hsel Hfinal. unfold expert_step. rewrite Hm. rsimpl.
  set (hits := where_expert sel e).
  pose proof (where_expert_tokens sel e n k Hsel) as Htok. fold hits in Htok.
  rewrite (last_dim_matrix n h) by apply Hhs.
  set (p := length hits).
  assert (Hp : length (map snd hits) = p) by by rewrite length_map.
  rewrite Hp.
  assert (Hcur : Forall (fun r : list R => length r = h)
                   (map (row hs) (map snd hits))).
  { rewrite map_map. apply Forall_map. eapply Forall_impl; [done|].
    simpl. intros it Hit. by apply (nth_rows_length n h). }
  destruct (view_rows_3d (mk [1%nat; p; h] (concat (map (row hs) (map snd hits))))
              1 p h) as [-> Hcs]; [done| |done|].
  { unfold wf. simpl. rewrite (concat_length_rows _ h Hcur), !length_map.
    fold p. lia. }
  rsimpl. rewrite Nat.mul_1_l in *.
  destruct (mlp_forward_matrix m _ p h Hok Hcs) as (out & -> & Hout & _).
  rsimpl.
  assert (Hw : matrix p 1
            (of_rows p 1 (map (fun it : nat * nat => [nth it.1 (row w it.2) 0]) hits))).
  { apply of_rows_matrix; [by rewrite length_map|].
    apply Forall_map, Forall_forall. done. }
  rewrite (binop_col_r Rmult out _ p h Hout Hw). rsimpl.
  eapply index_add_0_matrix; [done| |done|].
  - apply of_rows_matrix.
    + rewrite length_zip_with, (matrix_rows_length p h out Hout).
      destruct Hw as [_ Hwd]. rewrite Hwd. lia.
    + apply Forall_forall. intros r Hr.
      apply elem_of_lookup_zip_with in Hr as (i & x & y & -> & Hx & _).
      rewrite length_map.
      pose proof (matrix_rows_row_length p h out Hout) as Hf.
      rewrite Forall_forall in Hf. apply Hf. by eapply list_elem_of_lookup_2.
  - apply Forall_map. by eapply Forall_impl.
Qed.

Lemma expert_loop_matrix self (hs w : tensor R) (sel : tensor nat)
    (final : tensor R) (expert_hit : list nat) n h k :
  Forall (mlp_ok h) (naive_experts self) →
  Forall (fun e => (e < length (naive_experts self))%nat) expert_hit →
  (0 < h)%nat → matrix n h hs → matrix n k sel → matrix n h final →
  ∃ y, expert_loop self hs w sel final expert_hit = Ok y ∧ matrix n h y.
Proof.
  intros Hex Hhit Hh Hhs Hsel. revert final.
  induction Hhit as [|e hit He _ IH]; intros final Hfinal; simpl; [by eauto|].
  apply lookup_lt_is_Some_2 in He as [m Hm].
  assert (Hok : mlp_ok h m).
  { rewrite Forall_forall in Hex. apply Hex. by eapply list_elem_of_lookup_2. }
  destruct (expert_step_matrix self hs w sel final e m n h k)
    as (y & -> & Hy); [done..|].
  rsimpl. by apply IH.
Qed.

Lemma selected_row_index_bound k (r : list R) i :
  i ∈ map fst (selected_row k r) → (i < length r)%nat.
Proof.
  intros Hin. apply list_elem_of_fmap in Hin as ([j v] & -> & Hin).
  apply topk_row_lookup, lookup_lt_Some in Hin.
  by rewrite softmax_row_length in Hin.
Qed.

Lemma naive_forward_matrix config self (hs logits : tensor R) n :
  naive_built config self → config_ok config →
  matrix n (hidden_size config) hs → matrix n (num_experts config) logits →
  ∃ y, Qwen2MoeNaiveMoe_forward self hs logits = Ok y
       ∧ matrix n (hidden_size config) y.
Proof.
  intros (Hk & He & Hnorm & Hlen & Hex) (Hh & Hk0 & Hke) Hhs Hl.
  unfold Qwen2MoeNaiveMoe_forward.
  destruct (routing_rows self logits n (num_experts config) Hl)
    as (w & sel & -> & Hw & Hsel & Hwr & Hselr); [lia|].
  rsimpl.
  assert (Hbound : forallb (fun e => (e <? naive_num_experts self)%nat) (data sel)
                   = true).
  { apply forallb_forall. intros e Hin. apply Nat.ltb_lt.
    rewrite <- (matrix_rows_concat _ _ sel Hsel), Hselr in Hin.
    apply in_concat in Hin as (r & Hr & Hin).
    apply in_map_iff in Hr as (l & <- & Hl'%list_elem_of_In).
    apply list_elem_of_In, selected_row_index_bound in Hin.
    pose proof (matrix_rows_row_length _ _ logits Hl) as Hf.
    rewrite Forall_forall in Hf. rewrite (Hf l Hl') in Hin. lia. }
  rewrite Hbound. simpl negb. cbv iota.
  eapply expert_loop_matrix; [done| |done|done|done|].
  - apply Forall_forall. intros e [_ Hin%elem_of_seq]%list_elem_of_filter. lia.
  - by apply tmap_matrix.
Qed.

Lemma gated_rows (f : list R → list R) (g : list R) (rs : list (list R)) :
  zip_with (fun (s : R) (r : list R) => map (Rmult s) r)
           (map sigmoid (concat (map (fun r => [dot r g]) rs)))
           (map f rs)
  = map (fun r => map (Rmult (sigmoid (dot r g))) (f r)) rs.
Proof.
  induction rs as [|r rs IH]; [done|].
  cbn [map concat app zip_with]. by rewrite IH.
Qed.

(** [Qwen2MoeSparseMoeBlock.forward] up to line 139: the routed output, the
    gated output of the shared expert, and what is left to do with them. *)
Lemma qwen_block_steps config self (x : tensor R) b s :
  block_built config self → config_ok config →
  shape x = [b; s; hidden_size config] → wf x →
  let hs := mk [(b * s)%nat; hidden_size config] (data x) in
  ∃ logits routed g,
    linear (gate self) hs = Ok logits
    ∧ Qwen2MoeNaiveMoe_forward (experts self) hs logits = Ok routed
    ∧ matrix (b * s) (hidden_size config) routed
    ∧ rows (shared_expert_gate self) = [g]
    ∧ matrix (b * s) (hidden_size config)
        (of_rows (b * s) (hidden_size config)
           (map (fun r => map (Rmult (sigmoid (dot r g)))
                              (mlp_row (shared_expert self) r))
                (rows hs)))
    ∧ Qwen2MoeSparseMoeBlock_forward self x
      = (final ← binop Rplus
                   (mk [b; s; hidden_size config] (data routed))
                   (of_rows (b * s) (hidden_size config)
                      (map (fun r => map (Rmult (sigmoid (dot r g)))
                                         (mlp_row (shared_expert self) r))
                           (rows hs)));
         final ← reshape [b; s; hidden_size config] final;
         Ok (final, logits)).
Proof.
  intros (Hgate & Hnaive & Hshared & Hsg) Hcfg Hs Hw hs.
  pose proof Hcfg as (Hh & _).
  set (h := hidden_size config) in *.
  unfold Qwen2MoeSparseMoeBlock_forward. rewrite Hs.
  destruct (view_rows_3d x b s h Hs Hw Hh) as [-> Hhs].
  fold hs in Hhs |- *. rsimpl.
  destruct (linear_matrix (gate self) hs _ _ (b * s) Hgate Hhs)
    as (logits & Hlog & Hlm & _).
  rewrite Hlog. rsimpl.
  destruct (naive_forward_matrix config (experts self) hs logits (b * s))
    as (routed & Hrouted & Hrm); [done..|].
  rewrite Hrouted. rsimpl.
  destruct (Hrm) as [Hrs Hrd].
  rewrite reshape_ok by (rewrite Hrs; simpl; lia). rsimpl.
  destruct (mlp_forward_matrix (shared_expert self) hs (b * s) h Hshared Hhs)
    as (sh & -> & Hshm & Hshr).
  rsimpl.
  destruct (linear_matrix (shared_expert_gate self) hs _ _ (b * s) Hsg Hhs)
    as (gl & -> & Hglm & Hglr).
  rsimpl.
  destruct (tmap_matrix sigmoid (b * s) 1 gl Hglm) as [Hsig _].
  rewrite (binop_col_l Rmult _ sh (b * s) h Hsig Hshm). rsimpl.
  assert (Hg : ∃ g, rows (shared_expert_gate self) = [g]).
  { pose proof (matrix_rows_length _ _ _ Hsg) as Hl1.
    destruct (rows (shared_expert_gate self)) as [|g [|? ?]]; simplify_eq/=.
    by exists g. }
  destruct Hg as [g Hg]. rewrite Hg in Hglr.
  assert (Hgated :
    zip_with (fun (s0 : R) (r : list R) => map (Rmult s0) r)
             (data (tmap sigmoid gl)) (rows sh)
    = map (fun r => map (Rmult (sigmoid (dot r g))) (mlp_row (shared_expert self) r))
          (rows hs)).
  { cbn [tmap data]. cbn [map] in Hglr.
    rewrite <- (matrix_rows_concat (b * s) 1 gl Hglm), Hglr, Hshr.
    apply gated_rows. }
  rewrite Hgated.
  exists logits, routed, g. repeat split; try done; try apply Hrm.
  - simpl. rewrite (concat_length_rows _ h).
    + by rewrite length_map, (matrix_rows_length (b * s) h hs).
    + apply Forall_map.
      eapply Forall_impl; [by apply (matrix_rows_row_length (b * s) h hs)|].
      simpl. intros r Hr. rewrite length_map. by apply Hshared.
Qed.

(** On one sequence: the two are added element by element. *)
Lemma qwen_block_forward config self (x : tensor R) s :
  block_built config self → config_ok config →
  shape x = [1%nat; s; hidden_size config] → wf x →
  let hs := mk [s; hidden_size config] (data x) in
  ∃ logits routed g,
    linear (gate self) hs = Ok logits
    ∧ Qwen2MoeNaiveMoe_forward (experts self) hs logits = Ok routed
    ∧ matrix s (hidden_size config) routed
    ∧ rows (shared_expert_gate self) = [g]
    ∧ Qwen2MoeSparseMoeBlock_forward self x
      = Ok (mk [1%nat; s; hidden_size config]
              (zip_with Rplus (data routed)
                 (concat (map (fun r => map (Rmult (sigmoid (dot r g)))
                                            (mlp_row (shared_expert self) r))
                              (rows hs)))),
            logits).
Proof.
  intros Hb Hcfg Hs Hw hs.
  destruct (qwen_block_steps config self x 1 s Hb Hcfg Hs Hw)
    as (logits & routed & g & Hl & Hr & Hrm & Hg & Hgm & Hf).
  rewrite Nat.mul_1_l in *. fold hs in Hl, Hr, Hgm, Hf.
  exists logits, routed, g. repeat split; try done; try apply Hrm.
  rewrite Hf.
  rewrite (binop_lead1 Rplus _ _ s (hidden_size config)); try done.
  - rsimpl. by rewrite reshape_ok.
  - unfold wf. simpl. destruct Hrm as [_ ->]. lia.
  - by eapply matrix_wf.
Qed.

(** On two sequences or more, the routed output of shape [(B, S, H)] and the
    shared output of shape [(B * S, H)] do not go together: [forward]
    raises. *)
Lemma qwen_block_batch_raises config self (x : tensor R) b s :
  block_built config self → config_ok config →
  shape x = [b; s; hidden_size config] → wf x →
  (2 ≤ b)%nat → (1 ≤ s)%nat →
  Qwen2MoeSparseMoeBlock_forward self x = Raise RuntimeError.
Proof.
  intros Hb Hcfg Hs Hw Hb2 Hs1.
  destruct (qwen_block_steps config self x b s Hb Hcfg Hs Hw)
    as (logits & routed & g & _ & _ & _ & _ & _ & ->).
  destruct Hcfg as (Hh & _). set (h := hidden_size config) in *.
  unfold binop. cbn [shape of_rows]. unfold broadcast_shapes.
  cbn [rev app broadcast_rev]. rsimpl.
  destruct (Nat.eqb_spec s (b * s)) as [?|_]; [nia|].
  destruct (Nat.eqb_spec s 1) as [->|Hs2].
  - rewrite Nat.eqb_refl. rsimpl. cbn [rev app]. unfold reshape. cbn [shape].
    destruct (Nat.eqb_spec (numel [b; 1%nat; h]) (numel [b; (b * 1)%nat; h]))
      as [Heq|_]; [|done].
    simpl in Heq. nia.
  - destruct (Nat.eqb_spec (b * s) 1) as [?|_]; [nia|]. done.
Qed.

End QwenFacts.

(** ** [OpenaiMLP]: scattering and transposing the scores *)

Section ScatterFacts.
Import Tensor TensorOps Moe Props.
Context {A : Type}.
Implicit Types (self : list A) (idx : list nat).

Lemma scatter_row_length self idx (src : list A) :
  length (scatter_row self idx src) = length self.
Proof.
  unfold scatter_row. revert self. generalize (zip idx src).
  induction l as [|[i v] l IH]; intros self; simpl; [done|].
  by rewrite IH, length_insert.
Qed.

(** After scattering the values [g i] to the positions [i] of [idx], a
    position of [idx] holds its value and every other position is as it
    was. *)
Lemma scatter_row_lookup (g : nat → A) self idx e :
  scatter_row self idx (map g idx) !! e
  = if decide (e ∈ idx) then (fun _ => g e) <$> self !! e else self !! e.
Proof.
  unfold scatter_row. revert self; induction idx as [|i idx IH]; intros self.
  - destruct (decide (e ∈ [])) as [Hin|_]; [by apply elem_of_nil in Hin|done].
  - cbn [map zip zip_with fold_left fst snd]. rewrite IH.
    destruct (decide (e = i)) as [->|Hne].
    + rewrite (decide_True (P := i ∈ i :: idx)) by left.
      destruct (decide (i < length self)) as [Hlt|Hge].
      * rewrite list_lookup_insert_eq by done.
        destruct (lookup_lt_is_Some_2 self i Hlt) as [x ->].
        by destruct (decide (i ∈ idx)).
      * rewrite list_insert_ge by lia.
        rewrite (lookup_ge_None_2 self i) by lia.
        by destruct (decide (i ∈ idx)).
    + rewrite list_lookup_insert_ne by done.
      destruct (decide (e ∈ idx)) as [Hin|Hnin].
      * by rewrite decide_True by by right.
      * rewrite decide_False; [done|]. by intros [?|?]%elem_of_cons.
Qed.

Lemma transpose_rows_spec (h : nat) (rs : list (list A)) (d : A) :
  Forall (fun r => length r = h) rs →
  transpose_rows h rs = map (fun j => map (fun r => nth j r d) rs) (seq 0 h).
Proof.
  intros Hr. unfold transpose_rows. apply map_ext_in. intros j Hj%in_seq.
  induction Hr as [|r rs Hl _ IH]; [done|]. cbn [flat_map map]. rewrite IH.
  f_equal. 
  destruct (skipn j r) as [|x l] eqn:E.
  - apply (f_equal length) in E. rewrite length_skipn in E. simpl in E. lia.
  - simpl. f_equal. rewrite <- (firstn_skipn j r) at 1.
    rewrite app_nth2; rewrite length_firstn; [|lia].
    replace (j - j `min` length r)%nat with 0%nat by lia. by rewrite E.
Qed.

Lemma transpose_matrix n h (t : tensor A) (d : A) :
  matrix n h t →
  ∃ y, transpose t = Ok y ∧ matrix h n y
       ∧ rows y = map (fun j => map (fun r => nth j r d) (rows t)) (seq 0 h).
Proof.
  intros Hm. destruct (Hm) as [Hs _]. unfold transpose. rewrite Hs.
  eexists; split; [done|].
  rewrite (transpose_rows_spec h (rows t) d)
    by by apply (matrix_rows_row_length n h).
  assert (Hlen : length (map (fun j => map (fun r => nth j r d) (rows t)) (seq 0 h)) = h)
    by by rewrite length_map, length_seq.
  assert (Hrl : Forall (fun r : list A => length r = n)
                  (map (fun j => map (fun r => nth j r d) (rows t)) (seq 0 h))).
  { apply Forall_map, Forall_forall. intros j _.
    by rewrite length_map, (matrix_rows_length n h). }
  split; [by apply of_rows_matrix | by apply rows_of_rows].
Qed.

End ScatterFacts.

Section OpenaiFacts.
Import Tensor TensorOps Moe Props.
Local Open Scope R_scope.
Context `{ties : Moe.TopkTies}.

Lemma topk_row_values k (r : list R) :
  map Fin (map snd (topk_row k r))
  = map (fun i => Fin (nth i r 0)) (map fst (topk_row k r)).
Proof.
  rewrite !map_map. apply map_ext_in. intros [i v] Hin%list_elem_of_In.
  simpl. apply topk_row_lookup in Hin. f_equal. symmetry.
  by apply nth_lookup_Some with (d := 0) in Hin.
Qed.

(** One row of lines 67 to 69, before the transposition. *)
Lemma scattered_row_spec k (l : list R) :
  scatter_row (map (fun _ => NegInf) l) (map fst (topk_row k l))
              (map Fin (map snd (topk_row k l)))
  = map (fun e => if decide (e ∈ map fst (topk_row k l))
                  then Fin (nth e l 0) else NegInf)
        (seq 0 (length l)).
Proof.
  rewrite topk_row_values. apply list_eq. intros e.
  rewrite scatter_row_lookup, !list_lookup_fmap.
  destruct (decide (e < length l)%nat) as [Hlt|Hge].
  - rewrite lookup_seq_lt by done.
    destruct (lookup_lt_is_Some_2 l e Hlt) as [x ->]. simpl.
    by destruct (decide _).
  - rewrite lookup_seq_ge by lia. rewrite (lookup_ge_None_2 l e) by lia.
    simpl. by destruct (decide _).
Qed.

Lemma zip_with_zip_maps {B C D E} (F : B → C * D → E) (f : list R → B)
    (g : list R → C) (h : list R → D) (ls : list (list R)) :
  zip_with F (map f ls) (zip (map g ls) (map h ls) ++ [])
  = map (fun l => F (f l) (g l, h l)) ls.
Proof. rewrite app_nil_r. induction ls as [|l ls IH]; simpl; congruence. Qed.

Lemma openai_router_scores_spec self (x hs : tensor R) n :
  openai_built self →
  view_rows (oa_hidden_dim self) x = Ok hs → matrix n (oa_hidden_dim self) hs →
  ∃ scores,
    OpenaiMLP_router_scores self x = Ok (hs, scores)
    ∧ matrix (oa_num_experts self) n scores
    ∧ rows scores
      = map (fun e => map (fun r => openai_score (oa_top_k self)
                                      (map (dot r) (rows (oa_router self))) e)
                          (rows hs))
            (seq 0 (oa_num_experts self)).
Proof.
  intros (Hrouter & Hh & Hk0 & Hk) Hview Hhs.
  set (E := oa_num_experts self) in *. set (h := oa_hidden_dim self) in *.
  set (k := oa_top_k self) in *.
  unfold OpenaiMLP_router_scores. fold h k. rewrite Hview. rsimpl.
  destruct (linear_matrix (oa_router self) hs E h n Hrouter Hhs)
    as (logits & -> & Hlm & Hlr).
  rsimpl.
  destruct (topk_matrix k n E logits Hlm Hk) as (vals & idxs & -> & Hv & Hi & Hvr & Hir).
  rsimpl.
  destruct (tmap_matrix (fun _ : R => NegInf) n E logits Hlm) as [Hnm Hnr].
  destruct (tmap_matrix Fin n k vals Hv) as [Hfm Hfr].
  pose proof (matrix_rows_row_length n E logits Hlm) as Hrl.
  assert (Hscat : ∃ sc,
    scatter_1 (tmap (fun _ : R => NegInf) logits) idxs (tmap Fin vals) = Ok sc
    ∧ matrix n E sc
    ∧ rows sc = map (fun l => map (fun e => if decide (e ∈ map fst (topk_row k l))
                                            then Fin (nth e l 0) else NegInf)
                                  (seq 0 E))
                    (rows logits)).
  { unfold scatter_1.
    pose proof (proj1 Hnm) as Hns. pose proof (proj1 Hi) as His.
    pose proof (proj1 Hfm) as Hfs.
    rewrite Hns, His, Hfs, !Nat.leb_refl. cbn [andb].
    assert (forallb (fun i => (i <? E)%nat) (data idxs) = true) as ->.
    { apply forallb_forall. intros e Hin. apply Nat.ltb_lt.
      rewrite <- (matrix_rows_concat _ _ idxs Hi), Hir in Hin.
      apply in_concat in Hin as (r & Hr & Hin).
      apply in_map_iff in Hr as (l & <- & Hl'%list_elem_of_In).
      apply in_map_iff in Hin as ([j v] & <- & Hin%list_elem_of_In).
      apply topk_row_lookup, lookup_lt_Some in Hin.
      rewrite Forall_forall in Hrl. rewrite (Hrl l Hl') in Hin. done. }
    eexists; split; [done|].
    rewrite Nat.sub_diag. cbn [repeat].
    rewrite Hnr, Hir, Hfr, Hvr, map_map.
    rewrite (zip_with_zip_maps
               (fun r ij => scatter_row r ij.1 ij.2)
               (map (fun _ : R => NegInf))
               (fun l => map fst (topk_row k l))
               (fun l => map Fin (map snd (topk_row k l)))).
    cbn [fst snd].
    assert (Heq : map (fun l => scatter_row (map (fun _ : R => NegInf) l)
                                  (map fst (topk_row k l))
                                  (map Fin (map snd (topk_row k l))))
                      (rows logits)
                  = map (fun l => map (fun e => if decide (e ∈ map fst (topk_row k l))
                                                then Fin (nth e l 0) else NegInf)
                                      (seq 0 E))
                        (rows logits)).
    { apply map_ext_Forall. eapply Forall_impl; [done|]. simpl. intros l Hl.
      by rewrite scattered_row_spec, Hl. }
    rewrite Heq.
    assert (Hlen : length (map (fun l => map (fun e =>
                      if decide (e ∈ map fst (topk_row k l))
                      then Fin (nth e l 0) else NegInf) (seq 0 E)) (rows logits)) = n)
      by by rewrite length_map, (matrix_rows_length n E).
    assert (Hrows : Forall (fun r : list xreal => length r = E)
                      (map (fun l => map (fun e =>
                         if decide (e ∈ map fst (topk_row k l))
                         then Fin (nth e l 0) else NegInf) (seq 0 E)) (rows logits))).
    { apply Forall_map, Forall_forall. intros l _.
      by rewrite length_map, length_seq. }
    split; [by apply of_rows_matrix | by apply rows_of_rows]. }
  destruct Hscat as (sc & -> & Hscm & Hscr). rsimpl.
  destruct (transpose_matrix n E sc NegInf Hscm) as (tr & -> & Htm & Htr).
  rsimpl.
  destruct (tmap_matrix sigmoid_x E n tr Htm) as [Hsm Hsr].
  eexists; split; [done|]. split; [done|].
  rewrite Hsr, Htr, Hscr, Hlr, !map_map.
  apply map_ext_in. intros e He%in_seq. rewrite !map_map.
  apply map_ext. intros r. unfold openai_score.
  rewrite (nth_indep _ NegInf (if decide (e ∈ map fst (topk_row k (map (dot r) (rows (oa_router self)))))
                               then Fin (nth e (map (dot r) (rows (oa_router self))) 0)
                               else NegInf))
    by (rewrite length_map, length_seq; lia).
  rewrite (map_nth (fun e => if decide (e ∈ map fst (topk_row k (map (dot r) (rows (oa_router self)))))
                             then Fin (nth e (map (dot r) (rows (oa_router self))) 0)
                             else NegInf)).
  rewrite seq_nth by lia. done.
Qed.

Lemma binop_col_r_matrix f (a b : tensor R) n h :
  matrix n h a → matrix n 1 b →
  ∃ y, binop f a b = Ok y ∧ matrix n h y
       ∧ rows y = zip_with (fun r s => map (fun x => f x s) r) (rows a) (data b).
Proof.
  intros Ha Hb. rewrite (binop_col_r f a b n h Ha Hb).
  eexists; split; [done|].
  assert (Hlen : length (zip_with (fun r s => map (fun x => f x s) r)
                                  (rows a) (data b)) = n).
  { rewrite length_zip_with, (matrix_rows_length n h a Ha).
    destruct Hb as [_ ->]. lia. }
  assert (Hrl : Forall (fun r : list R => length r = h)
                  (zip_with (fun r s => map (fun x => f x s) r) (rows a) (data b))).
  { apply Forall_forall. intros r Hr.
    apply elem_of_lookup_zip_with in Hr as (i & x & y & -> & Hx & _).
    rewrite length_map.
    pose proof (matrix_rows_row_length n h a Ha) as Hf.
    rewrite Forall_forall in Hf. apply Hf. by eapply list_elem_of_lookup_2. }
  split; [by apply of_rows_matrix | by apply rows_of_rows].
Qed.

Lemma view_col {A} (t : tensor A) e n :
  matrix e n t →
  view_rows 1 t = Ok (mk [(e * n)%nat; 1%nat] (data t))
  ∧ matrix (e * n) 1 (mk [(e * n)%nat; 1%nat] (data t)).
Proof.
  intros [Hs Hd]. unfold view_rows. rewrite Hs.
  assert (Hn : numel [e; n] = (e * n)%nat) by (simpl; lia).
  rewrite Hn. cbn [Nat.eqb]. rewrite Nat.mod_1_r, Nat.div_1_r. cbn [Nat.eqb].
  split; [done|]. split; [done|]. simpl. lia.
Qed.

Lemma repeat_rows_matrix {A} (t : tensor A) e n h :
  matrix n h t →
  ∃ y, repeat_rows e t = Ok y ∧ matrix (e * n) h y.
Proof.
  intros [Hs Hd]. unfold repeat_rows. rewrite Hs.
  eexists; split; [done|]. split; [done|]. simpl.
  rewrite (concat_length_rows _ (n * h)).
  - rewrite repeat_length. lia.
  - apply Forall_forall. by intros r ->%list_elem_of_In%repeat_spec.
Qed.

Lemma sum_blocks_matrix (t : tensor R) e n h :
  matrix (e * n) h t → (0 < e)%nat → (0 < h)%nat →
  ∃ y, sum_blocks e h t = Ok y ∧ matrix n h y.
Proof.
  intros [Hs Hd] He Hh. unfold sum_blocks. rewrite Hs.
  assert (Hn : numel [(e * n)%nat; h] = (n * (e * h))%nat) by (simpl; lia).
  rewrite Hn.
  destruct (Nat.eqb_spec (e * h) 0) as [?|_]; [nia|].
  rewrite Nat.Div0.mod_mul, Nat.div_mul by nia. cbn [Nat.eqb negb orb].
  eexists; split; [done|]. split; [done|]. cbn [data].
  assert (Hb : Forall (fun r : list R => length r = (n * h)%nat)
                 (split_rows e (n * h) (data t))).
  { apply split_rows_row_length. rewrite Hd. lia. }
  induction Hb as [|r rs Hr _ IH]; simpl.
  - by rewrite repeat_length.
  - rewrite length_zip_with, IH, Hr. lia.
Qed.

(** [forward] when a shared expert has been attached: its output, not gated,
    plus the sum over the experts. *)
Lemma openai_forward_spec self (x hs : tensor R) (shared : module) n :
  openai_built self →
  view_rows (oa_hidden_dim self) x = Ok hs → matrix n (oa_hidden_dim self) hs →
  module_ok (oa_num_experts self * n) (oa_hidden_dim self) (oa_experts self) →
  oa_shared_expert self = Some shared → module_ok n (oa_hidden_dim self) shared →
  ∃ scores out0 routed_sum,
    OpenaiMLP_router_scores self x = Ok (hs, scores)
    ∧ openai_routed_sum self hs scores = Ok routed_sum
    ∧ shared hs = Ok out0
    ∧ matrix n (oa_hidden_dim self) routed_sum
    ∧ OpenaiMLP_forward self x
      = Ok (mk [n; oa_hidden_dim self]
              (zip_with Rplus (data out0) (data routed_sum)),
            scores).
Proof.
  intros Hb Hview Hhs Hexp Hsh Hshok.
  destruct (openai_router_scores_spec self x hs n Hb Hview Hhs)
    as (scores & Hsc & Hscm & _).
  destruct Hb as (_ & Hh & Hk0 & Hk).
  destruct (repeat_rows_matrix hs (oa_num_experts self) n _ Hhs)
    as (rin & Hrin_eq & Hrin).
  destruct (view_col scores _ _ Hscm) as [Hcol_eq Hcol].
  destruct (binop_col_r_matrix Rmult rin _ _ _ Hrin Hcol)
    as (rin' & Hrin'_eq & Hrin' & _).
  destruct (Hexp rin' Hrin') as (rout & Hrout_eq & Hrout).
  destruct (Hshok hs Hhs) as (out0 & Hout0 & Hout0m).
  destruct (sum_blocks_matrix rout _ n _ Hrout) as (rsum & Hrsum_eq & Hrsum);
    [lia..|].
  assert (Hsum : openai_routed_sum self hs scores = Ok rsum).
  { unfold openai_routed_sum. rewrite Hrin_eq. rsimpl. rewrite Hcol_eq. rsimpl.
    rewrite Hrin'_eq. rsimpl. rewrite Hrout_eq. by rsimpl. }
  exists scores, out0, rsum. repeat split; try done; try apply Hrsum.
  unfold OpenaiMLP_forward. rewrite Hsc. rsimpl.
  unfold openai_routed_sum in Hsum.
  rewrite Hrin_eq. rsimpl. rewrite Hcol_eq. rsimpl. rewrite Hrin'_eq. rsimpl.
  rewrite Hrout_eq. rsimpl. rewrite Hsh. rsimpl. rewrite Hout0. rsimpl.
  rewrite Hrsum_eq. rsimpl.
  unfold inplace.
  rewrite (binop_same Rplus out0 rsum).
  - rsimpl. cbn [shape]. rewrite bool_decide_true by done. rsimpl.
    destruct Hout0m as [-> _]. done.
  - by eapply matrix_wf.
  - by eapply matrix_wf.
  - destruct Hout0m as [-> _], Hrsum as [-> _]. done.
Qed.

(** [forward] of the module [__init__] builds never returns. *)
Lemma openai_forward_unset self (x : tensor R) :
  oa_shared_expert self = None →
  ∃ e, OpenaiMLP_forward self x = Raise e.
Proof.
  intros Hsh. unfold OpenaiMLP_forward.
  destruct (OpenaiMLP_router_scores self x) as [[hs scores]|e]; rsimpl; [|by eauto].
  destruct (repeat_rows _ hs) as [rin|e]; rsimpl; [|by eauto].
  destruct (view_rows 1 scores) as [col|e]; rsimpl; [|by eauto].
  destruct (binop Rmult rin col) as [rin'|e]; rsimpl; [|by eauto].
  destruct (oa_experts self rin') as [rout|e]; rsimpl; [|by eauto].
  rewrite Hsh. rsimpl. by eauto.
Qed.

End OpenaiFacts.

(** * The key remapper and the conversion loop *)

Section ConvertProperties.
Import Re Tensor Convert Props.

(** C10: called with its argument omitted or [None],
    [convert_old_keys_to_new_keys] returns the empty mapping and raises
    nothing. *)
Theorem convert_none_is_empty :
  convert_old_keys_to_new_keys None = Ok ∅.
Proof. reflexivity. Qed.

(** C7: a parameter name in which no pattern of the table finds a match is
    mapped to itself.  Whatever the other keys of the checkpoint are, a
    mapping the remapper returns binds the name to itself; when no key of the
    checkpoint is matched the remapper does return, so that matching nothing
    is not an error; and [new_keys.get(key, key)] in [write_model] is then the
    name itself. *)
Theorem unmatched_name_maps_to_itself (keys : list string) (name : string) :
  Forall (fun k => nl_free (txt k) = true) keys →
  name ∈ keys → unmatched name = true →
  (∀ d, convert_old_keys_to_new_keys (Some keys) = Ok d →
        d !! name = Some name ∧ default name (d !! name) = name)
  ∧ (Forall (fun k => unmatched k = true) keys →
     ∃ d, convert_old_keys_to_new_keys (Some keys) = Ok d
          ∧ ∀ k, k ∈ keys → d !! k = Some k).
Proof.
  intros Hnl Hin Hun.
  assert (Hne : keys ≠ []) by (intros ->; by apply elem_of_nil in Hin).
  rewrite convert_lines by done. split.
  - intros d. 
    destruct (rules_lines _ _) as [ls'|] eqn:E; rsimpl; [|done].
    intros [= <-]. apply rules_lines_Ok in E.
    assert (dict_zip keys (map str ls') !! name = Some name) as ->; [|done].
    apply dict_zip_lookup; [done|].
    apply Forall2_fmap_r. apply Forall2_fmap_l in E.
    eapply Forall2_impl; [done|]. intros k l' Hk ->. unfold compose in Hk.
    rewrite apply_rules_unmatched in Hk by done.
    injection Hk as <-. apply str_txt.
  - intros Hall. rewrite rules_lines_unmatched.
    + rsimpl. eexists; split; [done|]. intros k Hk.
      apply dict_zip_lookup; [done|].
      rewrite map_str_txt. clear. induction keys; constructor; auto.
    + apply Forall_map. eapply Forall_impl; [done|]. done.
Qed.

Lemma unmatched_name_maps_to_itself_witness :
  let keys := ["final.scale"; "rope.freqs"; "block.0.attn.qkv.weight"]%string in
  let name := "final.scale"%string in
  (∀ d, convert_old_keys_to_new_keys (Some keys) = Ok d →
        d !! name = Some name ∧ default name (d !! name) = name)
  ∧ (Forall (fun k => unmatched k = true) keys →
     ∃ d, convert_old_keys_to_new_keys (Some keys) = Ok d
          ∧ ∀ k, k ∈ keys → d !! k = Some k).
Proof.
  intros keys name.
  apply (unmatched_name_maps_to_itself keys name).
  - repeat constructor.
  - left.
  - reflexivity.
Defined.

(** The three names of a fused split exist and are pairwise different. *)
Lemma fused_keys (new_key : string) :
  is_fused new_key = true →
  ∃ q_key k_key v_key,
    re_sub fused_pat [T "q_proj.weight"] new_key = Ok q_key
    ∧ re_sub fused_pat [T "k_proj.weight"] new_key = Ok k_key
    ∧ re_sub fused_pat [T "v_proj.weight"] new_key = Ok v_key
    ∧ q_key ≠ k_key ∧ q_key ≠ v_key ∧ k_key ≠ v_key.
Proof.
  intros [Hs _]%andb_true_iff. unfold re_sub, sub, T.
  destruct (sub_from_lit_total fused_pat (txt "q_proj.weight") 0 (txt new_key))
    as [q Hq].
  destruct (sub_from_lit_total fused_pat (txt "k_proj.weight") 0 (txt new_key))
    as [k Hk].
  destruct (sub_from_lit_total fused_pat (txt "v_proj.weight") 0 (txt new_key))
    as [v Hv].
  rewrite Hq, Hk, Hv. rsimpl. exists (str q), (str k), (str v).
  repeat split; try done.
  all: intros Heq%(f_equal txt); rewrite !txt_str in Heq; revert Heq.
  - by eapply (sub_from_lit_differ fused_pat "q" "k").
  - by eapply (sub_from_lit_differ fused_pat "q" "v").
  - by eapply (sub_from_lit_differ fused_pat "k" "v").
Qed.

Section Split.
Context {A : Type}.
Implicit Types (value : tensor A) (state_dict : gmap string (tensor A)).

(** What the fused branch of the loop does with three pieces. *)
Lemma write_model_step_fused new_keys state_dict key value q k v :
  is_fused (default key (new_keys !! key)) = true →
  chunk 3 value = Ok [q; k; v] →
  ∃ q_key k_key v_key state_dict',
    re_sub fused_pat [T "q_proj.weight"] (default key (new_keys !! key)) = Ok q_key
    ∧ re_sub fused_pat [T "k_proj.weight"] (default key (new_keys !! key)) = Ok k_key
    ∧ re_sub fused_pat [T "v_proj.weight"] (default key (new_keys !! key)) = Ok v_key
    ∧ write_model_step new_keys state_dict (key, value) = Ok state_dict'
    ∧ state_dict' !! q_key = Some q
    ∧ state_dict' !! k_key = Some k
    ∧ state_dict' !! v_key = Some v.
Proof.
  intros Hf Hc.
  destruct (fused_keys _ Hf) as (q_key & k_key & v_key & Hq & Hk & Hv & Hqk & Hqv & Hkv).
  exists q_key, k_key, v_key. eexists. repeat split; [done..| | | |].
  - unfold write_model_step. cbn [fst snd]. rewrite Hf, Hc. rsimpl.
    rewrite Hq. rsimpl. rewrite Hk. rsimpl. rewrite Hv. rsimpl. done.
  - do 2 rewrite lookup_insert_ne by done. by rewrite lookup_insert_eq.
  - rewrite lookup_insert_ne by done. by rewrite lookup_insert_eq.
  - by rewrite lookup_insert_eq.
Qed.

(** The branch of line 115, when it is taken: a tensor whose last axis has
    [3 n] elements is cut into the three slices of [n] elements at offsets
    [0], [n] and [2 n] of that axis; the loop binds them to the query, key
    and value names, in this order; each has a last axis of [n] elements, and
    concatenated along that axis they are the tensor again.  The names the
    table gives the fused weights do not take this branch
    ([qkv_name_not_fused]). *)
Theorem fused_qkv_split new_keys state_dict key value n :
  is_fused (default key (new_keys !! key)) = true →
  wf value → shape value ≠ [] → last_dim (shape value) = 3 * n →
  ∃ q k v q_key k_key v_key state_dict',
    chunk 3 value = Ok [q; k; v]
    ∧ q = narrow_last 0 n value
    ∧ k = narrow_last n n value
    ∧ v = narrow_last (2 * n) n value
    ∧ last_dim (shape q) = n ∧ last_dim (shape k) = n ∧ last_dim (shape v) = n
    ∧ cat_last [q; k; v] = value
    ∧ re_sub fused_pat [T "q_proj.weight"] (default key (new_keys !! key)) = Ok q_key
    ∧ re_sub fused_pat [T "k_proj.weight"] (default key (new_keys !! key)) = Ok k_key
    ∧ re_sub fused_pat [T "v_proj.weight"] (default key (new_keys !! key)) = Ok v_key
    ∧ write_model_step new_keys state_dict (key, value) = Ok state_dict'
    ∧ state_dict' !! q_key = Some q
    ∧ state_dict' !! k_key = Some k
    ∧ state_dict' !! v_key = Some v.
Proof.
  intros Hf Hw Hs Hl.
  pose proof (chunk3_even value n Hs Hl) as Hc.
  destruct (write_model_step_fused new_keys state_dict key value _ _ _ Hf Hc)
    as (q_key & k_key & v_key & sd' & Hq & Hk & Hv & Hstep & Hlq & Hlk & Hlv).
  exists (narrow_last 0 n value), (narrow_last n n value),
    (narrow_last (2 * n) n value), q_key, k_key, v_key, sd'.
  repeat split; try done.
  1-3: simpl; apply last_dim_snoc.
  replace (2 * n) with (n + n) by lia.
  apply cat_last_three_slices; [done..|lia].
Qed.

End Split.

Lemma fused_qkv_split_witness :
  let value := Tensor.mk [2; 6] [1; 2; 3; 4; 5; 6; 7; 8; 9; 10; 11; 12] in
  let key := "language_model.layers.0.self_attn.q_proj.weight"%string in
  ∃ q k v q_key k_key v_key state_dict',
    chunk 3 value = Ok [q; k; v]
    ∧ q = narrow_last 0 2 value
    ∧ k = narrow_last 2 2 value
    ∧ v = narrow_last (2 * 2) 2 value
    ∧ last_dim (shape q) = 2 ∧ last_dim (shape k) = 2 ∧ last_dim (shape v) = 2
    ∧ cat_last [q; k; v] = value
    ∧ re_sub fused_pat [T "q_proj.weight"] (default key ((∅ : gmap string string) !! key)) = Ok q_key
    ∧ re_sub fused_pat [T "k_proj.weight"] (default key ((∅ : gmap string string) !! key)) = Ok k_key
    ∧ re_sub fused_pat [T "v_proj.weight"] (default key ((∅ : gmap string string) !! key)) = Ok v_key
    ∧ write_model_step ∅ ∅ (key, value) = Ok state_dict'
    ∧ state_dict' !! q_key = Some q
    ∧ state_dict' !! k_key = Some k
    ∧ state_dict' !! v_key = Some v.
Proof.
  intros value key.
  apply (fused_qkv_split ∅ ∅ key value 2).
  - reflexivity.
  - reflexivity.
  - discriminate.
  - reflexivity.
Defined.

(** C6, at the name the table drops: [re.sub] with the empty replacement
    leaves the name in the mapping, bound to the empty name, and the loop of
    [write_model] binds its tensor under that empty name. *)
Theorem dropped_name_is_still_bound (A : Type) (value : tensor A) :
  dropped "rope.freqs" = true
  ∧ convert_old_keys_to_new_keys (Some ["rope.freqs"%string])
    = Ok {[ "rope.freqs"%string := ""%string ]}
  ∧ convert_state_dict [("rope.freqs"%string, value)]
    = Ok {[ ""%string := value ]}.
Proof. repeat split. Qed.

(** No name is ever removed: the mapping the remapper returns binds every key
    of the checkpoint. *)
Lemma convert_keeps_every_name (keys : list string) (name : string) d :
  Forall (fun k => nl_free (txt k) = true) keys →
  name ∈ keys →
  convert_old_keys_to_new_keys (Some keys) = Ok d →
  is_Some (d !! name).
Proof.
  intros Hnl Hin.
  assert (Hne : keys ≠ []) by (intros ->; by apply elem_of_nil in Hin).
  rewrite convert_lines by done.
  destruct (rules_lines _ _) as [ls'|] eqn:E; rsimpl; [|done].
  intros [= <-]. apply rules_lines_Ok, Forall2_length in E.
  rewrite length_map in E.
  unfold dict_zip.
  assert (Hgen : ∀ (vs : list string) (d : gmap string string),
            length keys = length vs → is_Some (d !! name) ∨ name ∈ keys →
            is_Some (foldl (fun d kv => <[kv.1 := kv.2]> d) d (zip keys vs) !! name)).
  { clear. induction keys as [|k keys IH]; intros [|v vs] d Hlen Hd;
      simplify_eq/=.
    - destruct Hd as [?|?%elem_of_nil]; done.
    - apply IH; [done|]. destruct (decide (k = name)) as [->|Hne].
      + left. by rewrite lookup_insert_eq.
      + destruct Hd as [Hd|Hd].
        * left. by rewrite lookup_insert_ne.
        * right. by apply elem_of_cons in Hd as [->|?]. }
  apply Hgen; [by rewrite length_map|by right].
Qed.

(** The name the table gives a fused tensor still carries the choice group
    and does not pass the test of line 115: the loop binds such a tensor
    whole, under that name. *)
Lemma table_name_of_fused_tensor (A : Type) (value : tensor A) :
  convert_old_keys_to_new_keys (Some ["block.0.attn.qkv.weight"%string])
  = Ok {[ "block.0.attn.qkv.weight"%string
          := "layers.0.self_attn.(k|v|q)_proj.weight"%string ]}
  ∧ is_fused "layers.0.self_attn.(k|v|q)_proj.weight" = false
  ∧ convert_state_dict [("block.0.attn.qkv.weight"%string, value)]
    = Ok {[ "layers.0.self_attn.(k|v|q)_proj.weight"%string := value ]}.
Proof. repeat split. Qed.

(** *** A last axis that three does not divide *)

Lemma ceil_third s :
  s mod 3 ≠ 0 → (s + 2) / 3 = S (s / 3).
Proof.
  intros Hm. pose proof (Nat.div_mod_eq s 3) as Hs.
  pose proof (Nat.mod_upper_bound s 3 ltac:(lia)) as Hb.
  symmetry. apply (Nat.div_unique _ _ _ (s mod 3 - 1)); lia.
Qed.

Lemma uneven_short_sizes s :
  s mod 3 ≠ 0 → (s ≤ 2 * ((s + 2) / 3) ↔ s = 1 ∨ s = 2 ∨ s = 4).
Proof.
  intros Hm. rewrite (ceil_third s Hm).
  pose proof (Nat.div_mod_eq s 3) as Hs.
  pose proof (Nat.mod_upper_bound s 3 ltac:(lia)) as Hb.
  split.
  - intros Hle. assert (s / 3 ≤ 1) by lia.
    destruct (s / 3) as [ | [ | ? ] ]; lia.
  - intros [ -> | [ -> | -> ] ]; vm_compute; lia.
Qed.

(** C8, as the code has it: nothing checks that three divides the last
    axis.  When it does not, the split raises only for the sizes [1], [2] and
    [4], where [torch.chunk] returns fewer than three pieces and the
    unpacking fails; for every other size it binds three pieces of
    [ceil(s / 3)], [ceil(s / 3)] and [s - 2 ceil(s / 3)] elements. *)
Theorem fused_split_uneven (A : Type) (new_keys : gmap string string)
    (state_dict : gmap string (tensor A)) (key : string) (value : tensor A)
    (s : nat) :
  is_fused (default key (new_keys !! key)) = true →
  shape value ≠ [] → last_dim (shape value) = s → s mod 3 ≠ 0 →
  let c := (s + 2) / 3 in
  if bool_decide (s = 1 ∨ s = 2 ∨ s = 4) then
    write_model_step new_keys state_dict (key, value) = Raise ValueError
  else
    ∃ q_key k_key v_key state_dict',
      re_sub fused_pat [T "q_proj.weight"] (default key (new_keys !! key)) = Ok q_key
      ∧ re_sub fused_pat [T "k_proj.weight"] (default key (new_keys !! key)) = Ok k_key
      ∧ re_sub fused_pat [T "v_proj.weight"] (default key (new_keys !! key)) = Ok v_key
      ∧ write_model_step new_keys state_dict (key, value) = Ok state_dict'
      ∧ state_dict' !! q_key = Some (narrow_last 0 c value)
      ∧ state_dict' !! k_key = Some (narrow_last c c value)
      ∧ state_dict' !! v_key = Some (narrow_last (2 * c) (s - 2 * c) value).
Proof.
  intros Hf Hs Hl Hm c.
  assert (Hpos : 0 < s) by (destruct s; [done|lia]).
  pose proof (uneven_short_sizes s Hm) as Hshort. fold c in Hshort.
  case_bool_decide as Hd.
  - apply Hshort in Hd.
    destruct (chunk3_short value s Hs Hl Hpos Hd) as (ps & Hc & Hlen).
    unfold write_model_step. cbn [fst snd]. rewrite Hf, Hc. rsimpl.
    destruct ps as [ | ? [ | ? [ | ? [ | ? ? ] ] ] ]; simpl in Hlen; done || lia.
  - assert (Hlt : 2 * c < s) by (rewrite <- Hshort in Hd; lia).
    assert (Hc : 0 < c) by (subst c; rewrite ceil_third by done; lia).
    pose proof (chunk3_three value s c Hs Hl eq_refl Hc Hlt) as Hch.
    by apply write_model_step_fused.
Qed.

Lemma fused_split_uneven_witness :
  let value := Tensor.mk [1; 7] [1; 2; 3; 4; 5; 6; 7] in
  let key := "language_model.layers.0.self_attn.q_proj.weight"%string in
  ∃ q_key k_key v_key state_dict',
    re_sub fused_pat [T "q_proj.weight"] key = Ok q_key
    ∧ re_sub fused_pat [T "k_proj.weight"] key = Ok k_key
    ∧ re_sub fused_pat [T "v_proj.weight"] key = Ok v_key
    ∧ write_model_step ∅ ∅ (key, value) = Ok state_dict'
    ∧ state_dict' !! q_key = Some (narrow_last 0 3 value)
    ∧ state_dict' !! k_key = Some (narrow_last 3 3 value)
    ∧ state_dict' !! v_key = Some (narrow_last 6 1 value).
Proof.
  intros value key.
  assert (H1 : is_fused (default key ((∅ : gmap string string) !! key)) = true)
    by reflexivity.
  assert (H2 : shape value ≠ []) by discriminate.
  assert (H3 : last_dim (shape value) = 7) by reflexivity.
  assert (H4 : 7 mod 3 ≠ 0) by discriminate.
  exact (fused_split_uneven nat ∅ ∅ key value 7 H1 H2 H3 H4).
Defined.

(** C8 as stated fails: a last axis of [5] elements is split without any
    error, into pieces of [2], [2] and [1] elements. *)
Lemma fused_split_of_five_succeeds :
  let value := Tensor.mk [1; 5] [1; 2; 3; 4; 5] in
  let key := "language_model.layers.0.self_attn.q_proj.weight"%string in
  5 mod 3 ≠ 0
  ∧ is_fused key = true
  ∧ write_model_step ∅ ∅ (key, value)
    = Ok {[ "language_model.layers.0.self_attn.q_proj.weight"%string := Tensor.mk [1; 2] [1; 2];
            "language_model.layers.0.self_attn.k_proj.weight"%string := Tensor.mk [1; 2] [3; 4];
            "language_model.layers.0.self_attn.v_proj.weight"%string := Tensor.mk [1; 1] [5] ]}.
Proof. repeat split. discriminate. Qed.

(** *** Binding the converted tensors *)

(** C9: the converted tensors are bound by exact name.  When the target model
    expects a name the converted state dict lacks, or the state dict has a
    name the model does not expect, [write_model] raises and returns no
    model; when it does return a model, the two sets of names are the same
    and every name is bound to the tensor the state dict has for it. *)
Theorem strict_load_mismatch_aborts (A : Type) (expected : gmap string (list nat))
    (loaded : list (string * tensor A)) (state_dict : gmap string (tensor A)) :
  convert_state_dict loaded = Ok state_dict →
  (∀ name, (is_Some (expected !! name) ∧ state_dict !! name = None)
           ∨ (expected !! name = None ∧ is_Some (state_dict !! name)) →
           write_model expected loaded = Raise RuntimeError)
  ∧ (∀ model, write_model expected loaded = Ok model →
              dom state_dict = dom expected
              ∧ ∀ name, model !! name = state_dict !! name).
Proof.
  intros Hc. unfold write_model. rewrite Hc. rsimpl. unfold load_state_dict.
  split.
  - intros name Hname. rewrite bool_decide_false; [done|].
    intros [Hm Hu]. destruct Hname as [[He Hs]|[He Hs]].
    + apply (not_elem_of_empty (C:=gset string) name). rewrite <- Hm.
      apply elem_of_difference. split; [by apply elem_of_dom|].
      by apply not_elem_of_dom.
    + apply (not_elem_of_empty (C:=gset string) name). rewrite <- Hu.
      apply elem_of_difference. split; [by apply elem_of_dom|].
      by apply not_elem_of_dom.
  - intros model. case_bool_decide as Hd; simpl; [|done].
    destruct Hd as [Hm Hu].
    assert (Hdom : dom state_dict = dom expected).
    { apply set_eq. intros k. split; intros Hk.
      - destruct (decide (k ∈ dom expected)); [done|]. set_solver.
      - destruct (decide (k ∈ dom state_dict)); [done|]. set_solver. }
    case_bool_decide; [|done]. intros [= <-]. split; [done|].
    intros name. destruct (state_dict !! name) as [t|] eqn:E.
    + apply map_lookup_filter_Some. split; [done|]. simpl.
      rewrite <- Hdom. by apply elem_of_dom.
    + apply map_lookup_filter_None. left. done.
Qed.

Lemma strict_load_mismatch_aborts_witness :
  let loaded := [("norm.weight"%string, Tensor.mk [2] [1; 2])] in
  let state_dict : gmap string (tensor nat) :=
    {[ "norm.weight"%string := Tensor.mk [2] [1; 2] ]} in
  let expected : gmap string (list nat) :=
    {[ "norm.weight"%string := [2]; "lm_head.weight"%string := [2; 2] ]} in
  convert_state_dict loaded = Ok state_dict
  ∧ write_model expected loaded = Raise RuntimeError.
Proof.
  intros loaded state_dict expected.
  assert (Hc : convert_state_dict loaded = Ok state_dict) by reflexivity.
  split; [exact Hc|].
  apply (proj1 (strict_load_mismatch_aborts nat expected loaded state_dict Hc)
               "lm_head.weight"%string).
  left. split; [by eexists | reflexivity].
Defined.

End ConvertProperties.

(** * Mixture-of-experts routing *)

Section MoeProperties.
Import Tensor TensorOps Moe Props.
Local Open Scope R_scope.
Context `{ties : Moe.TopkTies}.

(** C3: for every token, the weights of the selected experts are not
    negative, and with [norm_topk_prob] they sum to [1], exactly so in real
    arithmetic.  The router logits are a matrix of one row per token; at
    least one expert is selected per token, and no more than there are. *)
Theorem routing_weights_normalized (self : Qwen2MoeNaiveMoe)
    (routing_weights : tensor R) (n e : nat) :
  matrix n e routing_weights →
  (0 < naive_top_k self ≤ e)%nat →
  ∃ w sel,
    Qwen2MoeNaiveMoe_routing self routing_weights = Ok (w, sel)
    ∧ length (rows w) = n
    ∧ ∀ t weights, rows w !! t = Some weights →
        length weights = naive_top_k self
        ∧ Forall (fun x => 0 <= x) weights
        ∧ (naive_norm_topk_prob self = true → sum_R weights = 1).
Proof.
  intros Hm [Hk0 Hk].
  destruct (routing_rows self routing_weights n e Hm Hk)
    as (w & sel & Hr & Hw & _ & Hwr & _).
  exists w, sel. split; [done|]. split; [by apply (matrix_rows_length n (naive_top_k self) w)|].
  intros t weights Ht. rewrite Hwr, list_lookup_fmap in Ht.
  destruct (rows routing_weights !! t) as [logits|] eqn:El; [|done].
  injection Ht as <-.
  assert (Hlen : length logits = e).
  { pose proof (matrix_rows_row_length n e routing_weights Hm) as Hf.
    rewrite Forall_forall in Hf. apply Hf. by eapply list_elem_of_lookup_2. }
  split; [apply weights_row_length; lia|].
  apply weights_row_spec. lia.
Qed.


(** C2: the two variants normalise in different orders.  [Qwen2MoeNaiveMoe]
    takes the softmax of the whole row of logits first and selects among the
    results: for every token it returns [top_k] distinct experts, largest
    weight first, the weight of a selected expert with logit [x] is
    [exp x / sum of exp] over all the experts (divided by the sum of the
    selected weights with [norm_topk_prob]), and no expert that was left out
    has a larger one.  [OpenaiMLP] selects first, [top_k] distinct experts
    with the largest raw logits, and takes the sigmoid afterwards, of every
    score on its own: the score of a selected expert is
    [1 / (1 + exp (- x))] for its own logit [x], and the score of any
    other is the sigmoid of [-inf], which is [0].  Which of several equal
    elements is selected is left to [torch.topk]: the statement holds
    whatever it chooses. *)
Theorem routing_orders (qself : Qwen2MoeNaiveMoe) (routing_weights : tensor R)
    (oself : OpenaiMLP) (hidden_states : tensor R) (n e m : nat) :
  matrix n e routing_weights → (naive_top_k qself ≤ e)%nat →
  openai_built oself → matrix m (oa_hidden_dim oself) hidden_states →
  (∃ w sel,
     Qwen2MoeNaiveMoe_routing qself routing_weights = Ok (w, sel)
     ∧ matrix n (naive_top_k qself) w ∧ matrix n (naive_top_k qself) sel
     ∧ ∀ t logits, rows routing_weights !! t = Some logits →
         ∃ selected : list (nat * R),
           rows sel !! t = Some (map fst selected)
           ∧ rows w !! t
             = Some (if naive_norm_topk_prob qself
                     then map (fun x => x / sum_R (map snd selected))
                              (map snd selected)
                     else map snd selected)
           ∧ length selected = naive_top_k qself
           ∧ NoDup (map fst selected)
           ∧ StronglySorted (fun a b : nat * R => b.2 <= a.2) selected
           ∧ (∀ i v, (i, v) ∈ selected →
                ∃ x, logits !! i = Some x ∧ v = exp x / sum_R (map exp logits))
           ∧ (∀ i v j y, (i, v) ∈ selected → logits !! j = Some y →
                j ∉ map fst selected → exp y / sum_R (map exp logits) <= v))
  ∧ (∃ scores,
       OpenaiMLP_router_scores oself hidden_states = Ok (hidden_states, scores)
       ∧ matrix (oa_num_experts oself) m scores
       ∧ ∀ t h, rows hidden_states !! t = Some h →
           let logits := map (dot h) (rows (oa_router oself)) in
           ∃ selected : list (nat * R),
             length selected = oa_top_k oself
             ∧ NoDup (map fst selected)
             ∧ (∀ i v, (i, v) ∈ selected → logits !! i = Some v)
             ∧ (∀ i v j y, (i, v) ∈ selected → logits !! j = Some y →
                  j ∉ map fst selected → y <= v)
             ∧ ∀ ex, (ex < oa_num_experts oself)%nat →
                 rows scores !! ex ≫= (fun r => r !! t)
                 = Some (sigmoid_x (if decide (ex ∈ map fst selected)
                                    then Fin (nth ex logits 0) else NegInf)))
  ∧ sigmoid_x NegInf = 0
  ∧ ∀ x, sigmoid_x (Fin x) = 1 / (1 + exp (- x)).
Proof.
  intros Hm Hk Hb Hhs. split; [|split; [|done]].
  - destruct (routing_rows qself routing_weights n e Hm Hk)
      as (w & sel & Hr & Hwm & Hsm & Hwr & Hsr).
    exists w, sel. split; [done|]. split; [done|]. split; [done|].
    intros t logits Ht.
    exists (topk_row (naive_top_k qself) (softmax_row logits)).
    assert (Hlen : length logits = e).
    { pose proof (matrix_rows_row_length n e routing_weights Hm) as Hf.
      rewrite Forall_forall in Hf. apply Hf. by eapply list_elem_of_lookup_2. }
    rewrite Hwr, Hsr, !list_lookup_fmap, Ht. simpl.
    split; [done|]. split; [done|].
    split; [apply topk_row_length; unfold softmax_row; rewrite length_map; lia|].
    split; [apply topk_row_NoDup|]. split; [apply topk_row_sorted|].
    split.
    + intros i v Hin. apply topk_row_lookup in Hin.
      unfold softmax_row in Hin. rewrite list_lookup_fmap in Hin.
      destruct (logits !! i) as [x|]; simplify_eq/=. by exists x.
    + intros i v j y Hi Hj Hnot.
      eapply topk_row_largest; [exact Hi| |exact Hnot].
      unfold softmax_row. by rewrite list_lookup_fmap, Hj.
  - pose proof Hb as (Hrm & Hh & Hk0 & Hke).
    destruct (openai_router_scores_spec oself hidden_states hidden_states m Hb)
      as (scores & Hsc & Hscm & Hscr); [by eapply view_rows_matrix|done|].
    exists scores. split; [done|]. split; [done|].
    intros t h Ht logits.
    exists (topk_row (oa_top_k oself) logits).
    split.
    { apply topk_row_length. unfold logits.
      rewrite length_map, (matrix_rows_length _ _ _ Hrm). lia. }
    split; [apply topk_row_NoDup|].
    split; [intros i v; apply topk_row_lookup|].
    split; [intros i v j y; apply topk_row_largest|].
    intros ex Hex.
    rewrite Hscr, list_lookup_fmap, lookup_seq_lt by done. simpl.
    by rewrite list_lookup_fmap, Ht.
Qed.


(** *** The tiny instances are well formed *)

Lemma identity_mlp_ok : mlp_ok 1 identity_mlp.
Proof. split; [done|]. by intros r Hr. Qed.

Lemma tiny_config_ok : config_ok tiny_config.
Proof. unfold config_ok. simpl. lia. Qed.

Lemma tiny_block_built : block_built tiny_config tiny_block.
Proof.
  split; [by split|]. split; [|split; [apply identity_mlp_ok | by split]].
  repeat split. constructor; [apply identity_mlp_ok | constructor].
Qed.

Lemma tiny_openai_built : openai_built tiny_openai.
Proof. split; [by split|]. simpl. lia. Qed.

Lemma tiny_openai_experts_ok n : module_ok n 1 (oa_experts tiny_openai).
Proof.
  intros x Hx. eexists; split; [done|]. by apply tmap_matrix.
Qed.

Lemma identity_module_ok n h : module_ok n h (fun x => Ok x).
Proof. intros x Hx. by exists x. Qed.

(** C4, as the code has it.  [Qwen2MoeSparseMoeBlock.forward] gives an input
    of one sequence, of shape [(1, S, hidden_size)], an output of the same
    shape.  [OpenaiMLP.forward], with a shared expert attached, gives an input
    of shape [(B, S, hidden_size)] an output of shape [(B * S, hidden_size)]:
    the vectors in one batch axis, which is not the shape of the input. *)
Theorem moe_output_shapes (config : Qwen2MoeConfig)
    (qself : Qwen2MoeSparseMoeBlock) (x : tensor R) (s : nat)
    (oself : OpenaiMLP) (shared : module) (y : tensor R) (b s' : nat) :
  block_built config qself → config_ok config →
  shape x = [1%nat; s; hidden_size config] → wf x →
  openai_built oself →
  module_ok (oa_num_experts oself * (b * s')) (oa_hidden_dim oself) (oa_experts oself) →
  oa_shared_expert oself = Some shared →
  module_ok (b * s') (oa_hidden_dim oself) shared →
  shape y = [b; s'; oa_hidden_dim oself] → wf y →
  (∃ out router_logits,
     Qwen2MoeSparseMoeBlock_forward qself x = Ok (out, router_logits)
     ∧ shape out = shape x)
  ∧ (∃ out router_scores,
       OpenaiMLP_forward oself y = Ok (out, router_scores)
       ∧ shape out = [(b * s')%nat; oa_hidden_dim oself]).
Proof.
  intros Hq Hc Hx Hwx Ho Hexp Hsh Hshok Hy Hwy. split.
  - destruct (qwen_block_forward config qself x s Hq Hc Hx Hwx)
      as (logits & routed & g & _ & _ & _ & _ & Hf).
    eexists _, _. split; [exact Hf|]. by rewrite Hx.
  - pose proof Ho as (_ & Hh & _).
    destruct (view_rows_3d y b s' _ Hy Hwy Hh) as [Hv Hm].
    destruct (openai_forward_spec oself y _ shared _ Ho Hv Hm Hexp Hsh Hshok)
      as (scores & out0 & rsum & _ & _ & _ & _ & Hf).
    eexists _, _. split; [exact Hf|]. done.
Qed.


(** C5, as the code has it.  In [Qwen2MoeSparseMoeBlock], for an input of
    one sequence, the output of every vector [h] is what the experts
    contribute plus [sigmoid (gate . h) * shared_expert h]: the shared expert
    sees every vector, whatever the routing, and its output is scaled by a
    sigmoid of the vector's own gate logit.  In [OpenaiMLP] there is no such
    gate: with a shared expert attached, the output is the output of the
    shared expert as it is, plus what the experts contribute. *)
Theorem shared_expert_contribution (config : Qwen2MoeConfig)
    (qself : Qwen2MoeSparseMoeBlock) (x : tensor R) (s : nat)
    (oself : OpenaiMLP) (shared : module) (y : tensor R) (n : nat) :
  block_built config qself → config_ok config →
  shape x = [1%nat; s; hidden_size config] → wf x →
  openai_built oself →
  module_ok (oa_num_experts oself * n) (oa_hidden_dim oself) (oa_experts oself) →
  oa_shared_expert oself = Some shared →
  module_ok n (oa_hidden_dim oself) shared →
  matrix n (oa_hidden_dim oself) y →
  (let hs := Tensor.mk [s; hidden_size config] (data x) in
   ∃ router_logits routed g,
     linear (gate qself) hs = Ok router_logits
     ∧ Qwen2MoeNaiveMoe_forward (experts qself) hs router_logits = Ok routed
     ∧ rows (shared_expert_gate qself) = [g]
     ∧ Qwen2MoeSparseMoeBlock_forward qself x
       = Ok (Tensor.mk [1%nat; s; hidden_size config]
               (zip_with Rplus (data routed)
                  (concat (map (fun h => map (Rmult (sigmoid (dot h g)))
                                             (mlp_row (shared_expert qself) h))
                               (rows hs)))),
             router_logits))
  ∧ (∃ router_scores shared_out routed_sum,
       OpenaiMLP_router_scores oself y = Ok (y, router_scores)
       ∧ openai_routed_sum oself y router_scores = Ok routed_sum
       ∧ shared y = Ok shared_out
       ∧ OpenaiMLP_forward oself y
         = Ok (Tensor.mk [n; oa_hidden_dim oself]
                 (zip_with Rplus (data shared_out) (data routed_sum)),
               router_scores)).
Proof.
  intros Hq Hc Hx Hwx Ho Hexp Hsh Hshok Hy. split.
  - intros hs.
    destruct (qwen_block_forward config qself x s Hq Hc Hx Hwx)
      as (logits & routed & g & Hl & Hr & _ & Hg & Hf).
    by exists logits, routed, g.
  - pose proof Ho as (_ & Hh & _).
    pose proof (view_rows_matrix y n _ Hy Hh) as Hv.
    destruct (openai_forward_spec oself y y shared n Ho Hv Hy Hexp Hsh Hshok)
      as (scores & out0 & rsum & Hsc & Hsum & Hout & _ & Hf).
    by exists scores, out0, rsum.
Qed.


Lemma sigmoid_lt_1 (g : R) : sigmoid g < 1.
Proof.
  unfold sigmoid. pose proof (exp_pos (- g)) as He.
  apply (Rmult_lt_reg_r (1 + exp (- g))); [lra|].
  unfold Rdiv. rewrite Rmult_assoc, Rinv_l by lra. lra.
Qed.


(** A defect of the code that the statements above leave aside:
    [OpenaiMLP.forward] of a module without shared expert raises, whatever
    the input. *)
Lemma openai_forward_as_built_raises (config : OpenaiConfig) (experts : module)
    (router_weight x : tensor R) :
  ∃ e, OpenaiMLP_forward (OpenaiMLP_init config experts router_weight) x = Raise e.
Proof. by apply openai_forward_unset. Qed.


End MoeProperties.

(** Runs of the routing, with the lower position first among equal
    elements. *)

Section MoeWitnesses.
Import Tensor TensorOps Moe Props.
Local Open Scope R_scope.
#[local] Existing Instance lower_index_first.

Lemma routing_weights_normalized_witness :
  let self := {| naive_top_k := 1; naive_num_experts := 2;
                 naive_norm_topk_prob := true; naive_experts := [] |} in
  let routing_weights := Tensor.mk [1%nat; 2%nat] [0; 1] in
  ∃ w sel,
    Qwen2MoeNaiveMoe_routing self routing_weights = Ok (w, sel)
    ∧ length (rows w) = 1%nat
    ∧ ∀ t weights, rows w !! t = Some weights →
        length weights = 1%nat
        ∧ Forall (fun x => 0 <= x) weights
        ∧ (true = true → sum_R weights = 1).
Proof.
  intros self routing_weights.
  apply (routing_weights_normalized self routing_weights 1 2).
  - split; reflexivity.
  - simpl. lia.
Defined.

Lemma routing_orders_witness :
  let qself := {| naive_top_k := 1; naive_num_experts := 2;
                  naive_norm_topk_prob := false; naive_experts := [] |} in
  let routing_weights := Tensor.mk [1%nat; 2%nat] [0; 1] in
  let oself := {| oa_top_k := 1; oa_hidden_dim := 1; oa_num_experts := 2;
                  oa_experts := fun x => Ok x;
                  oa_router := Tensor.mk [2%nat; 1%nat] [1; 2];
                  oa_shared_expert := None |} in
  let hidden_states := Tensor.mk [1%nat; 1%nat] [1] in
  (∃ w sel, Qwen2MoeNaiveMoe_routing qself routing_weights = Ok (w, sel))
  ∧ (∃ scores,
       OpenaiMLP_router_scores oself hidden_states = Ok (hidden_states, scores)).
Proof.
  intros qself routing_weights oself hidden_states.
  assert (H1 : matrix 1 2 routing_weights) by (split; reflexivity).
  assert (H2 : (naive_top_k qself ≤ 2)%nat) by (simpl; lia).
  assert (H3 : openai_built oself).
  { split; [split; reflexivity|]. simpl. lia. }
  assert (H4 : matrix 1 (oa_hidden_dim oself) hidden_states) by (split; reflexivity).
  destruct (routing_orders qself routing_weights oself hidden_states 1 2 1
              H1 H2 H3 H4) as [(w & sel & Hq & _) [(scores & Ho & _) _]].
  split; [by exists w, sel | by exists scores].
Defined.

Lemma moe_output_shapes_witness :
  let x := Tensor.mk [1%nat; 1%nat; 1%nat] [1] in
  (∃ out router_logits,
     Qwen2MoeSparseMoeBlock_forward tiny_block x = Ok (out, router_logits)
     ∧ shape out = shape x)
  ∧ (∃ out router_scores,
       OpenaiMLP_forward tiny_openai x = Ok (out, router_scores)
       ∧ shape out = [(1 * 1)%nat; oa_hidden_dim tiny_openai]).
Proof.
  intros x.
  apply (moe_output_shapes tiny_config tiny_block x 1
           tiny_openai (fun x => Ok x) x 1 1).
  - apply tiny_block_built.
  - apply tiny_config_ok.
  - reflexivity.
  - reflexivity.
  - apply tiny_openai_built.
  - apply tiny_openai_experts_ok.
  - reflexivity.
  - apply identity_module_ok.
  - reflexivity.
  - reflexivity.
Defined.

(** C4 as stated fails: for an input of three axes, [OpenaiMLP.forward]
    returns two axes when a shared expert is attached, and returns nothing,
    raising on the missing attribute, as [__init__] builds the module. *)
Lemma openai_output_is_flattened :
  let x := Tensor.mk [1%nat; 1%nat; 1%nat] [1] in
  (∃ out router_scores,
     OpenaiMLP_forward tiny_openai x = Ok (out, router_scores)
     ∧ shape out = [1%nat; 1%nat]
     ∧ shape out ≠ shape x)
  ∧ OpenaiMLP_forward tiny_openai_as_built x = Raise AttributeError.
Proof.
  intros x. split.
  - exists (Tensor.mk [1%nat; 1%nat] [1 + (0 + 0)]),
           (Tensor.mk [1%nat; 1%nat] [sigmoid (1 * 1 + 0)]).
    split; [|split; [done|discriminate]].
    cbv -[Rplus Rmult Rdiv Rinv Ropp exp IZR Rlt_dec sigmoid]. reflexivity.
  - cbv -[Rplus Rmult Rdiv Rinv Ropp exp IZR Rlt_dec sigmoid]. reflexivity.
Qed.

Lemma shared_expert_contribution_witness :
  let x := Tensor.mk [1%nat; 1%nat; 1%nat] [1] in
  let y := Tensor.mk [1%nat; 1%nat] [1] in
  (let hs := Tensor.mk [1%nat; hidden_size tiny_config] (data x) in
   ∃ router_logits routed g,
     linear (gate tiny_block) hs = Ok router_logits
     ∧ Qwen2MoeNaiveMoe_forward (experts tiny_block) hs router_logits = Ok routed
     ∧ rows (shared_expert_gate tiny_block) = [g]
     ∧ Qwen2MoeSparseMoeBlock_forward tiny_block x
       = Ok (Tensor.mk [1%nat; 1%nat; hidden_size tiny_config]
               (zip_with Rplus (data routed)
                  (concat (map (fun h => map (Rmult (sigmoid (dot h g)))
                                             (mlp_row (shared_expert tiny_block) h))
                               (rows hs)))),
             router_logits))
  ∧ (∃ router_scores shared_out routed_sum,
       OpenaiMLP_router_scores tiny_openai y = Ok (y, router_scores)
       ∧ openai_routed_sum tiny_openai y router_scores = Ok routed_sum
       ∧ Ok y = Ok shared_out
       ∧ OpenaiMLP_forward tiny_openai y
         = Ok (Tensor.mk [1%nat; oa_hidden_dim tiny_openai]
                 (zip_with Rplus (data shared_out) (data routed_sum)),
               router_scores)).
Proof.
  intros x y.
  apply (shared_expert_contribution tiny_config tiny_block x 1
           tiny_openai (fun x => Ok x) y 1).
  - apply tiny_block_built.
  - apply tiny_config_ok.
  - reflexivity.
  - reflexivity.
  - apply tiny_openai_built.
  - apply tiny_openai_experts_ok.
  - reflexivity.
  - apply identity_module_ok.
  - by split.
Defined.

(** C5 as stated fails: with the shared expert returning [1] and the experts
    contributing [0 + 0], [OpenaiMLP.forward] returns [1 + (0 + 0)], which no
    sigmoid gate on the shared expert's output gives; and as [__init__]
    builds the module, [forward] raises and adds nothing. *)
Lemma openai_shared_expert_not_gated :
  let y := Tensor.mk [1%nat; 1%nat] [1] in
  OpenaiMLP_forward tiny_openai y
  = Ok (Tensor.mk [1%nat; 1%nat] [1 + (0 + 0)],
        Tensor.mk [1%nat; 1%nat] [sigmoid (1 * 1 + 0)])
  ∧ (∀ g : R, 1 + (0 + 0) ≠ sigmoid g * 1 + (0 + 0))
  ∧ OpenaiMLP_forward tiny_openai_as_built y = Raise AttributeError.
Proof.
  split; [|split].
  - cbv -[Rplus Rmult Rdiv Rinv Ropp exp IZR Rlt_dec sigmoid]. reflexivity.
  - intros g. pose proof (sigmoid_lt_1 g). lra.
  - cbv -[Rplus Rmult Rdiv Rinv Ropp exp IZR Rlt_dec sigmoid]. reflexivity.
Qed.

(** Another defect of the code that the statements above leave aside: a
    batch of two sequences makes [Qwen2MoeSparseMoeBlock.forward] raise; the
    routed output is reshaped before the shared output is added to it. *)
Lemma qwen_block_batch_of_two_raises :
  Qwen2MoeSparseMoeBlock_forward tiny_block (Tensor.mk [2%nat; 1%nat; 1%nat] [1; 1])
  = Raise RuntimeError.
Proof. cbv -[Rplus Rmult Rdiv Rinv Ropp exp IZR Rlt_dec sigmoid]. reflexivity. Qed.

(** The two orders do give different numbers: for three experts with equal
    logits and one expert per token, the first of them selected,
    [Qwen2MoeNaiveMoe] weighs the selected expert [1/3] and [OpenaiMLP] scores
    it [1/2]. *)
Lemma orders_give_different_weights :
  weights_row 1 false [0; 0; 0] = [/ 3]
  ∧ openai_score 1 [0; 0; 0] 0 = / 2.
Proof.
  split.
  - unfold weights_row, selected_row, topk_row, softmax_row, indexed.
    unfold tie_rank, lower_index_first.
    cbn [map length seq zip zip_with sort_desc fold_right insert_desc snd sum_R].
    rewrite exp_0.
    repeat (cbn [insert_desc]; unfold goes_before; cbn [fst snd];
            destruct (Rlt_dec _ _) as [Hn|_]; [by apply Rlt_irrefl in Hn|];
            cbn [Nat.leb]).
    cbn [firstn map snd]. f_equal. field.
  - unfold openai_score, topk_row, indexed.
    unfold tie_rank, lower_index_first.
    cbn [map length seq zip zip_with sort_desc fold_right insert_desc snd].
    repeat (cbn [insert_desc]; unfold goes_before; cbn [fst snd];
            destruct (Rlt_dec _ _) as [Hn|_]; [by apply Rlt_irrefl in Hn|];
            cbn [Nat.leb]).
    cbn [firstn map fst nth]. rewrite decide_True by left.
    unfold sigmoid_x, sigmoid. rewrite Ropp_0, exp_0. field.
Qed.

(** Among equal elements the ranking decides.  Of [7; 3; 7; 7] the two
    largest are the first and the third when the lower position goes first,
    and the third and the fourth when these two are ranked first. *)
Lemma topk_row_among_equals :
  map fst (topk_row 2 [7; 3; 7; 7]) = [0; 2]%nat
  ∧ map fst (@topk_row (ranked [2; 3]%nat) 2 [7; 3; 7; 7]) = [2; 3]%nat.
Proof.
  split; cbv -[Rlt_dec IZR];
    repeat (destruct (Rlt_dec _ _); try lra); reflexivity.
Qed.

End MoeWitnesses.

(** * More on the key remapper *)

Section RemapperFacts.
Import Re Tensor Convert Props ConvertProps.

Lemma mapM_Raise {A B} (f : A → result B) (xs : list A) e :
  mapM f xs = Raise e → ∃ x, x ∈ xs ∧ f x = Raise e.
Proof.
  induction xs as [|x xs IH]; simpl; [done|].
  destruct (f x) as [y|e'] eqn:E; rsimpl.
  - destruct (mapM f xs) as [ys|e'']; rsimpl; [done|].
    intros [= <-]. destruct (IH eq_refl) as (x' & Hin & Hx').
    exists x'. split; [by right|done].
  - intros [= <-]. exists x. split; [by left|done].
Qed.

Lemma rules_lines_single rules l :
  rules_lines rules [l] = l' ← apply_rules rules l; Ok [l'].
Proof.
  revert l; induction rules as [|rule rules IH]; intros l; [done|].
  cbn [rules_lines apply_rules mapM].
  destruct (apply_rule l rule) as [l1|]; rsimpl; [|done]. apply IH.
Qed.

Lemma rules_lines_Raise rules ls e :
  rules_lines rules ls = Raise e →
  ∃ l, l ∈ ls ∧ apply_rules rules l = Raise e.
Proof.
  revert ls; induction rules as [|rule rules IH]; intros ls; [done|].
  cbn [rules_lines apply_rules].
  destruct (mapM (fun l => apply_rule l rule) ls) as [ls1|e1] eqn:E; rsimpl.
  - intros (l1 & Hin & Hl1)%IH. apply mapM_Ok in E.
    apply list_elem_of_lookup in Hin as [i Hi].
    destruct (Forall2_lookup_r _ _ _ _ _ E Hi) as (l & Hl & Hrule).
    exists l. split; [by eapply list_elem_of_lookup_2|].
    rewrite Hrule. by rsimpl.
  - intros [= <-]. apply mapM_Raise in E as (l & Hin & Hl).
    exists l. split; [done|]. rewrite Hl. by rsimpl.
Qed.

(** The remapper on a single key. *)
Lemma convert_single (k : string) :
  nl_free (txt k) = true →
  convert_old_keys_to_new_keys (Some [k])
  = l' ← apply_rules ORIGINAL_TO_CONVERTED_KEY_MAPPING (txt k);
    Ok {[ k := str l' ]}.
Proof.
  intros Hk. rewrite convert_lines by (done || by repeat constructor).
  cbn [map]. rewrite rules_lines_single.
  destruct (apply_rules _ _) as [l'|]; rsimpl; [|done].
  unfold dict_zip. simpl. by rewrite insert_empty.
Qed.

Lemma dict_zip_dom {V} (ks : list string) (vs : list V) :
  length ks = length vs → dom (dict_zip ks vs) = list_to_set ks.
Proof.
  unfold dict_zip. intros Hlen.
  assert (Hgen : ∀ d : gmap string V,
            dom (foldl (fun d kv => <[kv.1 := kv.2]> d) d (zip ks vs))
            = dom d ∪ list_to_set ks).
  { revert vs Hlen. induction ks as [|k ks IH]; intros [|v vs] Hlen d;
      simplify_eq/=; [set_solver|].
    rewrite IH by done. rewrite dom_insert_L. set_solver. }
  rewrite Hgen. set_solver.
Qed.

(** A key of a batch gets the name it gets alone. *)
Lemma convert_key_alone (keys : list string) d k :
  Forall (fun k => nl_free (txt k) = true) keys →
  convert_old_keys_to_new_keys (Some keys) = Ok d → k ∈ keys →
  ∃ n, convert_old_keys_to_new_keys (Some [k]) = Ok {[ k := n ]}
       ∧ d !! k = Some n.
Proof.
  intros Hnl Hd Hin.
  assert (Hne : keys ≠ []) by (intros ->; by apply elem_of_nil in Hin).
  assert (Hk : nl_free (txt k) = true) by (rewrite Forall_forall in Hnl; auto).
  rewrite convert_lines in Hd by done.
  destruct (rules_lines _ _) as [ls'|] eqn:E; rsimpl; [|done].
  injection Hd as <-. apply rules_lines_Ok in E.
  apply list_elem_of_lookup in Hin as [i Hi].
  assert (Hi' : map txt keys !! i = Some (txt k))
    by by rewrite list_lookup_fmap, Hi.
  destruct (Forall2_lookup_l _ _ _ _ _ E Hi') as (l' & _ & Hl').
  exists (str l'). rewrite convert_single, Hl' by done. split; [done|].
  apply dict_zip_lookup; [by eapply list_elem_of_lookup_2|].
  apply Forall2_fmap_r. apply Forall2_fmap_l in E.
  eapply Forall2_impl; [done|]. intros k' l'' Hk' ->. unfold compose in Hk'.
  congruence.
Qed.

(** A batch that makes the remapper raise has a key that does so alone. *)
Lemma convert_batch_raises (keys : list string) e :
  Forall (fun k => nl_free (txt k) = true) keys →
  convert_old_keys_to_new_keys (Some keys) = Raise e →
  ∃ k, k ∈ keys ∧ convert_old_keys_to_new_keys (Some [k]) = Raise e.
Proof.
  intros Hnl He. destruct keys as [|k0 keys]; [done|].
  rewrite convert_lines in He by done.
  destruct (rules_lines _ _) as [ls'|e'] eqn:E; rsimpl; [done|].
  injection He as <-. apply rules_lines_Raise in E as (l & Hin & Hl).
  apply list_elem_of_fmap in Hin as (k & -> & Hin). exists k. split; [done|].
  rewrite convert_single, Hl; [done|]. rewrite Forall_forall in Hnl. auto.
Qed.

End RemapperFacts.

(** ** When [re.sub] raises *)

Section SubErrors.
Import Re Tensor Convert Props ConvertProps.
Implicit Types (r : regex) (s rest : text) (caps : captures) (t : template).

(** A match gives every group of the pattern a capture. *)
Lemma rmatch_ngroups r s caps rest :
  (caps, rest) ∈ rmatch r s → length caps = ngroups r.
Proof.
  revert s caps rest; induction r as [|k|k|r1 IH1 r2 IH2|r1 IH1 r2 IH2|r IH];
    intros s caps rest; simpl.
  - rewrite list_elem_of_singleton. by intros [= -> ->].
  - destruct s as [|c s]; [by intros ?%elem_of_nil|].
    destruct (cmatch k c); [|by intros ?%elem_of_nil].
    rewrite list_elem_of_singleton. by intros [= -> ->].
  - rewrite list_elem_of_fmap. by intros (x & [= -> ->] & Hx).
  - rewrite list_elem_of_In, in_flat_map.
    intros ([c1 s1] & H1%list_elem_of_In & H2%list_elem_of_In).
    apply list_elem_of_fmap in H2 as ([c2 s2] & [= -> ->] & H2).
    rewrite length_app. erewrite IH1, IH2; done.
  - rewrite elem_of_app, !list_elem_of_fmap.
    intros [([c1 s1] & [= -> ->] & H)|([c2 s2] & [= -> ->] & H)];
      rewrite length_app, repeat_length.
    + by erewrite IH1.
    + by erewrite IH2.
  - rewrite list_elem_of_fmap. intros ([c0 s0] & [= -> ->] & H).
    simpl. by erewrite IH.
Qed.

Lemma match_here_ngroups r s caps rest :
  match_here r s = Some (caps, rest) → length caps = ngroups r.
Proof.
  unfold match_here. intros H. apply (rmatch_ngroups r s caps rest).
  destruct (rmatch r s); simplify_eq/=. left.
Qed.

Lemma expand_total r t caps :
  template_ok r t = true → length caps = ngroups r →
  ∃ o, expand t caps = Ok o.
Proof.
  intros Ht Hlen. induction t as [|[lit|n] t IH]; simpl in *; [by eauto| |].
  - destruct (IH Ht) as [o ->]. rsimpl. eauto.
  - apply andb_true_iff in Ht as [[Hn0 Hn]%andb_true_iff Ht].
    apply Nat.ltb_lt in Hn0. apply Nat.leb_le in Hn.
    destruct n as [|i]; [lia|].
    destruct (nth_error caps i) as [g|] eqn:E.
    + destruct (IH Ht) as [o ->]. rsimpl. eauto.
    + apply nth_error_None in E. lia.
Qed.

(** With a template that refers to groups of the pattern only, [re.sub]
    returns. *)
Lemma sub_from_total r t skip s :
  template_ok r t = true → ∃ o, sub_from r t skip s = Ok o.
Proof.
  intros Ht. revert skip; induction s as [|c s IH]; intros skip; cbn [sub_from].
  - destruct skip; [|by eauto].
    destruct (match_here r []) as [[caps rest]|] eqn:E; [|by eauto].
    eapply expand_total; [done|]. by eapply match_here_ngroups.
  - destruct skip as [|k]; [|done].
    destruct (match_here r (c :: s)) as [[caps rest]|] eqn:E.
    + destruct (expand_total r t caps Ht) as [rep ->];
        [by eapply match_here_ngroups|].
      rsimpl. destruct (length (c :: s) - length rest) as [|k].
      * destruct (IH 0) as [o ->]. rsimpl. eauto.
      * destruct (IH k) as [o ->]. rsimpl. eauto.
    + destruct (IH 0) as [o ->]. rsimpl. eauto.
Qed.

Lemma expand_Raise t caps e : expand t caps = Raise e → e = ReError.
Proof.
  induction t as [|[lit|n] t IH]; simpl; [done| |].
  - destruct (expand t caps); rsimpl; [done|]. intros [= <-]. by apply IH.
  - destruct n as [|i]; [by intros [= <-]|].
    destruct (nth_error caps i); [|by intros [= <-]].
    destruct (expand t caps); rsimpl; [done|]. intros [= <-]. by apply IH.
Qed.

Lemma sub_from_Raise r t skip s e : sub_from r t skip s = Raise e → e = ReError.
Proof.
  revert skip; induction s as [|c s IH]; intros skip; cbn [sub_from].
  - destruct skip; [|done].
    destruct (match_here r []) as [[caps rest]|]; [|done]. apply expand_Raise.
  - destruct skip as [|k]; [|by apply IH].
    destruct (match_here r (c :: s)) as [[caps rest]|].
    + destruct (expand t caps) as [rep|e'] eqn:E; rsimpl.
      * destruct (length (c :: s) - length rest) as [|k].
        -- destruct (sub_from r t 0 s) eqn:E'; rsimpl; [done|].
           intros [= <-]. by eapply IH.
        -- destruct (sub_from r t k s) eqn:E'; rsimpl; [done|].
           intros [= <-]. by eapply IH.
      * intros [= <-]. by eapply expand_Raise.
    + destruct (sub_from r t 0 s) eqn:E'; rsimpl; [done|].
      intros [= <-]. by eapply IH.
Qed.

(** With a template that cannot be expanded, [re.sub] raises as soon as the
    pattern is found. *)
Lemma sub_from_bad_template r t s :
  (∀ caps, length caps = ngroups r → expand t caps = Raise ReError) →
  search r s = true → sub_from r t 0 s = Raise ReError.
Proof.
  intros Hbad. induction s as [|c s IH]; cbn [sub_from search].
  - destruct (match_here r []) as [[caps rest]|] eqn:E; [|done].
    intros _. apply Hbad. by eapply match_here_ngroups.
  - destruct (match_here r (c :: s)) as [[caps rest]|] eqn:E.
    + intros _. rewrite Hbad by by eapply match_here_ngroups. done.
    + intros Hs. by rewrite IH.
Qed.

Lemma apply_rule_total rule l :
  rule_ok rule = true → ∃ o, apply_rule l rule = Ok o.
Proof.
  unfold rule_ok, apply_rule, sub. destruct rule.2 as [t|]; simpl; intros H.
  - by apply sub_from_total.
  - by apply sub_from_total.
Qed.

Lemma apply_rule_Raise rule l e : apply_rule l rule = Raise e → e = ReError.
Proof. unfold apply_rule, sub. destruct rule.2; apply sub_from_Raise. Qed.

Lemma mapM_total {A B} (f : A → result B) (xs : list A) :
  (∀ x, ∃ y, f x = Ok y) → ∃ ys, mapM f xs = Ok ys.
Proof.
  intros Hf. induction xs as [|x xs [ys IH]]; simpl; [by eauto|].
  destruct (Hf x) as [y ->]. rewrite IH. rsimpl. eauto.
Qed.

Lemma mapM_raises {A B} (f : A → result B) (xs : list A) x e :
  x ∈ xs → f x = Raise e → ∃ e', mapM f xs = Raise e'.
Proof.
  intros Hin Hx. induction Hin as [x xs|x x' xs Hin IH]; simpl.
  - rewrite Hx. rsimpl. eauto.
  - destruct (f x'); rsimpl; [|by eauto].
    destruct (IH Hx) as [e' ->]. rsimpl. eauto.
Qed.

(** A line that the rules before a rule leave alone and on which that rule
    raises makes the whole pass raise. *)
Lemma rules_lines_bad pre bad post ls l e :
  Forall (fun rule => rule_ok rule = true) pre →
  l ∈ ls →
  forallb (fun rule : regex * option template => negb (search rule.1 l)) pre = true →
  apply_rule l bad = Raise e →
  rules_lines (pre ++ bad :: post) ls = Raise ReError.
Proof.
  intros Hpre. revert ls; induction Hpre as [|rule pre Hrule _ IH];
    intros ls Hin Hun Hbad; cbn [app rules_lines].
  - destruct (mapM_raises (fun l => apply_rule l bad) ls l e Hin Hbad) as [e' He'].
    rewrite He'. rsimpl.
    apply mapM_Raise in He' as (l' & _ & Hl'). apply apply_rule_Raise in Hl'.
    by subst.
  - cbn [forallb] in Hun. apply andb_true_iff in Hun as [Hr Hun].
    apply negb_true_iff in Hr.
    destruct (mapM_total (fun l => apply_rule l rule) ls) as [ls1 E].
    { intros x. by apply apply_rule_total. }
    rewrite E. rsimpl. apply IH; [|done..].
    apply mapM_Ok in E. apply list_elem_of_lookup in Hin as [i Hi].
    destruct (Forall2_lookup_l _ _ _ _ _ E Hi) as (l1 & Hl1 & Hrule1).
    assert (apply_rule l rule = Ok l) as Hsame.
    { unfold apply_rule, sub. destruct rule.2; by rewrite sub_from_unmatched. }
    rewrite Hsame in Hrule1. injection Hrule1 as <-.
    by eapply list_elem_of_lookup_2.
Qed.

End SubErrors.

Section RemapperProperties.
Import Re Tensor Convert Props ConvertProps.

(** The keys are renamed in one pass over their concatenation, but each key
    fares as it does alone: the name a key gets in a batch is the name the
    remapper gives it when it is called with this key only, and a batch makes
    the remapper raise only when one of its keys does. *)
Theorem convert_is_keywise (keys : list string) :
  Forall (fun k => nl_free (txt k) = true) keys →
  (∀ d k, convert_old_keys_to_new_keys (Some keys) = Ok d → k ∈ keys →
     ∃ n, convert_old_keys_to_new_keys (Some [k]) = Ok {[ k := n ]}
          ∧ d !! k = Some n)
  ∧ (∀ e, convert_old_keys_to_new_keys (Some keys) = Raise e →
       ∃ k, k ∈ keys ∧ convert_old_keys_to_new_keys (Some [k]) = Raise e).
Proof.
  intros Hnl. split.
  - intros d k Hd Hin. by eapply convert_key_alone.
  - intros e He. by apply convert_batch_raises.
Qed.

Lemma convert_is_keywise_witness :
  let keys := ["block.3.mlp.norm.scale"; "embedding.weight"]%string in
  (∀ d k, convert_old_keys_to_new_keys (Some keys) = Ok d → k ∈ keys →
     ∃ n, convert_old_keys_to_new_keys (Some [k]) = Ok {[ k := n ]}
          ∧ d !! k = Some n)
  ∧ (∀ e, convert_old_keys_to_new_keys (Some keys) = Raise e →
       ∃ k, k ∈ keys ∧ convert_old_keys_to_new_keys (Some [k]) = Raise e).
Proof.
  intros keys. apply (convert_is_keywise keys). repeat constructor.
Defined.

(** The mapping the remapper returns has the keys it was given as its keys,
    no more and no fewer; for the empty list it has the empty name, the one
    line of the empty text. *)
Theorem convert_domain (keys : list string) d :
  Forall (fun k => nl_free (txt k) = true) keys →
  convert_old_keys_to_new_keys (Some keys) = Ok d →
  dom d = list_to_set (match keys with [] => [""%string] | _ => keys end).
Proof.
  intros Hnl Hd. destruct keys as [|k0 keys].
  - injection Hd as <-. by apply dict_zip_dom.
  - rewrite convert_lines in Hd by done.
    destruct (rules_lines _ _) as [ls'|] eqn:E; rsimpl; [|done].
    injection Hd as <-. apply rules_lines_Ok, Forall2_length in E.
    apply dict_zip_dom. by rewrite !length_map in *.
Qed.

Lemma convert_domain_witness :
  ∃ d, convert_old_keys_to_new_keys (Some ["rope.freqs"; "embedding.weight"]%string)
       = Ok d
       ∧ dom d = list_to_set ["rope.freqs"; "embedding.weight"]%string.
Proof.
  eexists. split; [reflexivity|].
  apply (convert_domain ["rope.freqs"; "embedding.weight"]%string);
    [repeat constructor | reflexivity].
Defined.

(** The rule for [block.(\d+).attn.out] refers to a second group, which its
    pattern does not have.  A checkpoint with a key in which this pattern is
    found, and which the rules before it leave alone, cannot be converted:
    the remapper raises, and with it [write_model]. *)
Theorem attn_out_key_aborts (A : Type) (loaded : list (string * tensor A))
    (k : string) :
  Forall (fun k => nl_free (txt k) = true) (map fst loaded) →
  k ∈ map fst loaded →
  forallb (fun rule : regex * option template => negb (search rule.1 (txt k)))
          rules_before_attn_out = true →
  search attn_out_pattern (txt k) = true →
  convert_old_keys_to_new_keys (Some (map fst loaded)) = Raise ReError
  ∧ convert_state_dict loaded = Raise ReError
  ∧ ∀ expected, write_model expected loaded = Raise ReError.
Proof.
  intros Hnl Hin Hun Hs.
  assert (Hne : map fst loaded ≠ [])
    by (intros Heq; rewrite Heq in Hin; by apply elem_of_nil in Hin).
  assert (Hconv : convert_old_keys_to_new_keys (Some (map fst loaded))
                  = Raise ReError).
  { rewrite convert_lines by done.
    change ORIGINAL_TO_CONVERTED_KEY_MAPPING
      with (rules_before_attn_out
            ++ (attn_out_pattern,
                Some [T "layers."; TRef 1; T ".self_attn."; TRef 2; T "_proj"])
            :: skipn 6 ORIGINAL_TO_CONVERTED_KEY_MAPPING).
    erewrite (rules_lines_bad _ _ _ _ (txt k)); [done| | |done|].
    - apply Forall_forall. intros rule Hr%list_elem_of_In. revert rule Hr.
      apply forallb_forall. by vm_compute.
    - by apply list_elem_of_fmap_2.
    - unfold apply_rule, sub. cbn [fst snd].
      apply sub_from_bad_template; [|done].
      intros [|g [|g' caps]] Hlen; try done. }
  split; [done|].
  assert (Hsd : convert_state_dict loaded = Raise ReError)
    by (unfold convert_state_dict; by rewrite Hconv).
  split; [done|]. intros expected. unfold write_model. by rewrite Hsd.
Qed.

Lemma attn_out_key_aborts_witness :
  let loaded := [("embedding.weight"%string, Tensor.mk [1] [0]);
                 ("block.0.attn.out.weight"%string, Tensor.mk [1] [1])] in
  convert_old_keys_to_new_keys (Some (map fst loaded)) = Raise ReError
  ∧ convert_state_dict loaded = Raise ReError
  ∧ ∀ expected, write_model expected loaded = Raise ReError.
Proof.
  intros loaded.
  apply (attn_out_key_aborts nat loaded "block.0.attn.out.weight").
  - repeat constructor.
  - right. left.
  - reflexivity.
  - reflexivity.
Defined.

End RemapperProperties.

(** * More on the conversion loop *)

Section LoopProperties.
Import Re Tensor Convert Props ConvertProps.
Context {A : Type}.
Implicit Types (value : tensor A) (state_dict : gmap string (tensor A))
  (entries : list (string * tensor A)).

Lemma write_model_loop_plain new_keys state_dict entries :
  Forall (fun e => is_fused (new_name new_keys e.1) = false) entries →
  ∃ state_dict',
    write_model_loop new_keys state_dict entries = Ok state_dict'
    ∧ ∀ n, state_dict' !! n
           = match last (bound_as new_keys n entries) with
             | Some e => Some e.2
             | None => state_dict !! n
             end.
Proof.
  intros Hpl. revert state_dict.
  induction Hpl as [|[key value] entries He _ IH]; intros state_dict.
  - exists state_dict. by split.
  - cbn [write_model_loop]. unfold write_model_step. cbn [fst snd] in *.
    unfold new_name in He. rewrite He. rsimpl.
    destruct (IH (<[default key (new_keys !! key) := value]> state_dict))
      as (sd' & -> & Hsd').
    exists sd'. split; [done|]. intros n. rewrite Hsd'. unfold bound_as.
    rewrite filter_cons. case_decide as Hn; cbn [fst] in Hn; unfold new_name in Hn.
    + rewrite last_cons.
      destruct (last (filter _ entries)) as [e'|]; [done|].
      by rewrite Hn, lookup_insert_eq.
    + destruct (last (filter _ entries)) as [e'|]; [done|].
      by rewrite lookup_insert_ne.
Qed.

(** When no tensor goes through the fused split, the state dict binds a name
    to the tensor of the last key of the checkpoint that is renamed to it:
    keys that get the same new name overwrite one another without an error,
    and a name no key is renamed to is not bound. *)
Theorem later_key_overwrites (loaded : list (string * tensor A)) new_keys :
  convert_old_keys_to_new_keys (Some (map fst loaded)) = Ok new_keys →
  Forall (fun e => is_fused (new_name new_keys e.1) = false) loaded →
  ∃ state_dict,
    convert_state_dict loaded = Ok state_dict
    ∧ ∀ n, state_dict !! n = snd <$> last (bound_as new_keys n loaded).
Proof.
  intros Hconv Hpl. unfold convert_state_dict. rewrite Hconv. rsimpl.
  destruct (write_model_loop_plain new_keys ∅ loaded Hpl) as (sd & -> & Hsd).
  exists sd. split; [done|]. intros n. rewrite Hsd.
  by destruct (last _).
Qed.

(** Whatever the size of the last axis, a fused split that goes through
    loses nothing: the three tensors it binds, put side by side along the
    last axis in the order query, key, value, are the fused tensor. *)
Theorem fused_split_loses_nothing new_keys state_dict key value state_dict' :
  is_fused (new_name new_keys key) = true →
  wf value → shape value ≠ [] →
  write_model_step new_keys state_dict (key, value) = Ok state_dict' →
  ∃ q k v q_key k_key v_key,
    re_sub fused_pat [T "q_proj.weight"] (new_name new_keys key) = Ok q_key
    ∧ re_sub fused_pat [T "k_proj.weight"] (new_name new_keys key) = Ok k_key
    ∧ re_sub fused_pat [T "v_proj.weight"] (new_name new_keys key) = Ok v_key
    ∧ state_dict' !! q_key = Some q
    ∧ state_dict' !! k_key = Some k
    ∧ state_dict' !! v_key = Some v
    ∧ cat_last [q; k; v] = value
    ∧ last_dim (shape q) + last_dim (shape k) + last_dim (shape v)
      = last_dim (shape value).
Proof.
  unfold new_name. intros Hf Hw Hs Hstep.
  set (s := last_dim (shape value)).
  assert (Hparts : ∃ a b c, a + b + c = s
            ∧ chunk 3 value = Ok [narrow_last 0 a value; narrow_last a b value;
                                  narrow_last (a + b) c value]).
  { destruct (decide (s mod 3 = 0)) as [Hm|Hm].
    - exists (s / 3), (s / 3), (s / 3).
      assert (Hs3 : s = 3 * (s / 3)).
      { pose proof (Nat.div_mod_eq s 3). lia. }
      split; [lia|].
      rewrite (chunk3_even value (s / 3)) by done.
      by replace (2 * (s / 3)) with (s / 3 + s / 3) by lia.
    - assert (Hpos : 0 < s) by (destruct s; [done|lia]).
      pose proof (uneven_short_sizes s Hm) as Hshort.
      set (c := (s + 2) / 3) in *.
      destruct (decide (s ≤ 2 * c)) as [Hle|Hgt].
      + exfalso.
        destruct (chunk3_short value s Hs eq_refl Hpos Hle) as (ps & Hc & Hlen).
        unfold write_model_step in Hstep. cbn [fst snd] in Hstep.
        rewrite Hf, Hc in Hstep. revert Hstep. rsimpl.
        destruct ps as [ | ? [ | ? [ | ? [ | ? ? ] ] ] ]; simpl in Hlen; done || lia.
      + assert (Hc : 0 < c) by (subst c; rewrite ceil_third by done; lia).
        exists c, c, (s - 2 * c). split; [lia|].
        rewrite (chunk3_three value s c) by (done || lia).
        by replace (2 * c) with (c + c) by lia. }
  destruct Hparts as (a & b & c & Habc & Hch).
  destruct (write_model_step_fused new_keys state_dict key value _ _ _ Hf Hch)
    as (q_key & k_key & v_key & sd' & Hq & Hk & Hv & Hstep' & Hlq & Hlk & Hlv).
  rewrite Hstep in Hstep'. injection Hstep' as <-.
  exists (narrow_last 0 a value), (narrow_last a b value),
    (narrow_last (a + b) c value), q_key, k_key, v_key.
  repeat split; try done.
  - apply cat_last_three_slices; [done..|]. by rewrite Habc.
  - cbn [narrow_last shape]. rewrite !last_dim_snoc. done.
Qed.

End LoopProperties.

Section LoopWitnesses.
Import Re Tensor Convert Props ConvertProps.

Lemma later_key_overwrites_witness :
  let loaded := [("embedding.weight"%string, Tensor.mk [1] [7]);
                 ("embed_tokens.weight"%string, Tensor.mk [1] [8]);
                 ("norm.weight"%string, Tensor.mk [1] [9])] in
  ∃ new_keys state_dict,
    convert_old_keys_to_new_keys (Some (map fst loaded)) = Ok new_keys
    ∧ convert_state_dict loaded = Ok state_dict
    ∧ ∀ n, state_dict !! n = snd <$> last (bound_as new_keys n loaded).
Proof.
  intros loaded. eexists.
  assert (Hc : convert_old_keys_to_new_keys (Some (map fst loaded))
               = Ok (dict_zip
                       ["embedding.weight"; "embed_tokens.weight"; "norm.weight"]%string
                       ["embed_tokens.weight"; "embed_tokens.weight"; "norm.weight"]%string))
    by reflexivity.
  destruct (later_key_overwrites loaded _ Hc) as (sd & Hsd & Hn).
  - repeat constructor.
  - exists sd. by repeat split.
Defined.

Lemma fused_split_loses_nothing_witness :
  let value := Tensor.mk [2; 5] [1; 2; 3; 4; 5; 6; 7; 8; 9; 10] in
  let key := "language_model.layers.0.self_attn.q_proj.weight"%string in
  ∃ state_dict' q k v q_key k_key v_key,
    write_model_step ∅ ∅ (key, value) = Ok state_dict'
    ∧ re_sub fused_pat [T "q_proj.weight"] (new_name ∅ key) = Ok q_key
    ∧ re_sub fused_pat [T "k_proj.weight"] (new_name ∅ key) = Ok k_key
    ∧ re_sub fused_pat [T "v_proj.weight"] (new_name ∅ key) = Ok v_key
    ∧ state_dict' !! q_key = Some q
    ∧ state_dict' !! k_key = Some k
    ∧ state_dict' !! v_key = Some v
    ∧ cat_last [q; k; v] = value
    ∧ last_dim (shape q) + last_dim (shape k) + last_dim (shape v)
      = last_dim (shape value).
Proof.
  intros value key. eexists.
  assert (H1 : is_fused (new_name ∅ key) = true) by reflexivity.
  assert (H2 : wf value) by reflexivity.
  assert (H3 : shape value ≠ []) by discriminate.
  assert (H4 : write_model_step ∅ ∅ (key, value) = Ok _) by reflexivity.
  destruct (fused_split_loses_nothing ∅ ∅ key value _ H1 H2 H3 H4)
    as (q & k & v & q_key & k_key & v_key & H).
  exists q, k, v, q_key, k_key, v_key. by split.
Defined.

End LoopWitnesses.

(** * The loop over the experts, token by token *)

Section DispatchFacts.
Import Tensor TensorOps Moe Props MoeProps.
Local Open Scope R_scope.
Context `{ties : Moe.TopkTies}.

Lemma zip_with_Rplus_swap (u v b : list R) :
  zip_with Rplus u (zip_with Rplus v b) = zip_with Rplus v (zip_with Rplus u b).
Proof.
  revert v b; induction u as [|x u IH]; intros [|y v] [|z b]; simpl; try done.
  f_equal; [lra|apply IH].
Qed.

Lemma foldl_as_foldr {X Y} (g : X → Y → Y) (a : Y) (l : list X) :
  foldl (fun acc x => g x acc) a l = foldr g a (reverse l).
Proof.
  revert a; induction l as [|x l IH]; intros a; simpl; [done|].
  by rewrite IH, reverse_cons, foldr_snoc.
Qed.

(** Adding up vectors does not depend on their order. *)
Lemma vector_sum_perm {X} (c : X → list R) (z : list R) (l1 l2 : list X) :
  l1 ≡ₚ l2 →
  foldr (fun x acc => zip_with Rplus (c x) acc) z l1
  = foldr (fun x acc => zip_with Rplus (c x) acc) z l2.
Proof.
  intros Hp.
  apply (foldr_permutation_proper eq (fun x acc => zip_with Rplus (c x) acc) z);
    [|done].
  intros a1 a2 b. apply zip_with_Rplus_swap.
Qed.

Lemma concat_map_singleton {X Y} (g : X → Y) (l : list X) :
  concat (map (fun x => [g x]) l) = map g l.
Proof. induction l; simpl; congruence. Qed.

Lemma zip_maps {X Y Z} (f : X → Y) (g : X → Z) (l : list X) :
  zip (map f l) (map g l) = map (fun x => (f x, g x)) l.
Proof. induction l; simpl; congruence. Qed.

Lemma zip_with_maps {X Y Z W} (F : Y → Z → W) (f : X → Y) (g : X → Z) (l : list X) :
  zip_with F (map f l) (map g l) = map (fun x => F (f x) (g x)) l.
Proof. induction l; simpl; congruence. Qed.

(** [index_add_] seen from one row: the rows sent to it are added to it, one
    after the other. *)
Lemma fold_alter_lookup {X} (key : X → nat) (val : X → list R) (xs : list X)
    (rs : list (list R)) t old :
  rs !! t = Some old →
  fold_left (fun rs (ir : nat * list R) => alter (zip_with Rplus ir.2) ir.1 rs)
            (map (fun x => (key x, val x)) xs) rs !! t
  = Some (foldl (fun acc x => zip_with Rplus (val x) acc) old
                (filter (fun x => key x = t) xs)).
Proof.
  revert rs old; induction xs as [|x xs IH]; intros rs old Ht; [done|].
  cbn [map fold_left fst snd]. rewrite filter_cons.
  destruct (decide (key x = t)) as [->|Hne].
  - cbn [foldl]. apply IH. by rewrite list_lookup_alter_eq, Ht.
  - apply IH. by rewrite list_lookup_alter_ne.
Qed.

Lemma fold_alter_shape (ps : list (nat * list R)) (rs : list (list R)) n h :
  length rs = n → Forall (fun r => length r = h) rs →
  Forall (fun ir : nat * list R => length ir.2 = h) ps →
  length (fold_left (fun rs (ir : nat * list R) => alter (zip_with Rplus ir.2) ir.1 rs)
                    ps rs) = n
  ∧ Forall (fun r => length r = h)
      (fold_left (fun rs (ir : nat * list R) => alter (zip_with Rplus ir.2) ir.1 rs)
                 ps rs).
Proof.
  intros Hn Hr Hps. revert rs Hn Hr.
  induction Hps as [|[i r] ps Hir _ IH]; intros rs Hn Hr; simpl; [done|].
  apply IH.
  - by rewrite length_alter.
  - apply Forall_alter; [done|]. intros x _ Hx. simpl in *.
    rewrite length_zip_with. lia.
Qed.

Lemma index_add_0_rows (self source : tensor R) (index : list nat) n h p :
  matrix n h self → matrix p h source → length index = p →
  Forall (fun i => (i < n)%nat) index →
  ∃ y, index_add_0 self index source = Ok y ∧ matrix n h y
       ∧ rows y
         = fold_left (fun rs (ir : nat * list R) => alter (zip_with Rplus ir.2) ir.1 rs)
                     (zip index (rows source)) (rows self).
Proof.
  intros Hself Hsrc Hlen Hidx.
  destruct (Hself) as [Hs1 _], (Hsrc) as [Hs2 _].
  unfold index_add_0. rewrite Hs1, Hs2, Hlen, !Nat.eqb_refl.
  assert (forallb (fun i => (i <? n)%nat) index = true) as ->.
  { apply forallb_forall. intros i Hi%list_elem_of_In.
    rewrite Forall_forall in Hidx. apply Nat.ltb_lt. auto. }
  eexists; split; [done|]. cbn [andb].
  destruct (fold_alter_shape (zip index (rows source)) (rows self) n h)
    as [Hl Hf].
  - by apply (matrix_rows_length n h).
  - by apply (matrix_rows_row_length n h).
  - apply Forall_forall. intros [i r] Hin. simpl.
    apply elem_of_zip_r in Hin.
    pose proof (matrix_rows_row_length p h source Hsrc) as Hsr.
    rewrite Forall_forall in Hsr. auto.
  - split; [by apply of_rows_matrix | by apply rows_of_rows].
Qed.

Lemma filter_flat_map {X Y} (P : Y → Prop) `{∀ y, Decision (P y)}
    (f : X → list Y) (l : list X) :
  filter P (flat_map f l) = flat_map (fun x => filter P (f x)) l.
Proof. induction l as [|x l IH]; simpl; [done|]. by rewrite filter_app, IH. Qed.

(** The hits of an expert that belong to one token. *)
Lemma hits_of_token (c : nat → bool) (idx t a n : nat) :
  filter (fun it : nat * nat => it.2 = t)
         (flat_map (fun top_x => if c top_x then [(idx, top_x)] else []) (seq a n))
  = if bool_decide (a ≤ t < a + n)%nat && c t then [(idx, t)] else [].
Proof.
  revert a; induction n as [|n IH]; intros a; cbn [seq flat_map].
  - rewrite bool_decide_false by lia. done.
  - rewrite filter_app, IH.
    destruct (decide (a = t)) as [->|Hne].
    + rewrite (bool_decide_false (S t ≤ t < _)%nat) by lia.
      rewrite bool_decide_true by lia. cbn [andb]. rewrite app_nil_r.
      destruct (c t); [|done]. by rewrite filter_cons_True.
    + assert (filter (fun it : nat * nat => it.2 = t)
                     (if c a then [(idx, a)] else []) = []) as ->.
      { destruct (c a); [|done]. by rewrite filter_cons_False. }
      cbn [app]. destruct (decide (S a ≤ t < S a + n)%nat).
      * by rewrite !bool_decide_true by lia.
      * by rewrite !bool_decide_false by lia.
Qed.

Lemma where_expert_of_token (sel : tensor nat) e t n k :
  matrix n k sel → (t < n)%nat →
  filter (fun it : nat * nat => it.2 = t) (where_expert sel e)
  = map (fun j => (j, t)) (slots (nth t (rows sel) []) e).
Proof.
  intros Hm Ht. unfold where_expert, slots.
  rewrite (matrix_rows_length n k) by done.
  rewrite (last_dim_matrix n k) by apply Hm.
  assert (Hk : length (nth t (rows sel) []) = k).
  { by apply (nth_rows_length n k sel t). }
  rewrite Hk, filter_flat_map.
  induction (seq 0 k) as [|j js IH]; [done|].
  cbn [flat_map].
  rewrite (hits_of_token (fun top_x => nth j (nth top_x (rows sel) []) (S e) =? e)%nat).
  rewrite bool_decide_true by lia. cbn [andb]. rewrite IH, filter_cons.
  destruct (Nat.eqb_spec (nth j (nth t (rows sel) []) (S e)) e) as [Heq|Hne].
  - by rewrite decide_True.
  - by rewrite decide_False.
Qed.

(** One turn of the loop, seen from one token: for every slot in which the
    token selected the expert, the expert's output for the token, multiplied
    by the weight of the slot, is added to the token's row. *)
Lemma expert_step_rows self (hs w : tensor R) (sel : tensor nat)
    (final : tensor R) e m n h k :
  naive_experts self !! e = Some m → mlp_ok h m → (0 < h)%nat →
  matrix n h hs → matrix n k sel → matrix n h final →
  ∃ y, expert_step self hs w sel final e = Ok y ∧ matrix n h y
       ∧ ∀ t old, rows final !! t = Some old →
           rows y !! t
           = Some (foldl (fun acc j =>
                            zip_with Rplus
                              (map (fun v => v * nth j (row w t) 0)
                                   (mlp_row m (row hs t))) acc)
                         old (slots (nth t (rows sel) []) e)).
Proof.
  intros Hm Hok Hh Hhs Hsel Hfinal. unfold expert_step. rewrite Hm. rsimpl.
  set (hits := where_expert sel e).
  pose proof (where_expert_tokens sel e n k Hsel) as Htok. fold hits in Htok.
  rewrite (last_dim_matrix n h) by apply Hhs.
  set (p := length hits).
  assert (Hp : length (map snd hits) = p) by by rewrite length_map.
  rewrite Hp.
  assert (Hcur : Forall (fun r : list R => length r = h)
                   (map (row hs) (map snd hits))).
  { rewrite map_map. apply Forall_map. eapply Forall_impl; [done|].
    simpl. intros it Hit. by apply (nth_rows_length n h). }
  destruct (view_rows_3d (mk [1%nat; p; h] (concat (map (row hs) (map snd hits))))
              1 p h) as [-> Hcs]; [done| |done|].
  { unfold wf. simpl. rewrite (concat_length_rows _ h Hcur), !length_map.
    fold p. lia. }
  rsimpl. rewrite Nat.mul_1_l in *.
  assert (Hcr : rows (mk [p; h] (concat (map (row hs) (map snd hits))))
                = map (row hs) (map snd hits)).
  { apply (rows_of_rows p h); [by rewrite !length_map|done]. }
  destruct (mlp_forward_matrix m _ p h Hok Hcs) as (out & -> & Hout & Hor).
  rsimpl. cbn [data] in Hor. rewrite Hcr in Hor.
  assert (Hw : matrix p 1
            (of_rows p 1 (map (fun it : nat * nat => [nth it.1 (row w it.2) 0]) hits))).
  { apply of_rows_matrix; [by rewrite length_map|].
    apply Forall_map, Forall_forall. done. }
  destruct (binop_col_r_matrix Rmult out _ p h Hout Hw) as (cur & -> & Hcurm & Hcurr).
  rsimpl.
  destruct (index_add_0_rows final cur (map snd hits) n h p Hfinal Hcurm Hp)
    as (y & -> & Hy & Hyr).
  { apply Forall_map. by eapply Forall_impl. }
  exists y. split; [done|]. split; [done|]. intros t old Hold.
  rewrite Hyr, Hcurr, Hor. cbn [of_rows data].
  rewrite concat_map_singleton, !map_map.
  rewrite (zip_with_maps (fun r s => map (fun x => x * s) r)
             (fun it : nat * nat => mlp_row m (row hs it.2))
             (fun it : nat * nat => nth it.1 (row w it.2) 0) hits).
  rewrite <- (map_map snd (fun t0 => t0)), map_id.
  rewrite (zip_maps snd
             (fun it : nat * nat =>
                map (fun x => x * nth it.1 (row w it.2) 0) (mlp_row m (row hs it.2)))
             hits).
  rewrite (fold_alter_lookup snd _ hits _ t old Hold).
  assert (Ht : (t < n)%nat).
  { apply lookup_lt_Some in Hold. by rewrite (matrix_rows_length n h) in Hold. }
  fold hits. unfold hits.
  rewrite (where_expert_of_token sel e t n k Hsel Ht).
  by rewrite foldl_fmap.
Qed.

(** The whole loop, seen from one token. *)
Lemma expert_loop_rows self (hs w : tensor R) (sel : tensor nat)
    (final : tensor R) (expert_hit : list nat) n h k :
  Forall (mlp_ok h) (naive_experts self) →
  Forall (fun e => (e < length (naive_experts self))%nat) expert_hit →
  (0 < h)%nat → matrix n h hs → matrix n k sel → matrix n h final →
  ∃ y, expert_loop self hs w sel final expert_hit = Ok y ∧ matrix n h y
       ∧ ∀ t old, rows final !! t = Some old →
           rows y !! t
           = Some (foldl (fun acc (ej : nat * nat) =>
                            zip_with Rplus
                              (map (fun v => v * nth ej.2 (row w t) 0)
                                   (expert_row (naive_experts self) ej.1 (row hs t)))
                              acc)
                         old
                         (expert_hit ≫= fun e =>
                            pair e <$> slots (nth t (rows sel) []) e)).
Proof.
  intros Hex Hhit Hh Hhs Hsel. revert final.
  induction Hhit as [|e hit He _ IH]; intros final Hfinal; cbn [expert_loop].
  - exists final. split; [done|]. split; [done|]. by intros t old ->.
  - apply lookup_lt_is_Some_2 in He as [m Hm].
    assert (Hok : mlp_ok h m).
    { rewrite Forall_forall in Hex. apply Hex. by eapply list_elem_of_lookup_2. }
    destruct (expert_step_rows self hs w sel final e m n h k)
      as (y1 & -> & Hy1 & Hr1); [done..|].
    rsimpl. destruct (IH y1 Hy1) as (y & -> & Hy & Hr).
    exists y. split; [done|]. split; [done|]. intros t old Hold.
    rewrite (Hr t _ (Hr1 t old Hold)). f_equal.
    rewrite bind_cons, foldl_app, foldl_fmap. cbn [fst snd].
    assert (expert_row (naive_experts self) e (row hs t) = mlp_row m (row hs t))
      as -> by (unfold expert_row; by rewrite Hm).
    done.
Qed.

Lemma zip_as_seq {X Y} (a : list X) (b : list Y) (da : X) (db : Y) k :
  length a = k → length b = k →
  zip a b = map (fun j => (nth j a da, nth j b db)) (seq 0 k).
Proof.
  revert b k; induction a as [|x a IH]; intros [|y b] k Ha Hb;
    simplify_eq/=; [done|].
  f_equal. rewrite <- seq_shift, map_map. by apply IH.
Qed.

(** The slots of the experts that were hit, expert by expert, are the slots
    of the token, each once. *)
Lemma hit_slots_perm (selected : list nat) (hit : list nat) :
  NoDup hit → (∀ e, e ∈ selected → e ∈ hit) →
  (hit ≫= fun e => pair e <$> slots selected e)
  ≡ₚ map (fun j => (nth j selected 0%nat, j)) (seq 0 (length selected)).
Proof.
  intros Hnd Hin. apply NoDup_Permutation.
  - apply NoDup_bind; [| |done].
    + intros e1 e2 [e j] _ _ H1 H2.
      apply list_elem_of_fmap in H1 as (j1 & [= -> ->] & _).
      by apply list_elem_of_fmap in H2 as (j2 & [= -> ->] & _).
    + intros e _. apply (NoDup_fmap_2 _).
      apply NoDup_filter, NoDup_seq.
  - apply NoDup_fmap_2_strong; [|apply NoDup_seq].
    by intros j1 j2 _ _ [= _ ->].
  - intros [e j]. rewrite list_elem_of_bind. split.
    + intros (e' & (j' & [= -> ->] & Hj)%list_elem_of_fmap & He).
      apply list_elem_of_filter in Hj as [Hj Hseq].
      apply list_elem_of_fmap. exists j'. split; [|done].
      apply elem_of_seq in Hseq. f_equal. rewrite <- Hj at 1.
      apply nth_indep. lia.
    + intros (j' & [= -> ->] & Hseq)%list_elem_of_fmap.
      pose proof Hseq as Hlt. apply elem_of_seq in Hlt.
      exists (nth j' selected 0%nat). split.
      * apply list_elem_of_fmap. exists j'. split; [done|].
        apply list_elem_of_filter. split; [|done]. apply nth_indep. lia.
      * apply Hin, list_elem_of_In, nth_In. lia.
Qed.

End DispatchFacts.

Section DispatchProperties.
Import Tensor TensorOps Moe Props MoeProps.
Local Open Scope R_scope.
Context `{ties : Moe.TopkTies}.

(** The result of the loop over the experts, row by row. *)
Lemma naive_forward_rows config self (hs logits : tensor R) n :
  naive_built config self → config_ok config →
  matrix n (hidden_size config) hs → matrix n (num_experts config) logits →
  ∃ y, Qwen2MoeNaiveMoe_forward self hs logits = Ok y
       ∧ matrix n (hidden_size config) y
       ∧ ∀ t x l, rows hs !! t = Some x → rows logits !! t = Some l →
           rows y !! t
           = Some (mixture (naive_experts self) (hidden_size config) x
                     (map fst (selected_row (num_experts_per_tok config) l))
                     (weights_row (num_experts_per_tok config)
                                  (norm_topk_prob config) l)).
Proof.
  intros (Hk & He & Hnorm & Hlen & Hex) (Hh & Hk0 & Hke) Hhs Hl.
  unfold Qwen2MoeNaiveMoe_forward.
  destruct (routing_rows self logits n (num_experts config) Hl)
    as (w & sel & -> & Hw & Hsel & Hwr & Hselr); [lia|].
  rsimpl. rewrite Hk, Hnorm in *.
  set (k := num_experts_per_tok config) in *.
  set (h := hidden_size config) in *.
  assert (Hbnd : ∀ e, e ∈ data sel → (e < naive_num_experts self)%nat).
  { intros e Hin%list_elem_of_In.
    rewrite <- (matrix_rows_concat _ _ sel Hsel), Hselr in Hin.
    apply in_concat in Hin as (r & Hr & Hin).
    apply in_map_iff in Hr as (l & <- & Hl'%list_elem_of_In).
    apply list_elem_of_In, selected_row_index_bound in Hin.
    pose proof (matrix_rows_row_length _ _ logits Hl) as Hf.
    rewrite Forall_forall in Hf. rewrite (Hf l Hl') in Hin. lia. }
  assert (Hbound : forallb (fun e => (e <? naive_num_experts self)%nat) (data sel)
                   = true).
  { apply forallb_forall. intros e Hin%list_elem_of_In. apply Nat.ltb_lt. auto. }
  rewrite Hbound. simpl negb. cbv iota.
  set (hit := filter (fun e => e ∈ data sel) (seq 0 (naive_num_experts self))).
  destruct (tmap_matrix (fun _ : R => 0) n h hs Hhs) as [Hz Hzr].
  destruct (expert_loop_rows self hs w sel (tmap (fun _ => 0) hs) hit n h k)
    as (y & -> & Hy & Hr); try done.
  { apply Forall_forall. intros e [_ Hin%elem_of_seq]%list_elem_of_filter. lia. }
  exists y. split; [done|]. split; [done|]. intros t x l Hx Hlt.
  assert (Hxl : length x = h).
  { pose proof (matrix_rows_row_length n h hs Hhs) as Hf.
    rewrite Forall_forall in Hf. apply Hf. by eapply list_elem_of_lookup_2. }
  assert (Hll : length l = num_experts config).
  { pose proof (matrix_rows_row_length _ _ logits Hl) as Hf.
    rewrite Forall_forall in Hf. apply Hf. by eapply list_elem_of_lookup_2. }
  assert (Hold : rows (tmap (fun _ : R => 0) hs) !! t = Some (repeat 0 h)).
  { rewrite Hzr, list_lookup_fmap, Hx. simpl. f_equal.
    rewrite <- Hxl. clear. induction x; simpl; congruence. }
  rewrite (Hr t _ Hold). f_equal.
  assert (Hrw : row w t = weights_row k (norm_topk_prob config) l).
  { unfold row. apply nth_lookup_Some with (d := []).
    by rewrite Hwr, list_lookup_fmap, Hlt. }
  assert (Hrs : nth t (rows sel) [] = map fst (selected_row k l)).
  { apply nth_lookup_Some with (d := []).
    by rewrite Hselr, list_lookup_fmap, Hlt. }
  assert (Hrh : row hs t = x) by (unfold row; by apply nth_lookup_Some).
  rewrite Hrw, Hrs, Hrh.
  set (st := map fst (selected_row k l)).
  set (wt := weights_row k (norm_topk_prob config) l).
  assert (Hst : length st = k).
  { unfold st. rewrite length_map. apply selected_row_length. lia. }
  assert (Hwt : length wt = k) by (apply weights_row_length; lia).
  rewrite (foldl_as_foldr
             (fun (ej : nat * nat) acc =>
                zip_with Rplus
                  (map (fun v => v * nth ej.2 wt 0)
                       (expert_row (naive_experts self) ej.1 x)) acc)).
  rewrite (vector_sum_perm _ _ _ _ (reverse_Permutation _)).
  assert (Hperm : (hit ≫= fun e => pair e <$> slots st e)
                  ≡ₚ map (fun j => (nth j st 0%nat, j)) (seq 0 (length st))).
  { apply hit_slots_perm; [apply NoDup_filter, NoDup_seq|].
    intros e Hin. apply list_elem_of_filter.
    assert (He' : e ∈ data sel).
    { rewrite <- (matrix_rows_concat _ _ sel Hsel).
      apply list_elem_of_In, in_concat. exists st. split.
      - apply list_elem_of_In. apply list_elem_of_lookup. exists t.
        by rewrite Hselr, list_lookup_fmap, Hlt.
      - by apply list_elem_of_In. }
    split; [done|]. apply elem_of_seq. specialize (Hbnd e He'). lia. }
  rewrite (vector_sum_perm _ _ _ _ Hperm).
  unfold mixture. rewrite (zip_as_seq st wt 0%nat 0 k Hst Hwt), Hst.
  by rewrite !foldr_fmap.
Qed.

(** What the loop over the experts computes: the row of a token in the result
    is the mixture of the experts the token selected, each expert's output
    for the token multiplied by the token's weight for it.  Tokens do not
    mix, and an expert no token selected is never run.  The experts selected
    are those [torch.topk] returns on line 91, whichever it returns among
    equal elements. *)
Theorem naive_moe_is_mixture config self (hs logits : tensor R) n :
  naive_built config self → config_ok config →
  matrix n (hidden_size config) hs → matrix n (num_experts config) logits →
  ∃ y, Qwen2MoeNaiveMoe_forward self hs logits = Ok y
       ∧ matrix n (hidden_size config) y
       ∧ ∀ t x l, rows hs !! t = Some x → rows logits !! t = Some l →
           rows y !! t
           = Some (mixture (naive_experts self) (hidden_size config) x
                     (map fst (selected_row (num_experts_per_tok config) l))
                     (weights_row (num_experts_per_tok config)
                                  (norm_topk_prob config) l)).
Proof. apply naive_forward_rows. Qed.

Lemma small_config_ok : config_ok small_config.
Proof. unfold config_ok. simpl. lia. Qed.

Lemma small_moe_built : naive_built small_config small_moe.
Proof.
  repeat split.
  repeat constructor; simpl; intros r Hr; by rewrite length_map.
Qed.


End DispatchProperties.

Section DispatchWitnesses.
Import Tensor TensorOps Moe Props MoeProps.
Local Open Scope R_scope.
#[local] Existing Instance lower_index_first.

Lemma naive_moe_is_mixture_witness :
  let hs := Tensor.mk [2%nat; 2%nat] [1; 2; 3; 4] in
  let logits := Tensor.mk [2%nat; 3%nat] [0; 1; 2; 2; 1; 0] in
  ∃ y, Qwen2MoeNaiveMoe_forward small_moe hs logits = Ok y
       ∧ matrix 2 2 y
       ∧ ∀ t x l, rows hs !! t = Some x → rows logits !! t = Some l →
           rows y !! t
           = Some (mixture (naive_experts small_moe) 2 x
                     (map fst (selected_row 2 l)) (weights_row 2 true l)).
Proof.
  intros hs logits.
  apply (naive_moe_is_mixture small_config small_moe hs logits 2).
  - apply small_moe_built.
  - apply small_config_ok.
  - split; reflexivity.
  - split; reflexivity.
Defined.

End DispatchWitnesses.

(** * More on the routing *)

Section RoutingMoreProperties.
Import Tensor TensorOps Moe Props MoeProps.
Local Open Scope R_scope.
Context `{ties : Moe.TopkTies}.

(** Each token is routed to [top_k] distinct experts of the module, and
    gets one weight for each.  Without [norm_topk_prob] the weights are left
    as the softmax over all the experts gave them: the weight in a slot is
    [exp x / sum of exp] for the logit [x] of the expert in that slot. *)
Theorem routing_without_normalization (self : Qwen2MoeNaiveMoe)
    (routing_weights : tensor R) (n e : nat) :
  matrix n e routing_weights →
  (0 < naive_top_k self ≤ e)%nat →
  ∃ w sel,
    Qwen2MoeNaiveMoe_routing self routing_weights = Ok (w, sel)
    ∧ ∀ t logits weights selected,
        rows routing_weights !! t = Some logits →
        rows w !! t = Some weights → rows sel !! t = Some selected →
        NoDup selected
        ∧ Forall (fun i => (i < e)%nat) selected
        ∧ length selected = naive_top_k self
        ∧ length weights = naive_top_k self
        ∧ (naive_norm_topk_prob self = false →
           ∀ j i, selected !! j = Some i →
             ∃ x, logits !! i = Some x
                  ∧ weights !! j = Some (exp x / sum_R (map exp logits))).
Proof.
  intros Hm [Hk0 Hk].
  destruct (routing_rows self routing_weights n e Hm Hk)
    as (w & sel & Hr & _ & _ & Hwr & Hsr).
  exists w, sel. split; [done|]. intros t l weights selected Hl Hw Hs.
  rewrite Hwr, list_lookup_fmap, Hl in Hw.
  rewrite Hsr, list_lookup_fmap, Hl in Hs.
  injection Hw as <-. injection Hs as <-.
  assert (Hlen : length l = e).
  { pose proof (matrix_rows_row_length n e routing_weights Hm) as Hf.
    rewrite Forall_forall in Hf. apply Hf. by eapply list_elem_of_lookup_2. }
  split; [apply topk_row_NoDup|]. split.
  { apply Forall_forall. intros i Hi.
    apply selected_row_index_bound in Hi. lia. }
  split; [by rewrite length_map, selected_row_length by lia|].
  split; [apply weights_row_length; lia|].
  intros -> j i Hj. unfold weights_row.
  rewrite list_lookup_fmap in Hj. rewrite list_lookup_fmap.
  destruct (selected_row (naive_top_k self) l !! j) as [[i' v]|] eqn:Ej;
    simplify_eq/=.
  apply list_elem_of_lookup_2, topk_row_lookup in Ej.
  unfold softmax_row in Ej. rewrite list_lookup_fmap in Ej.
  destruct (l !! i) as [x|]; simplify_eq/=. by exists x.
Qed.

End RoutingMoreProperties.

Section RoutingMoreWitnesses.
Import Tensor TensorOps Moe Props MoeProps.
Local Open Scope R_scope.
#[local] Existing Instance lower_index_first.

Lemma routing_without_normalization_witness :
  let self := {| naive_top_k := 1; naive_num_experts := 2;
                 naive_norm_topk_prob := false; naive_experts := [] |} in
  let routing_weights := Tensor.mk [1%nat; 2%nat] [0; 1] in
  ∃ w sel,
    Qwen2MoeNaiveMoe_routing self routing_weights = Ok (w, sel)
    ∧ ∀ t logits weights selected,
        rows routing_weights !! t = Some logits →
        rows w !! t = Some weights → rows sel !! t = Some selected →
        NoDup selected
        ∧ Forall (fun i => (i < 2)%nat) selected
        ∧ length selected = 1%nat
        ∧ length weights = 1%nat
        ∧ (false = false →
           ∀ j i, selected !! j = Some i →
             ∃ x, logits !! i = Some x
                  ∧ weights !! j = Some (exp x / sum_R (map exp logits))).
Proof.
  intros self routing_weights.
  apply (routing_without_normalization self routing_weights 1 2).
  - split; reflexivity.
  - simpl. lia.
Defined.

End RoutingMoreWitnesses.

(** * More on the two blocks *)

Section BlockProperties.
Import Tensor TensorOps Moe Props MoeProps.
Local Open Scope R_scope.
Context `{ties : Moe.TopkTies}.

Lemma sigmoid_pos (x : R) : 0 < sigmoid x.
Proof.
  unfold sigmoid. pose proof (exp_pos (- x)).
  apply Rdiv_lt_0_compat; lra.
Qed.

Lemma sigmoid_below_1 (x : R) : sigmoid x < 1.
Proof.
  unfold sigmoid. pose proof (exp_pos (- x)) as He.
  apply (Rmult_lt_reg_r (1 + exp (- x))); [lra|].
  unfold Rdiv. rewrite Rmult_assoc, Rinv_l by lra. lra.
Qed.

(** [Qwen2MoeSparseMoeBlock.forward] reshapes the routed output to
    [(B, S, H)] before it adds the shared output, which still has the shape
    [(B * S, H)]: on a batch of two sequences or more the addition cannot
    broadcast, and [forward] raises instead of returning. *)
Theorem qwen_block_rejects_batches config self (x : tensor R) b s :
  block_built config self → config_ok config →
  shape x = [b; s; hidden_size config] → wf x →
  (2 ≤ b)%nat → (1 ≤ s)%nat →
  Qwen2MoeSparseMoeBlock_forward self x = Raise RuntimeError.
Proof. apply qwen_block_batch_raises. Qed.


(** The scores of [OpenaiMLP] are sparse: for every token there are [top_k]
    distinct experts outside of which every score is exactly [0], the
    sigmoid of [-inf]; the score of an expert among them is the sigmoid of
    its own logit, and every score lies between [0] and [1]. *)
Theorem openai_scores_are_sparse self (hidden_states : tensor R) m :
  openai_built self → matrix m (oa_hidden_dim self) hidden_states →
  ∃ scores,
    OpenaiMLP_router_scores self hidden_states = Ok (hidden_states, scores)
    ∧ ∀ t h, rows hidden_states !! t = Some h →
        ∃ selected,
          NoDup selected ∧ length selected = oa_top_k self
          ∧ Forall (fun e => (e < oa_num_experts self)%nat) selected
          ∧ ∀ e, (e < oa_num_experts self)%nat →
              ∃ sc, rows scores !! e ≫= (fun r => r !! t) = Some sc
                    ∧ 0 <= sc <= 1
                    ∧ (e ∉ selected → sc = 0)
                    ∧ (e ∈ selected →
                       ∃ r, rows (oa_router self) !! e = Some r
                            ∧ sc = 1 / (1 + exp (- dot h r))).
Proof.
  intros Hb Hhs. pose proof Hb as (Hrouter & Hh & Hk0 & Hk).
  destruct (openai_router_scores_spec self hidden_states hidden_states m Hb)
    as (scores & Hsc & Hscm & Hscr); [by eapply view_rows_matrix|done|].
  exists scores. split; [done|]. intros t h Ht.
  set (logits := map (dot h) (rows (oa_router self))).
  assert (Hll : length logits = oa_num_experts self).
  { unfold logits. by rewrite length_map, (matrix_rows_length _ _ _ Hrouter). }
  exists (map fst (topk_row (oa_top_k self) logits)).
  split; [apply topk_row_NoDup|]. split.
  { rewrite length_map. apply topk_row_length. by rewrite Hll. }
  split.
  { apply Forall_forall. intros e He.
    apply list_elem_of_fmap in He as ([i v] & -> & Hin). simpl.
    apply topk_row_lookup, lookup_lt_Some in Hin. by rewrite <- Hll. }
  intros e He. eexists. split.
  { rewrite Hscr, list_lookup_fmap, lookup_seq_lt by done. simpl.
    by rewrite list_lookup_fmap, Ht. }
  fold logits. unfold openai_score.
  destruct (decide (e ∈ map fst (topk_row (oa_top_k self) logits))) as [Hin|Hout];
    simpl.
  - pose proof (sigmoid_pos (nth e logits 0)).
    pose proof (sigmoid_below_1 (nth e logits 0)).
    split; [lra|]. split; [done|]. intros _.
    destruct (rows (oa_router self) !! e) as [r|] eqn:Er.
    + exists r. split; [done|]. unfold sigmoid. do 4 f_equal.
      unfold logits. apply nth_lookup_Some with (d := 0).
      by rewrite list_lookup_fmap, Er.
    + apply lookup_ge_None in Er.
      rewrite (matrix_rows_length _ _ _ Hrouter) in Er. lia.
  - split; [lra|]. split; [done|]. by intros ?.
Qed.


(** [OpenaiMLP.__init__] never sets [shared_expert], which [forward] reads:
    [forward] of the module as it is built raises for every input, and on an
    input of the right shape it gets as far as the experts, runs them, and
    raises [AttributeError] on the line that reads the attribute. *)
Theorem openai_forward_never_returns config (experts : module)
    (router_weight x : tensor R) b s :
  let self := OpenaiMLP_init config experts router_weight in
  (∃ e, OpenaiMLP_forward self x = Raise e)
  ∧ (openai_built self →
     shape x = [b; s; oa_hidden_size config] → wf x →
     module_ok (oa_num_local_experts config * (b * s)) (oa_hidden_size config)
               experts →
     OpenaiMLP_forward self x = Raise AttributeError).
Proof.
  intros self. split; [by apply openai_forward_unset|].
  intros Hb Hs Hw Hexp. pose proof Hb as (_ & Hh & _).
  change (oa_hidden_dim self) with (oa_hidden_size config) in *.
  destruct (view_rows_3d x b s _ Hs Hw Hh) as [Hv Hm].
  destruct (openai_router_scores_spec self x _ (b * s) Hb Hv Hm)
    as (scores & Hsc & Hscm & _).
  destruct (repeat_rows_matrix _ (oa_num_experts self) (b * s) _ Hm)
    as (rin & Hrin_eq & Hrin).
  destruct (view_col scores _ _ Hscm) as [Hcol_eq Hcol].
  destruct (binop_col_r_matrix Rmult rin _ _ _ Hrin Hcol)
    as (rin' & Hrin'_eq & Hrin' & _).
  destruct (Hexp rin' Hrin') as (rout & Hrout_eq & Hrout).
  unfold OpenaiMLP_forward. rewrite Hsc. rsimpl.
  rewrite Hrin_eq. rsimpl. rewrite Hcol_eq. rsimpl. rewrite Hrin'_eq. rsimpl.
  change (oa_experts self) with experts. rewrite Hrout_eq. by rsimpl.
Qed.


End BlockProperties.

Section BlockWitnesses.
Import Tensor TensorOps Moe Props MoeProps.
Local Open Scope R_scope.
#[local] Existing Instance lower_index_first.

Lemma qwen_block_rejects_batches_witness :
  Qwen2MoeSparseMoeBlock_forward tiny_block
    (Tensor.mk [3%nat; 2%nat; 1%nat] [1; 2; 3; 4; 5; 6])
  = Raise RuntimeError.
Proof.
  apply (qwen_block_rejects_batches tiny_config tiny_block _ 3 2).
  - apply tiny_block_built.
  - apply tiny_config_ok.
  - reflexivity.
  - reflexivity.
  - lia.
  - lia.
Defined.

Lemma openai_scores_are_sparse_witness :
  let self := {| oa_top_k := 1; oa_hidden_dim := 1; oa_num_experts := 2;
                 oa_experts := fun x => Ok x;
                 oa_router := Tensor.mk [2%nat; 1%nat] [1; 2];
                 oa_shared_expert := None |} in
  let hidden_states := Tensor.mk [2%nat; 1%nat] [1; -1] in
  ∃ scores,
    OpenaiMLP_router_scores self hidden_states = Ok (hidden_states, scores)
    ∧ ∀ t h, rows hidden_states !! t = Some h →
        ∃ selected,
          NoDup selected ∧ length selected = 1%nat
          ∧ Forall (fun e => (e < 2)%nat) selected
          ∧ ∀ e, (e < 2)%nat →
              ∃ sc, rows scores !! e ≫= (fun r => r !! t) = Some sc
                    ∧ 0 <= sc <= 1
                    ∧ (e ∉ selected → sc = 0)
                    ∧ (e ∈ selected →
                       ∃ r, rows (oa_router self) !! e = Some r
                            ∧ sc = 1 / (1 + exp (- dot h r))).
Proof.
  intros self hidden_states.
  apply (openai_scores_are_sparse self hidden_states 2).
  - split; [split; reflexivity|]. simpl. lia.
  - split; reflexivity.
Defined.

Lemma openai_forward_never_returns_witness :
  let y := Tensor.mk [1%nat; 2%nat; 1%nat] [1; 2] in
  OpenaiMLP_forward tiny_openai_as_built y = Raise AttributeError.
Proof.
  intros y.
  apply (openai_forward_never_returns
           {| oa_hidden_size := 1; oa_num_local_experts := 1;
              oa_num_experts_per_tok := 1 |}
           (oa_experts tiny_openai) (oa_router tiny_openai) y 1 2).
  - apply tiny_openai_built.
  - reflexivity.
  - reflexivity.
  - apply tiny_openai_experts_ok.
Defined.

End BlockWitnesses.

(** * The rest of the conversion script *)

Section ScriptProperties.
Import Script.
Local Open Scope Z_scope.

(** [compute_intermediate_size] rounds up to a multiple: with a positive
    [multiple_of], what it returns is the least multiple of [multiple_of]
    that is not below the scaled size of its first two lines; with
    [multiple_of = 0] it does not return. *)
Theorem intermediate_size_is_rounded_up (hidden_dim multiple_of : Z)
    (ffn_dim_multiplier : float) (r : Z) :
  compute_intermediate_size hidden_dim multiple_of ffn_dim_multiplier = Returns r →
  multiple_of ≠ 0
  ∧ ∃ scaled,
      scaled_hidden_dim hidden_dim ffn_dim_multiplier = Returns scaled
      ∧ (multiple_of | r)
      ∧ (0 < multiple_of → scaled ≤ r < scaled + multiple_of).
Proof.
  unfold compute_intermediate_size.
  destruct (scaled_hidden_dim hidden_dim ffn_dim_multiplier) as [y|e]; [|done].
  cbn [and_then]. destruct (Z.eqb_spec multiple_of 0) as [|Hm]; [done|].
  intros [= <-]. split; [done|]. exists y. split; [done|]. split.
  - by apply Z.divide_factor_l.
  - intros Hpos.
    pose proof (Z.div_mod (y + multiple_of - 1) multiple_of Hm) as Hdm.
    pose proof (Z.mod_pos_bound (y + multiple_of - 1) multiple_of Hpos). lia.
Qed.

Lemma intermediate_size_is_rounded_up_witness :
  compute_intermediate_size 4096 1024 default_ffn_dim_multiplier = Returns 14336
  ∧ 1024 ≠ 0
  ∧ ∃ scaled,
      scaled_hidden_dim 4096 default_ffn_dim_multiplier = Returns scaled
      ∧ (1024 | 14336)
      ∧ (0 < 1024 → scaled ≤ 14336 < scaled + 1024).
Proof.
  assert (H : compute_intermediate_size 4096 1024 default_ffn_dim_multiplier
              = Returns 14336) by (vm_compute; reflexivity).
  split; [exact H|].
  exact (intermediate_size_is_rounded_up 4096 1024 default_ffn_dim_multiplier 14336 H).
Defined.

End ScriptProperties.

Section TokenFacts.
Import Script.

Lemma list_ascii_of_string_app (a b : string) :
  list_ascii_of_string (a +:+ b)
  = list_ascii_of_string a ++ list_ascii_of_string b.
Proof. induction a as [|c a IH]; simpl; [done|]. by rewrite IH. Qed.

Lemma string_app_inj_r (a b c : string) : a +:+ c = b +:+ c → a = b.
Proof.
  intros H%(f_equal list_ascii_of_string).
  rewrite !list_ascii_of_string_app in H. apply app_inv_tail in H.
  apply (f_equal string_of_list_ascii) in H.
  by rewrite !string_of_list_ascii_of_string in H.
Qed.

Lemma reserved_special_token_inj i j :
  reserved_special_token i = reserved_special_token j → i = j.
Proof.
  unfold reserved_special_token. intros H.
  apply (inj (String.app _)) in H. apply string_app_inj_r in H.
  apply (inj pretty) in H. lia.
Qed.

Lemma reserved_not_named i : reserved_special_token i ∉ named_special_tokens.
Proof.
  intros Hin. unfold named_special_tokens in Hin.
  repeat (apply elem_of_cons in Hin as [Heq|Hin];
          [try (by vm_compute in Heq)|]).
  - change "<|reserved_special_token_0|>"%string
      with (("<|reserved_special_token_" +:+ pretty 0%nat +:+ "|>")%string) in Heq.
    unfold reserved_special_token in Heq.
    apply (inj (String.app _)), string_app_inj_r, (inj pretty) in Heq. lia.
  - change "<|reserved_special_token_1|>"%string
      with (("<|reserved_special_token_" +:+ pretty 1%nat +:+ "|>")%string) in Heq.
    unfold reserved_special_token in Heq.
    apply (inj (String.app _)), string_app_inj_r, (inj pretty) in Heq. lia.
  - by apply elem_of_nil in Hin.
Qed.

End TokenFacts.

Section TokenProperties.
Import Script.

(** The special tokens that [write_tokenizer] hands to the converter are
    pairwise different, whatever the number of reserved tokens: the numbered
    reserved tokens start at [2], after the two that are named in the list.
    There is one more of them than [num_reserved_special_tokens] (never fewer
    than the eleven named ones and [<|image|>]), [<|image|>] is the last one,
    and the tokens passed as [bos_token], [eos_token] and [pad_token] are
    among them.  With the [256] of the script that is [257] tokens, the last
    at position [256]. *)
Theorem special_tokens_are_distinct (num_reserved_special_tokens : nat) :
  let tokens := special_tokens_of num_reserved_special_tokens in
  NoDup tokens
  ∧ length tokens = S (Nat.max num_reserved_special_tokens 11)
  ∧ last tokens = Some "<|image|>"%string
  ∧ (∀ instruct,
       bos_token ∈ tokens ∧ eos_token instruct ∈ tokens ∧ pad_token ∈ tokens)
  ∧ length special_tokens = 257
  ∧ special_tokens !! 256 = Some "<|image|>"%string.
Proof.
  intros tokens. unfold tokens, special_tokens_of.
  set (n := num_reserved_special_tokens - length named_special_tokens).
  split; [|split; [|split; [|split; [|split]]]].
  - apply NoDup_app. split; [|split].
    + apply NoDup_app. split; [|split].
      * apply (bool_decide_unpack _). by vm_compute.
      * intros x Hx (i & -> & _)%list_elem_of_fmap.
        by apply (reserved_not_named i).
      * apply NoDup_fmap_2_strong; [|apply NoDup_seq].
        intros i j _ _. apply reserved_special_token_inj.
    + intros x Hx ->%list_elem_of_singleton.
      apply elem_of_app in Hx as [Hx|(i & Heq & _)%list_elem_of_fmap].
      * revert Hx. apply (bool_decide_unpack _). by vm_compute.
      * by vm_compute in Heq.
    + apply NoDup_singleton.
  - rewrite !length_app, length_map, length_seq. unfold n. simpl. lia.
  - by rewrite last_snoc.
  - intros instruct. rewrite !elem_of_app.
    split; [|split]; left; left.
    + by left.
    + destruct instruct; simpl; unfold named_special_tokens;
        rewrite !elem_of_cons; tauto.
    + unfold pad_token, named_special_tokens. rewrite !elem_of_cons. tauto.
  - by vm_compute.
  - by vm_compute.
Qed.

End TokenProperties.

(** * Which decoder layers take the sparse branch *)

Section LayerChoice.
Import Script Layers.

Lemma div_succ (a s : Z) :
  (0 ≤ a)%Z → (0 < s)%Z →
  ((a + 1) / s = a / s + if decide ((a + 1) `mod` s = 0) then 1 else 0)%Z.
Proof.
  intros Ha Hs.
  pose proof (Z.div_mod (a + 1) s ltac:(lia)) as Hdm.
  pose proof (Z.mod_pos_bound (a + 1) s Hs) as Hb.
  destruct (decide _) as [Hz|Hnz].
  - assert ((a + 1) / s - 1 = a / s)%Z; [|lia].
    apply (Z.div_unique_pos a s _ (s - 1)); lia.
  - symmetry. rewrite Z.add_0_r.
    symmetry. apply (Z.div_unique_pos a s _ ((a + 1) `mod` s - 1)); lia.
Qed.

(** Among the first [n] layers, those whose position, counted from one, is a
    multiple of the step. *)
Lemma count_multiples (s : Z) (n : nat) :
  (0 < s)%Z →
  Z.of_nat (length (filter (fun i => ((Z.of_nat i + 1) `mod` s = 0)%Z) (seq 0 n)))
  = (Z.of_nat n / s)%Z.
Proof.
  intros Hs. induction n as [|n IH]; [done|].
  rewrite seq_S, filter_app, length_app, Nat2Z.inj_add, IH.
  rewrite Nat2Z.inj_succ, <- Z.add_1_r, (div_succ (Z.of_nat n) s) by lia.
  f_equal. cbn [Nat.add]. rewrite filter_cons, filter_nil.
  by destruct (decide _).
Qed.

(** [%] gives zero for the multiples of the step, whatever its sign. *)
Lemma mod_zero_divide (a s : Z) :
  s ≠ 0%Z → (a `mod` s = 0 ↔ (s | a))%Z.
Proof. intros Hs. by apply Z.mod_divide. Qed.

Lemma mod_zero_abs (a s : Z) :
  s ≠ 0%Z → (a `mod` s = 0 ↔ a `mod` Z.abs s = 0)%Z.
Proof.
  intros Hs. rewrite !mod_zero_divide by lia. by rewrite Z.divide_abs_l.
Qed.

Lemma is_sparse_value config (layer_idx : nat) :
  (num_experts config > 0)%Z → decoder_sparse_step config ≠ 0%Z →
  ∃ b, Qwen2MoeDecoderLayer_is_sparse config layer_idx = Returns b
       ∧ (b = true
          ↔ (Z.of_nat layer_idx ∉ mlp_only_layers config)
            ∧ (decoder_sparse_step config | Z.of_nat layer_idx + 1)%Z).
Proof.
  intros Hexp Hstep. unfold Qwen2MoeDecoderLayer_is_sparse.
  rewrite (bool_decide_true (num_experts config > 0)%Z) by done.
  rewrite (bool_decide_false (decoder_sparse_step config = 0)%Z) by done.
  pose proof (mod_zero_divide (Z.of_nat layer_idx + 1) _ Hstep) as Hd.
  case_bool_decide as Hin; eexists; (split; [done|]).
  - rewrite bool_decide_eq_true. naive_solver.
  - naive_solver.
Qed.

End LayerChoice.

Section LayerChoiceProperties.
Import Script Layers.

(** With experts and a [decoder_sparse_step] other than zero, the test of
    line 150 returns, and holds for a layer exactly when the layer is not
    listed in [mlp_only_layers] and its position, counted from one, is a
    multiple of the step.  When no layer is listed, the test holds for
    [n // abs(step)] of the [n] layer indices [0] to [n - 1]. *)
Theorem sparse_layers_every_step config :
  (num_experts config > 0)%Z → decoder_sparse_step config ≠ 0%Z →
  (∀ layer_idx,
     ∃ b, Qwen2MoeDecoderLayer_is_sparse config layer_idx = Returns b
          ∧ (b = true
             ↔ (Z.of_nat layer_idx ∉ mlp_only_layers config)
               ∧ (decoder_sparse_step config | Z.of_nat layer_idx + 1)%Z))
  ∧ (mlp_only_layers config = [] →
     ∀ n, Z.of_nat (length (sparse_indices config n))
          = (Z.of_nat n / Z.abs (decoder_sparse_step config))%Z).
Proof.
  intros Hexp Hstep. split; [intros i; by apply is_sparse_value|].
  intros Hnone n.
  rewrite <- (count_multiples (Z.abs (decoder_sparse_step config)) n) by lia.
  f_equal. unfold sparse_indices.
  generalize (seq 0 n). intros l.
  induction l as [|i l IH]; [done|].
  rewrite !filter_cons.
  destruct (is_sparse_value config i Hexp Hstep) as (b & -> & Hb).
  pose proof (mod_zero_divide (Z.of_nat i + 1) _ Hstep) as Hd.
  pose proof (mod_zero_abs (Z.of_nat i + 1) _ Hstep) as Ha.
  rewrite Hnone in Hb.
  destruct (decide (Returns b = Returns true)) as [Hr|Hr];
    destruct (decide (_ `mod` _ = 0)%Z) as [Hm|Hm]; cbn [length];
    rewrite ?IH; try done; exfalso.
  - injection Hr as ->. destruct Hb as [Hb _].
    destruct (Hb eq_refl) as [_ Hdiv]. by apply Hm, Ha, Hd.
  - apply Hr. f_equal. apply Hb.
    split; [apply not_elem_of_nil|]. by apply Hd, Ha.
Qed.

Lemma sparse_layers_every_step_witness :
  let config := {| mlp_only_layers := []; num_experts := 60;
                   decoder_sparse_step := 2 |} in
  sparse_indices config 5 = [1; 3]
  ∧ (∀ layer_idx,
       ∃ b, Qwen2MoeDecoderLayer_is_sparse config layer_idx = Returns b
            ∧ (b = true
               ↔ (Z.of_nat layer_idx ∉ mlp_only_layers config)
                 ∧ (2 | Z.of_nat layer_idx + 1)%Z))
  ∧ (mlp_only_layers config = [] →
     ∀ n, Z.of_nat (length (sparse_indices config n)) = (Z.of_nat n / Z.abs 2)%Z).
Proof.
  intros config. split; [reflexivity|].
  apply (sparse_layers_every_step config); [reflexivity|discriminate].
Defined.

(** The test of line 150 raises, with [ZeroDivisionError], exactly when
    [decoder_sparse_step] is zero, there are experts and the layer is not
    listed in [mlp_only_layers]: for a listed layer, or without experts, the
    remainder is not computed and the test is false. *)
Theorem sparse_step_zero_raises config (layer_idx : nat) :
  ((∃ e, Qwen2MoeDecoderLayer_is_sparse config layer_idx = Fails e)
   ↔ (Z.of_nat layer_idx ∉ mlp_only_layers config)
     ∧ (num_experts config > 0)%Z ∧ decoder_sparse_step config = 0%Z)
  ∧ (∀ e, Qwen2MoeDecoderLayer_is_sparse config layer_idx = Fails e →
          e = ZeroDivisionError)
  ∧ ((Z.of_nat layer_idx ∈ mlp_only_layers config) ∨ (num_experts config ≤ 0)%Z →
     Qwen2MoeDecoderLayer_is_sparse config layer_idx = Returns false).
Proof.
  unfold Qwen2MoeDecoderLayer_is_sparse.
  repeat case_bool_decide; (split; [split|split]);
    try (intros [e [=]]); try (intros e [=]); try done;
    try (intros (? & ? & ?); done || lia);
    try (intros [?|?]; done || lia); eauto.
Qed.

End LayerChoiceProperties.

(** * The fused attention weights of a block *)

Section FirstCharacter.
Import Re Tensor Convert Props ConvertProps.
Implicit Types (r : regex) (s p rest : text) (c : ascii).

(** No match starts at a character other than the one the pattern starts
    with. *)
Lemma rmatch_first_lit r c s :
  first_lit r = Some c → (∀ x s', s = x :: s' → x ≠ c) → rmatch r s = [].
Proof.
  revert s; induction r as [|k|k|r1 IH1 r2 IH2|r1 IH1 r2 IH2|r IH];
    intros s; cbn [rmatch first_lit]; try done.
  - destruct k as [c'| |]; try done. intros [= ->] Hs.
    destruct s as [|x s]; [done|]. cbn [cmatch].
    destruct (Ascii.eqb_spec c x) as [->|]; [|done].
    by destruct (Hs x s eq_refl).
  - intros Hf Hs. by rewrite IH1.
  - intros Hf Hs. by rewrite IH.
Qed.

Lemma search_without_first_lit r c s :
  first_lit r = Some c → c ∉ s → search r s = false.
Proof.
  intros Hf. induction s as [|x s IH]; intros Hc; cbn [search]; unfold match_here.
  - by rewrite (rmatch_first_lit r c) by done.
  - rewrite (rmatch_first_lit r c).
    + simpl. apply IH. intros ?. apply Hc. by right.
    + done.
    + intros x' s' [= <- <-] ->. apply Hc. by left.
Qed.

Lemma search_skip r c p s :
  first_lit r = Some c → c ∉ p → search r (p ++ s) = search r s.
Proof.
  intros Hf. induction p as [|x p IH]; intros Hc; [done|].
  cbn [app search]. unfold match_here. rewrite (rmatch_first_lit r c).
  - simpl. apply IH. intros ?. apply Hc. by right.
  - done.
  - intros x' s' [= <- <-] ->. apply Hc. by left.
Qed.

(** After a match, the characters it covered are passed over. *)
Lemma sub_from_skip r t p rest :
  sub_from r t (length p) (p ++ rest) = sub_from r t 0 rest.
Proof. induction p as [|x p IH]; [done|]. apply IH. Qed.

(** A run of digits followed by something else: the greedy [\d+] takes the
    whole run first. *)
Lemma plus_rests_digits (ds : text) c rest :
  Forall (fun d => is_digit d = true) ds → ds ≠ [] → is_digit c = false →
  ∃ more, plus_rests CDigit (ds ++ c :: rest) = (c :: rest) :: more.
Proof.
  intros Hds Hne Hc. induction Hds as [|d ds Hd Hds IH]; [done|].
  cbn [app plus_rests cmatch]. rewrite Hd.
  destruct ds as [|d' ds].
  - cbn [app plus_rests cmatch]. rewrite Hc. by exists [].
  - destruct (IH ltac:(done)) as [more ->]. by eexists.
Qed.

Lemma digit_not_letter (ds : text) c :
  Forall (fun d => is_digit d = true) ds → is_digit c = false → c ∉ ds.
Proof.
  intros Hds Hc Hin. rewrite Forall_forall in Hds.
  specialize (Hds c Hin). congruence.
Qed.

End FirstCharacter.

Section BlockQkv.
Import Re Tensor Convert Props ConvertProps.
Implicit Types (ds : text).

Lemma apply_rules_app (rules1 rules2 : list (regex * option template)) (l : text) :
  apply_rules (rules1 ++ rules2) l
  = l' ← apply_rules rules1 l; apply_rules rules2 l'.
Proof.
  revert l; induction rules1 as [|rule rules1 IH]; intros l; cbn [app apply_rules].
  - by rsimpl.
  - destruct (apply_rule l rule) as [l1|]; rsimpl; [apply IH|done].
Qed.

Lemma contains_skip c (needle p s : text) :
  c ∉ p → contains (c :: needle) (p ++ s) = contains (c :: needle) s.
Proof.
  induction p as [|x p IH]; intros Hc; [done|].
  cbn [app contains is_prefix].
  destruct (Ascii.eqb_spec c x) as [->|_].
  - exfalso. apply Hc. by left.
  - cbn [andb orb]. apply IH. intros ?. apply Hc. by right.
Qed.

(** The patterns of the table start with a letter. *)
Lemma table_first_lits :
  map (fun rule : regex * option template => first_lit rule.1)
      ORIGINAL_TO_CONVERTED_KEY_MAPPING
  = map Some ["n"; "u"; "e"; "r"; "b"; "b"; "b"; "b"; "b"; "b"; "b"; "b"; "b"; "b"]%char.
Proof. reflexivity. Qed.

(** The rules before the one for the fused weights find nothing in the
    key. *)
Lemma qkv_key_untouched ds :
  Forall (fun d => is_digit d = true) ds →
  forallb (fun rule : regex * option template =>
             negb (search rule.1 (txt "block." ++ ds ++ txt ".attn.qkv.weight")))
          (firstn 4 ORIGINAL_TO_CONVERTED_KEY_MAPPING) = true.
Proof.
  intros Hds.
  assert (Hskip : ∀ r c, first_lit r = Some c →
            c ∉ txt "block." → is_digit c = false →
            search r (txt ".attn.qkv.weight") = false →
            negb (search r (txt "block." ++ ds ++ txt ".attn.qkv.weight")) = true).
  { intros r c Hf Hc Hd Hs. rewrite app_assoc, (search_skip r c) by
      (done || (rewrite elem_of_app; intros [?|?]; [done|];
                by eapply digit_not_letter)).
    by rewrite Hs. }
  cbn [firstn ORIGINAL_TO_CONVERTED_KEY_MAPPING forallb fst].
  rewrite (Hskip _ "n"%char), (Hskip _ "u"%char), (Hskip _ "e"%char),
    (Hskip _ "r"%char); try done.
  all: apply (bool_decide_unpack _); by vm_compute.
Qed.

(** The rule for the fused weights finds the key at its start, with the
    digits as its group. *)
Lemma qkv_key_match ds :
  Forall (fun d => is_digit d = true) ds → ds ≠ [] →
  match_here (block_pat ".attn.qkv")
             (txt "block." ++ ds ++ txt ".attn.qkv.weight")
  = Some ([Some ds], txt ".weight").
Proof.
  intros Hds Hne. unfold match_here, block_pat. cbn [rmatch].
  assert (rmatch (pat "block.") (txt "block." ++ ds ++ txt ".attn.qkv.weight")
          = [([], ds ++ txt ".attn.qkv.weight")]) as -> by reflexivity.
  cbn [flat_map]. rewrite app_nil_r.
  destruct (plus_rests_digits ds "."%char (txt "attn.qkv.weight") Hds Hne eq_refl)
    as [more Hmore].
  change (ds ++ txt ".attn.qkv.weight")
    with (ds ++ "."%char :: txt "attn.qkv.weight").
  rewrite Hmore. cbn [map flat_map].
  assert (rmatch (pat ".attn.qkv") ("."%char :: txt "attn.qkv.weight")
          = [([], txt ".weight")]) as -> by reflexivity.
  cbn [map app head].
  replace (length (ds ++ "."%char :: txt "attn.qkv.weight")
           - length ("."%char :: txt "attn.qkv.weight")) with (length ds)
    by (rewrite length_app; lia).
  by rewrite take_app_length.
Qed.

(** The rule for the fused weights, on the key of a block. *)
Lemma qkv_key_sub ds :
  Forall (fun d => is_digit d = true) ds → ds ≠ [] →
  sub (block_pat ".attn.qkv")
      [T "layers."; TRef 1; T ".self_attn.(k|v|q)_proj"]
      (txt "block." ++ ds ++ txt ".attn.qkv.weight")
  = Ok (txt "layers." ++ ds ++ txt ".self_attn.(k|v|q)_proj.weight").
Proof.
  intros Hds Hne. unfold sub.
  change (txt "block." ++ ds ++ txt ".attn.qkv.weight")
    with ("b"%char :: txt "lock." ++ ds ++ txt ".attn.qkv.weight") at 1.
  cbn [sub_from].
  change ("b"%char :: txt "lock." ++ ds ++ txt ".attn.qkv.weight")
    with (txt "block." ++ ds ++ txt ".attn.qkv.weight").
  rewrite (qkv_key_match ds Hds Hne).
  cbn [expand T nth_error default]. rsimpl.
  replace (length (txt "block." ++ ds ++ txt ".attn.qkv.weight")
           - length (txt ".weight"))
    with (S (length (txt "lock." ++ ds ++ txt ".attn.qkv")))
    by (rewrite !length_app; simpl; lia).
  replace (txt "lock." ++ ds ++ txt ".attn.qkv.weight")
    with ((txt "lock." ++ ds ++ txt ".attn.qkv") ++ txt ".weight")
    by (by rewrite <- !app_assoc).
  rewrite sub_from_skip.
  assert (sub_from (block_pat ".attn.qkv")
            [T "layers."; TRef 1; T ".self_attn.(k|v|q)_proj"]
            0 (txt ".weight") = Ok (txt ".weight")) as -> by reflexivity.
  rsimpl. by rewrite <- !app_assoc.
Qed.

(** The rules for the tensors of a block find nothing in a text without
    the letter [b]. *)
Lemma block_rules_need_b (s : text) :
  "b"%char ∉ s →
  forallb (fun rule : regex * option template => negb (search rule.1 s))
          (skipn 5 ORIGINAL_TO_CONVERTED_KEY_MAPPING) = true.
Proof.
  intros Hb. apply forallb_forall. intros rule Hin.
  assert (Hf : first_lit rule.1 = Some "b"%char).
  { assert (Hall : forallb (fun rule : regex * option template =>
                              bool_decide (first_lit rule.1 = Some "b"%char))
                           (skipn 5 ORIGINAL_TO_CONVERTED_KEY_MAPPING) = true)
      by reflexivity.
    rewrite forallb_forall in Hall. specialize (Hall rule Hin).
    by apply bool_decide_eq_true in Hall. }
  by rewrite (search_without_first_lit _ "b"%char).
Qed.

Lemma qkv_key_renamed ds :
  Forall (fun d => is_digit d = true) ds → ds ≠ [] →
  apply_rules ORIGINAL_TO_CONVERTED_KEY_MAPPING
              (txt "block." ++ ds ++ txt ".attn.qkv.weight")
  = Ok (txt "layers." ++ ds ++ txt ".self_attn.(k|v|q)_proj.weight").
Proof.
  intros Hds Hne.
  change ORIGINAL_TO_CONVERTED_KEY_MAPPING
    with (firstn 4 ORIGINAL_TO_CONVERTED_KEY_MAPPING
          ++ [(block_pat ".attn.qkv",
               Some [T "layers."; TRef 1; T ".self_attn.(k|v|q)_proj"])]
          ++ skipn 5 ORIGINAL_TO_CONVERTED_KEY_MAPPING).
  rewrite apply_rules_app, (apply_rules_unmatched _ _ (qkv_key_untouched ds Hds)).
  rsimpl. rewrite apply_rules_app. cbn [apply_rules apply_rule fst snd].
  rewrite (qkv_key_sub ds Hds Hne). rsimpl.
  apply apply_rules_unmatched, block_rules_need_b.
  rewrite !elem_of_app. intros [?|[?|?]].
  - revert H. apply (bool_decide_unpack _). by vm_compute.
  - by eapply (digit_not_letter ds "b"%char).
  - revert H. apply (bool_decide_unpack _). by vm_compute.
Qed.

Lemma qkv_name_not_fused ds :
  Forall (fun d => is_digit d = true) ds → is_fused (qkv_name ds) = false.
Proof.
  intros Hds. unfold is_fused, qkv_name. rewrite txt_str.
  apply andb_false_intro2.
  change (txt "layers." ++ ds ++ txt ".self_attn.(k|v|q)_proj.weight")
    with ("l"%char :: (txt "ayers." ++ ds)
          ++ txt ".self_attn.(k|v|q)_proj.weight") at 1.
  cbn [contains].
  assert (is_prefix (txt "language_model")
            ("l"%char :: (txt "ayers." ++ ds)
             ++ txt ".self_attn.(k|v|q)_proj.weight") = false) as -> by reflexivity.
  cbn [orb]. unfold txt at 1. cbn [list_ascii_of_string].
  rewrite contains_skip; [by vm_compute|].
  rewrite elem_of_app. intros [?|?].
  - revert H. apply (bool_decide_unpack _). by vm_compute.
  - by eapply (digit_not_letter ds "l"%char).
Qed.

Lemma qkv_key_nl_free ds :
  Forall (fun d => is_digit d = true) ds → nl_free (txt (qkv_key ds)) = true.
Proof.
  intros Hds. unfold qkv_key. rewrite txt_str, !nl_free_app.
  assert (nl_free ds = true) as ->; [|done].
  apply nl_free_spec. by apply digit_not_letter.
Qed.

End BlockQkv.

Section BlockQkvProperties.
Import Re Tensor Convert Props ConvertProps.

(** The fused attention weights of a block are never split.  Whatever its
    number, the table renames [block.N.attn.qkv.weight] to the name
    [layers.N.self_attn.(k|v|q)_proj.weight], with the choice group still in
    it; this name does not pass the test of line 115, which asks for
    [language_model] in it, and the loop binds the fused tensor whole under
    this name, in any checkpoint the remapper accepts. *)
Theorem block_qkv_is_never_split (A : Type) (ds : text) (value : tensor A) :
  Forall (fun d => is_digit d = true) ds → ds ≠ [] →
  convert_old_keys_to_new_keys (Some [qkv_key ds])
  = Ok {[ qkv_key ds := qkv_name ds ]}
  ∧ is_fused (qkv_name ds) = false
  ∧ ∀ keys new_keys state_dict,
      Forall (fun k => nl_free (txt k) = true) keys → qkv_key ds ∈ keys →
      convert_old_keys_to_new_keys (Some keys) = Ok new_keys →
      write_model_step new_keys state_dict (qkv_key ds, value)
      = Ok (<[qkv_name ds := value]> state_dict).
Proof.
  intros Hds Hne.
  assert (Hone : convert_old_keys_to_new_keys (Some [qkv_key ds])
                 = Ok {[ qkv_key ds := qkv_name ds ]}).
  { rewrite convert_single by by apply qkv_key_nl_free.
    assert (txt (qkv_key ds) = txt "block." ++ ds ++ txt ".attn.qkv.weight")
      as -> by (unfold qkv_key; apply txt_str).
    rewrite qkv_key_renamed by done. by rsimpl. }
  split; [done|]. split; [by apply qkv_name_not_fused|].
  intros keys new_keys state_dict Hnl Hin Hconv.
  destruct (convert_key_alone keys new_keys (qkv_key ds) Hnl Hconv Hin)
    as (n & Hn & Hlook).
  rewrite Hone in Hn.
  apply (f_equal (fun r : result (gmap string string) =>
                    match r with Ok m => m !! qkv_key ds | Raise _ => None end))
    in Hn.
  rewrite !lookup_singleton_eq in Hn. injection Hn as <-.
  unfold write_model_step. cbn [fst snd]. rewrite Hlook.
  change (default (qkv_key ds) (Some (qkv_name ds))) with (qkv_name ds).
  by rewrite qkv_name_not_fused.
Qed.

Lemma block_qkv_is_never_split_witness :
  let value := Tensor.mk [1; 6] [1; 2; 3; 4; 5; 6] in
  convert_state_dict [("block.17.attn.qkv.weight"%string, value)]
  = Ok {[ "layers.17.self_attn.(k|v|q)_proj.weight"%string := value ]}
  ∧ convert_old_keys_to_new_keys (Some [qkv_key (txt "17")])
    = Ok {[ qkv_key (txt "17") := qkv_name (txt "17") ]}
  ∧ is_fused (qkv_name (txt "17")) = false
  ∧ ∀ keys new_keys state_dict,
      Forall (fun k => nl_free (txt k) = true) keys →
      qkv_key (txt "17") ∈ keys →
      convert_old_keys_to_new_keys (Some keys) = Ok new_keys →
      write_model_step new_keys state_dict (qkv_key (txt "17"), value)
      = Ok (<[qkv_name (txt "17") := value]> state_dict).
Proof.
  intros value. split; [reflexivity|].
  apply (block_qkv_is_never_split nat (txt "17") value).
  - repeat constructor.
  - discriminate.
Defined.

End BlockQkvProperties.

(** * The fused attention weights and the test of line 115 *)

Section FusedNames.
Import Re Tensor Convert Props ConvertProps.
Implicit Types (ds : text).

(** A match of ["(k|v|q)_proj.weight"] starts with one of the three
    letters. *)
Lemma fused_pat_skip (p s : text) :
  Forall (fun c => c ∉ ["k"; "v"; "q"]%char) p →
  search fused_pat (p ++ s) = search fused_pat s.
Proof.
  induction 1 as [|c p Hc Hp IH]; [done|].
  cbn [app search]. rewrite IH.
  assert (match_here fused_pat (c :: p ++ s) = None) as ->; [|done].
  unfold match_here, fused_pat. cbn [rmatch cmatch].
  destruct (Ascii.eqb_spec "k" c) as [<-|_]; [exfalso; apply Hc; set_solver|].
  destruct (Ascii.eqb_spec "v" c) as [<-|_]; [exfalso; apply Hc; set_solver|].
  destruct (Ascii.eqb_spec "q" c) as [<-|_]; [exfalso; apply Hc; set_solver|].
  done.
Qed.

Lemma digits_not_kvq ds :
  Forall (fun d => is_digit d = true) ds →
  Forall (fun c => c ∉ ["k"; "v"; "q"]%char) ds.
Proof.
  intros Hds. eapply Forall_impl; [exact Hds|]. intros d Hd Hin.
  apply elem_of_cons in Hin as [->|Hin]; [done|].
  apply elem_of_cons in Hin as [->|Hin]; [done|].
  apply elem_of_cons in Hin as [->|Hin]; [done|].
  by apply elem_of_nil in Hin.
Qed.

Lemma chars_not_kvq (p : text) :
  forallb (fun c => negb (bool_decide (c ∈ ["k"; "v"; "q"]%char))) p = true →
  Forall (fun c => c ∉ ["k"; "v"; "q"]%char) p.
Proof.
  rewrite forallb_forall, Forall_forall. intros H c Hc.
  apply list_elem_of_In, H, negb_true_iff, bool_decide_eq_false in Hc. done.
Qed.

(** The pattern finds nothing in the name the table gives the fused
    weights: where it wants one of the letters before [_proj], the name has
    the closing parenthesis of the replacement. *)
Lemma fused_pat_misses_name (p : text) ds :
  forallb (fun c => negb (bool_decide (c ∈ ["k"; "v"; "q"]%char))) p = true →
  Forall (fun d => is_digit d = true) ds →
  search fused_pat (p ++ ds ++ txt ".self_attn.(k|v|q)_proj.weight") = false.
Proof.
  intros Hp Hds.
  rewrite fused_pat_skip by by apply chars_not_kvq.
  rewrite fused_pat_skip by by apply digits_not_kvq.
  reflexivity.
Qed.

Lemma sub_from_prefix r t c (p s : text) :
  first_lit r = Some c → c ∉ p →
  sub_from r t 0 (p ++ s) = tl ← sub_from r t 0 s; Ok (p ++ tl).
Proof.
  intros Hf. induction p as [|x p IH]; intros Hc.
  - cbn [app]. by destruct (sub_from r t 0 s).
  - cbn [app sub_from]. unfold match_here.
    rewrite (rmatch_first_lit r c) by
      (done || (intros y s' [= <- _] ->; apply Hc; by left)).
    cbn [head]. rewrite IH by (intros ?; apply Hc; by right).
    by destruct (sub_from r t 0 s).
Qed.


(** The table on the key behind the prefix: the prefix stays, and the rest
    is renamed as without it. *)
Lemma lm_qkv_key_renamed ds :
  Forall (fun d => is_digit d = true) ds → ds ≠ [] →
  apply_rules ORIGINAL_TO_CONVERTED_KEY_MAPPING
              (txt "language_model.block." ++ ds ++ txt ".attn.qkv.weight")
  = Ok (txt "language_model.layers." ++ ds
        ++ txt ".self_attn.(k|v|q)_proj.weight").
Proof.
  intros Hds Hne.
  change ORIGINAL_TO_CONVERTED_KEY_MAPPING
    with (firstn 4 ORIGINAL_TO_CONVERTED_KEY_MAPPING
          ++ [(block_pat ".attn.qkv",
               Some [T "layers."; TRef 1; T ".self_attn.(k|v|q)_proj"])]
          ++ skipn 5 ORIGINAL_TO_CONVERTED_KEY_MAPPING).
  rewrite apply_rules_app.
  assert (Hfirst :
    forallb (fun rule : regex * option template =>
               negb (search rule.1
                       (txt "language_model.block." ++ ds
                        ++ txt ".attn.qkv.weight")))
            (firstn 4 ORIGINAL_TO_CONVERTED_KEY_MAPPING) = true).
  { exact (qkv_key_untouched ds Hds). }
  rewrite (apply_rules_unmatched _ _ Hfirst). rsimpl.
  rewrite apply_rules_app. cbn [apply_rules apply_rule fst snd].
  unfold sub.
  change (txt "language_model.block." ++ ds ++ txt ".attn.qkv.weight")
    with (txt "language_model."
          ++ (txt "block." ++ ds ++ txt ".attn.qkv.weight")).
  rewrite (sub_from_prefix _ _ "b"%char) by
    (done || (apply (bool_decide_unpack _); by vm_compute)).
  fold (sub (block_pat ".attn.qkv")
            [T "layers."; TRef 1; T ".self_attn.(k|v|q)_proj"]
            (txt "block." ++ ds ++ txt ".attn.qkv.weight")).
  rewrite (qkv_key_sub ds Hds Hne). rsimpl.
  apply apply_rules_unmatched, block_rules_need_b.
  change (txt "language_model."
          ++ txt "layers." ++ ds ++ txt ".self_attn.(k|v|q)_proj.weight")
    with (txt "language_model.layers."
          ++ ds ++ txt ".self_attn.(k|v|q)_proj.weight").
  rewrite !elem_of_app. intros [?|[?|?]].
  - revert H. apply (bool_decide_unpack _). by vm_compute.
  - by eapply (digit_not_letter ds "b"%char).
  - revert H. apply (bool_decide_unpack _). by vm_compute.
Qed.

Lemma lm_qkv_name_not_fused ds :
  Forall (fun d => is_digit d = true) ds → is_fused (lm_qkv_name ds) = false.
Proof.
  intros Hds. unfold is_fused, lm_qkv_name. rewrite txt_str.
  by rewrite fused_pat_misses_name.
Qed.

Lemma lm_qkv_key_nl_free ds :
  Forall (fun d => is_digit d = true) ds → nl_free (txt (lm_qkv_key ds)) = true.
Proof.
  intros Hds. unfold lm_qkv_key. rewrite txt_str, !nl_free_app.
  assert (nl_free ds = true) as ->; [|done].
  apply nl_free_spec. by apply digit_not_letter.
Qed.

(** A checkpoint of one tensor whose name is not fused after renaming. *)
Lemma convert_state_dict_one (A : Type) (key name : string) (value : tensor A) :
  nl_free (txt key) = true →
  apply_rules ORIGINAL_TO_CONVERTED_KEY_MAPPING (txt key) = Ok (txt name) →
  is_fused name = false →
  convert_state_dict [(key, value)] = Ok {[ name := value ]}.
Proof.
  intros Hnl Hrules Hf. unfold convert_state_dict. cbn [map fst].
  rewrite convert_single, Hrules by done. rsimpl.
  cbn [write_model_loop]. unfold write_model_step. cbn [fst snd].
  rewrite lookup_singleton_eq.
  assert (str (txt name) = name) as -> by apply string_of_list_ascii_of_string.
  change (default key (Some name)) with name.
  rewrite Hf. rsimpl. by rewrite insert_empty.
Qed.

End FusedNames.

Section FusedNameProperties.
Import Re Tensor Convert Props ConvertProps.

(** C1 does not hold of the code: the fused QKV tensors are not split.  The
    fused attention weights of block [N] are the tensor
    [block.N.attn.qkv.weight].  When its last axis has [3 n] elements the
    three pieces of the claim exist, [torch.chunk] would return them; but the
    loop never asks for them.  The table gives the tensor the name
    [layers.N.self_attn.(k|v|q)_proj.weight], in which the pattern of line
    115 finds nothing, and the loop binds the whole tensor to this one name:
    the state dict of a checkpoint with this tensor has one entry, whose
    last axis still has [3 n] elements.  Behind the prefix
    [language_model.], which line 115 also asks for, it is the same. *)
Theorem fused_qkv_is_bound_whole (A : Type) (ds : text) (value : tensor A)
    (n : nat) :
  Forall (fun d => is_digit d = true) ds → ds ≠ [] →
  shape value ≠ [] → last_dim (shape value) = 3 * n →
  chunk 3 value
  = Ok [narrow_last 0 n value; narrow_last n n value;
        narrow_last (2 * n) n value]
  ∧ search fused_pat (txt (qkv_name ds)) = false
  ∧ search fused_pat (txt (lm_qkv_name ds)) = false
  ∧ convert_state_dict [(qkv_key ds, value)] = Ok {[ qkv_name ds := value ]}
  ∧ convert_state_dict [(lm_qkv_key ds, value)]
    = Ok {[ lm_qkv_name ds := value ]}.
Proof.
  intros Hds Hne Hs Hl.
  split; [by apply chunk3_even|].
  split; [unfold qkv_name; rewrite txt_str; by apply fused_pat_misses_name|].
  split; [unfold lm_qkv_name; rewrite txt_str; by apply fused_pat_misses_name|].
  split.
  - apply convert_state_dict_one;
      [by apply qkv_key_nl_free | | by apply qkv_name_not_fused].
    unfold qkv_key, qkv_name. rewrite !txt_str. by apply qkv_key_renamed.
  - apply convert_state_dict_one;
      [by apply lm_qkv_key_nl_free | | by apply lm_qkv_name_not_fused].
    unfold lm_qkv_key, lm_qkv_name. rewrite !txt_str.
    by apply lm_qkv_key_renamed.
Qed.

Lemma fused_qkv_is_bound_whole_witness :
  let value := Tensor.mk [1; 6] [1; 2; 3; 4; 5; 6] in
  chunk 3 value
  = Ok [Tensor.mk [1; 2] [1; 2]; Tensor.mk [1; 2] [3; 4];
        Tensor.mk [1; 2] [5; 6]]
  ∧ search fused_pat (txt "layers.0.self_attn.(k|v|q)_proj.weight") = false
  ∧ search fused_pat
      (txt "language_model.layers.0.self_attn.(k|v|q)_proj.weight") = false
  ∧ convert_state_dict [("block.0.attn.qkv.weight"%string, value)]
    = Ok {[ "layers.0.self_attn.(k|v|q)_proj.weight"%string := value ]}
  ∧ convert_state_dict
      [("language_model.block.0.attn.qkv.weight"%string, value)]
    = Ok {[ "language_model.layers.0.self_attn.(k|v|q)_proj.weight"%string
            := value ]}.
Proof.
  intros value.
  apply (fused_qkv_is_bound_whole nat (txt "0") value 2).
  - repeat constructor.
  - discriminate.
  - discriminate.
  - reflexivity.
Defined.

End FusedNameProperties.

(** * The sparse block, token by token *)

Section BlockTokens.
Import Tensor TensorOps Moe Props MoeProps.
Local Open Scope R_scope.
Context `{ties : Moe.TopkTies}.

Lemma zip_with_concat_rows {X} (f : X → X → X) (h : nat) (rs1 rs2 : list (list X)) :
  Forall (fun r => length r = h) rs1 → Forall (fun r => length r = h) rs2 →
  zip_with f (concat rs1) (concat rs2) = concat (zip_with (zip_with f) rs1 rs2).
Proof.
  intros H1. revert rs2; induction H1 as [|r1 rs1 Hr1 _ IH]; intros rs2 H2.
  - done.
  - destruct H2 as [|r2 rs2 Hr2 H2]; simpl.
    + by rewrite zip_with_nil_r.
    + rewrite zip_with_app by lia. by rewrite IH.
Qed.

Lemma rows_one_sequence {X} (x : tensor X) s h :
  shape x = [1%nat; s; h] → rows x = rows (mk [s; h] (data x)).
Proof.
  intros Hs. unfold rows. rewrite Hs. cbn [shape data lead last_dim removelast
    List.last numel fold_right]. f_equal. lia.
Qed.

Lemma small_block_built : block_built small_config small_block.
Proof.
  split; [by split|]. split; [apply small_moe_built|].
  split; [|by split]. split; [done|]. intros r Hr. simpl. by rewrite length_map.
Qed.

End BlockTokens.

Section BlockTokenProperties.
Import Tensor TensorOps Moe Props MoeProps.
Local Open Scope R_scope.
Context `{ties : Moe.TopkTies}.

(** [Qwen2MoeSparseMoeBlock.forward] on one sequence, token by token: the
    router logits of a token are the products of its vector with the rows of
    the gate, and its output is the mixture of the experts selected from
    these logits plus the output of the shared expert for the token,
    multiplied by the sigmoid of the token's own gate logit.  The experts
    selected are those [torch.topk] returns, whichever it returns among equal
    elements. *)
Theorem qwen_block_token_output config self (x : tensor R) s :
  block_built config self → config_ok config →
  shape x = [1%nat; s; hidden_size config] → wf x →
  ∃ out router_logits g,
    Qwen2MoeSparseMoeBlock_forward self x = Ok (out, router_logits)
    ∧ shape out = shape x
    ∧ rows (shared_expert_gate self) = [g]
    ∧ ∀ t v, rows x !! t = Some v →
        let l := map (dot v) (rows (gate self)) in
        rows router_logits !! t = Some l
        ∧ rows out !! t
          = Some (zip_with Rplus
                    (mixture (naive_experts (experts self)) (hidden_size config) v
                       (map fst (selected_row (num_experts_per_tok config) l))
                       (weights_row (num_experts_per_tok config)
                                    (norm_topk_prob config) l))
                    (map (Rmult (sigmoid (dot v g)))
                         (mlp_row (shared_expert self) v))).
Proof.
  intros Hb Hcfg Hs Hw.
  destruct (qwen_block_forward config self x s Hb Hcfg Hs Hw)
    as (logits & routed & g & Hl & Hr & Hrm & Hg & Hf).
  pose proof Hb as (Hgate & Hnaive & Hshared & _).
  pose proof Hcfg as (Hh & _).
  set (h := hidden_size config) in *.
  set (hs := mk [s; h] (data x)) in *.
  assert (Hhs : matrix s h hs).
  { split; [done|]. unfold wf in Hw. rewrite Hs in Hw. cbn [data hs].
    rewrite Hw. simpl. lia. }
  destruct (linear_matrix (gate self) hs _ _ s Hgate Hhs)
    as (logits' & Hl' & Hlm & Hlr).
  rewrite Hl in Hl'. injection Hl' as <-.
  destruct (naive_forward_rows config (experts self) hs logits s
              Hnaive Hcfg Hhs Hlm) as (routed' & Hr' & _ & Hmix).
  rewrite Hr in Hr'. injection Hr' as <-.
  eexists _, logits, g. split; [exact Hf|]. split; [by rewrite Hs|].
  split; [done|]. intros t v Hv l.
  rewrite (rows_one_sequence x s h Hs) in Hv. fold hs in Hv.
  assert (Hlt : rows logits !! t = Some l).
  { by rewrite Hlr, list_lookup_fmap, Hv. }
  split; [done|].
  set (shared := map (fun r => map (Rmult (sigmoid (dot r g)))
                                   (mlp_row (shared_expert self) r)) (rows hs)).
  assert (Hsh : Forall (fun r : list R => length r = h) shared).
  { apply Forall_map.
    eapply Forall_impl; [by apply (matrix_rows_row_length s h hs)|].
    simpl. intros r Hr0. rewrite length_map. by apply Hshared. }
  pose proof (matrix_rows_row_length s h routed Hrm) as Hrr.
  rewrite (rows_one_sequence _ s h) by done. cbn [data].
  rewrite <- (matrix_rows_concat s h routed Hrm).
  rewrite (zip_with_concat_rows Rplus h) by done.
  assert (Hrows : rows (mk [s; h] (concat (zip_with (zip_with Rplus)
                                                    (rows routed) shared)))
                  = zip_with (zip_with Rplus) (rows routed) shared).
  { apply (rows_of_rows s h).
    - rewrite length_zip_with, (matrix_rows_length s h routed Hrm).
      unfold shared. rewrite length_map, (matrix_rows_length s h hs Hhs). lia.
    - apply Forall_forall. intros r Hin.
      apply elem_of_lookup_zip_with in Hin as (i & a & b & -> & Ha & Hb').
      rewrite length_zip_with.
      rewrite Forall_forall in Hrr, Hsh.
      rewrite (Hrr a), (Hsh b) by by eapply list_elem_of_lookup_2. lia. }
  rewrite Hrows, lookup_zip_with, (Hmix t v l Hv Hlt). cbn [mbind option_bind].
  unfold shared. by rewrite list_lookup_fmap, Hv.
Qed.


End BlockTokenProperties.

Section BlockTokenWitnesses.
Import Tensor TensorOps Moe Props MoeProps.
Local Open Scope R_scope.
#[local] Existing Instance lower_index_first.

Lemma qwen_block_token_output_witness :
  let x := Tensor.mk [1%nat; 2%nat; 2%nat] [1; 2; 3; 4] in
  ∃ out router_logits g,
    Qwen2MoeSparseMoeBlock_forward small_block x = Ok (out, router_logits)
    ∧ shape out = shape x
    ∧ rows (shared_expert_gate small_block) = [g]
    ∧ ∀ t v, rows x !! t = Some v →
        let l := map (dot v) (rows (gate small_block)) in
        rows router_logits !! t = Some l
        ∧ rows out !! t
          = Some (zip_with Rplus
                    (mixture (naive_experts (experts small_block)) 2 v
                       (map fst (selected_row 2 l)) (weights_row 2 true l))
                    (map (Rmult (sigmoid (dot v g)))
                         (mlp_row (shared_expert small_block) v))).
Proof.
  intros x.
  apply (qwen_block_token_output small_config small_block x 2).
  - apply small_block_built.
  - apply small_config_ok.
  - reflexivity.
  - reflexivity.
Defined.

End BlockTokenWitnesses.

(** * What the experts of [OpenaiMLP] are given *)

Section RoutedIn.
Import Tensor TensorOps Moe Props MoeProps.
Local Open Scope R_scope.
Context `{ties : Moe.TopkTies}.

Lemma concat_repeat_concat {X} (rs : list (list X)) e :
  concat (repeat (concat rs) e) = concat (concat (repeat rs e)).
Proof. induction e as [|e IH]; simpl; [done|]. by rewrite concat_app, IH. Qed.

Lemma zip_with_blocks {X Y Z} (F : X → Y → Z) (g : nat → X → Y)
    (rs : list X) (es : list nat) :
  zip_with F (concat (repeat rs (length es)))
             (concat (map (fun e => map (g e) rs) es))
  = concat (map (fun e => map (fun r => F r (g e r)) rs) es).
Proof.
  induction es as [|e es IH]; [done|]. cbn [length repeat concat map].
  rewrite zip_with_app by by rewrite length_map. rewrite IH. f_equal.
  clear. induction rs; simpl; congruence.
Qed.

Lemma lookup_concat_blocks {X} (bs : list (list X)) m e t :
  Forall (fun b => length b = m) bs → (t < m)%nat →
  concat bs !! (e * m + t)%nat = bs !! e ≫= (fun b => b !! t).
Proof.
  intros Hbs Ht. revert e; induction Hbs as [|b bs Hb _ IH]; intros e.
  - by rewrite !lookup_nil.
  - destruct e as [|e]; cbn [concat].
    + rewrite lookup_app_l by lia. done.
    + rewrite lookup_app_r by lia.
      replace (S e * m + t - length b)%nat with (e * m + t)%nat by lia.
      apply IH.
Qed.

(** [forward] is the experts, the shared expert and the sum, after the
    steps of [OpenaiMLP_routed_in]. *)
Lemma openai_forward_after_routed_in self (x : tensor R) :
  OpenaiMLP_forward self x
  = '(hidden_states, router_scores, routed_in) ← OpenaiMLP_routed_in self x;
    routed_out ← oa_experts self routed_in;
    shared_expert ← match oa_shared_expert self with
                    | Some m => Ok m
                    | None => Raise AttributeError
                    end;
    out ← shared_expert hidden_states;
    routed_sum ← sum_blocks (oa_num_experts self) (oa_hidden_dim self) routed_out;
    out ← inplace Rplus out routed_sum;
    Ok (out, router_scores).
Proof.
  unfold OpenaiMLP_forward, OpenaiMLP_routed_in.
  destruct (OpenaiMLP_router_scores self x) as [[hs scores]|]; rsimpl; [|done].
  destruct (repeat_rows _ hs) as [rin|]; rsimpl; [|done].
  destruct (view_rows 1 scores) as [col|]; rsimpl; [|done].
  by destruct (binop Rmult rin col) as [rin'|].
Qed.

End RoutedIn.

Section RoutedInProperties.
Import Tensor TensorOps Moe Props MoeProps.
Local Open Scope R_scope.
Context `{ties : Moe.TopkTies}.

(** [OpenaiMLP] runs every expert on every token: the input of the experts
    has one block of rows per expert, and in the block of expert [e] the row
    of a token is the token's vector multiplied by the score of [e] for the
    token.  An expert that is not among the [top_k] that [torch.topk]
    returns for a token, whichever it returns among equal elements, gets the
    zero vector for it. *)
Theorem openai_experts_see_every_token self (hidden_states : tensor R) m :
  openai_built self → matrix m (oa_hidden_dim self) hidden_states →
  ∃ router_scores routed_in,
    OpenaiMLP_routed_in self hidden_states
    = Ok (hidden_states, router_scores, routed_in)
    ∧ matrix (oa_num_experts self * m) (oa_hidden_dim self) routed_in
    ∧ ∀ e t v, (e < oa_num_experts self)%nat →
        rows hidden_states !! t = Some v →
        let logits := map (dot v) (rows (oa_router self)) in
        rows routed_in !! (e * m + t)%nat
        = Some (map (fun x => x * openai_score (oa_top_k self) logits e) v)
        ∧ (e ∉ map fst (topk_row (oa_top_k self) logits) →
           rows routed_in !! (e * m + t)%nat = Some (map (fun _ => 0) v)).
Proof.
  intros Hb Hhs. pose proof Hb as (Hrouter & Hh & Hk0 & Hk).
  destruct (openai_router_scores_spec self hidden_states hidden_states m Hb)
    as (scores & Hsc & Hscm & Hscr); [by eapply view_rows_matrix|done|].
  destruct (repeat_rows_matrix hidden_states (oa_num_experts self) m (oa_hidden_dim self) Hhs) as (rin & Hrin_eq & Hrin).
  destruct (view_col scores _ _ Hscm) as [Hcol_eq Hcol].
  destruct (binop_col_r_matrix Rmult rin _ _ _ Hrin Hcol)
    as (rin' & Hrin'_eq & Hrin' & Hrows).
  exists scores, rin'. split.
  { unfold OpenaiMLP_routed_in. rewrite Hsc. rsimpl.
    rewrite Hrin_eq. rsimpl. rewrite Hcol_eq. rsimpl. rewrite Hrin'_eq. by rsimpl. }
  split; [done|].
  pose proof (matrix_rows_row_length m (oa_hidden_dim self) hidden_states Hhs) as Hrl.
  pose proof (matrix_rows_length m (oa_hidden_dim self) hidden_states Hhs) as Hrn.
  assert (Hrin_rows : rows rin = concat (repeat (rows hidden_states) (oa_num_experts self))).
  { unfold repeat_rows in Hrin_eq. destruct Hhs as [Hs Hd]. rewrite Hs in Hrin_eq.
    injection Hrin_eq as <-.
    rewrite <- (matrix_rows_concat m (oa_hidden_dim self) hidden_states (conj Hs Hd)).
    rewrite concat_repeat_concat.
    apply (rows_of_rows ((oa_num_experts self) * m) (oa_hidden_dim self)).
    - rewrite (concat_length_rows _ m), repeat_length; [done|].
      apply Forall_forall. by intros r ->%list_elem_of_In%repeat_spec.
    - apply Forall_concat, Forall_forall.
      by intros r ->%list_elem_of_In%repeat_spec. }
  assert (Hblocks : rows rin'
            = concat (map (fun e => map (fun r =>
                  map (fun x => x * openai_score (oa_top_k self)
                                      (map (dot r) (rows (oa_router self))) e) r)
                                        (rows hidden_states))
                          (seq 0 (oa_num_experts self)))).
  { rewrite Hrows, Hrin_rows. cbn [data].
    rewrite <- (matrix_rows_concat _ _ scores Hscm), Hscr.
    replace (repeat (rows hidden_states) (oa_num_experts self))
      with (repeat (rows hidden_states) (length (seq 0 (oa_num_experts self))))
      by (by rewrite length_seq).
    apply (zip_with_blocks (fun r s => map (fun x => x * s) r)
             (fun e r => openai_score (oa_top_k self)
                           (map (dot r) (rows (oa_router self))) e)). }
  intros e t v He Hv logits.
  assert (Ht : (t < m)%nat) by (apply lookup_lt_Some in Hv; lia).
  assert (Hrow : rows rin' !! (e * m + t)%nat
                 = Some (map (fun x => x * openai_score (oa_top_k self) logits e) v)).
  { rewrite Hblocks, (lookup_concat_blocks _ m) by
      (done || (apply Forall_map, Forall_forall; intros; by rewrite length_map)).
    rewrite list_lookup_fmap, lookup_seq_lt by done. cbn [fmap option_fmap option_map
      mbind option_bind Nat.add].
    by rewrite list_lookup_fmap, Hv. }
  split; [done|]. intros Hout. rewrite Hrow. f_equal.
  unfold openai_score. rewrite decide_False by done. cbn [sigmoid_x].
  apply map_ext. intros a. lra.
Qed.


End RoutedInProperties.

Section RoutedInWitnesses.
Import Tensor TensorOps Moe Props MoeProps.
Local Open Scope R_scope.
#[local] Existing Instance lower_index_first.

Lemma openai_experts_see_every_token_witness :
  let self := {| oa_top_k := 1; oa_hidden_dim := 1; oa_num_experts := 2;
                 oa_experts := fun x => Ok x;
                 oa_router := Tensor.mk [2%nat; 1%nat] [1; 2];
                 oa_shared_expert := None |} in
  let hidden_states := Tensor.mk [2%nat; 1%nat] [1; -1] in
  ∃ router_scores routed_in,
    OpenaiMLP_routed_in self hidden_states
    = Ok (hidden_states, router_scores, routed_in)
    ∧ matrix (2 * 2) 1 routed_in
    ∧ ∀ e t v, (e < 2)%nat →
        rows hidden_states !! t = Some v →
        let logits := map (dot v) (rows (oa_router self)) in
        rows routed_in !! (e * 2 + t)%nat
        = Some (map (fun x => x * openai_score 1 logits e) v)
        ∧ (e ∉ map fst (topk_row 1 logits) →
           rows routed_in !! (e * 2 + t)%nat = Some (map (fun _ => 0) v)).
Proof.
  intros self hidden_states.
  apply (openai_experts_see_every_token self hidden_states 2).
  - split; [split; reflexivity|]. simpl. lia.
  - split; reflexivity.
Defined.

End RoutedInWitnesses.

(** * The rules for the tensors of a block *)

Section BlockRules.
Import Re Tensor Convert Props ConvertProps.
Implicit Types (ds tail : text) (p q : string).

Lemma table_blocks :
  ORIGINAL_TO_CONVERTED_KEY_MAPPING
  = firstn 4 ORIGINAL_TO_CONVERTED_KEY_MAPPING ++ map block_rule block_table.
Proof. reflexivity. Qed.

Lemma first_rules_skip_block ds tail :
  Forall (fun d => is_digit d = true) ds →
  forallb (fun rule : regex * option template => negb (search rule.1 tail))
          (firstn 4 ORIGINAL_TO_CONVERTED_KEY_MAPPING) = true →
  forallb (fun rule : regex * option template =>
             negb (search rule.1 (txt "block." ++ ds ++ tail)))
          (firstn 4 ORIGINAL_TO_CONVERTED_KEY_MAPPING) = true.
Proof.
  intros Hds Htail.
  assert (Hskip : ∀ r c, first_lit r = Some c →
            c ∉ txt "block." → is_digit c = false →
            search r (txt "block." ++ ds ++ tail) = search r tail).
  { intros r c Hf Hc Hd. rewrite app_assoc. apply (search_skip r c); [done|].
    rewrite elem_of_app. intros [?|?]; [done|]. by eapply digit_not_letter. }
  revert Htail.
  cbn [firstn ORIGINAL_TO_CONVERTED_KEY_MAPPING forallb fst].
  rewrite (Hskip _ "n"%char), (Hskip _ "u"%char), (Hskip _ "e"%char),
    (Hskip _ "r"%char); try done.
  all: apply (bool_decide_unpack _); by vm_compute.
Qed.

(** What [\d+] can leave of a run of digits: a shorter run, or none. *)
Lemma plus_rests_digits_all ds c tail rest :
  Forall (fun d => is_digit d = true) ds → is_digit c = false →
  rest ∈ plus_rests CDigit (ds ++ c :: tail) →
  ∃ ds', Forall (fun d => is_digit d = true) ds' ∧ rest = ds' ++ c :: tail.
Proof.
  intros Hds Hc. induction Hds as [|d ds Hd Hds IH].
  - cbn [app plus_rests cmatch]. rewrite Hc. by intros ?%elem_of_nil.
  - cbn [app plus_rests cmatch]. rewrite Hd.
    rewrite elem_of_app, list_elem_of_singleton. intros [Hin| ->]; [by apply IH|].
    by exists ds.
Qed.

Lemma flat_map_nil {X Y} (f : X → list Y) (l : list X) :
  (∀ x, x ∈ l → f x = []) → flat_map f l = [].
Proof.
  induction l as [|x l IH]; intros H; [done|]. simpl.
  rewrite (H x) by left. apply IH. intros y Hy. apply H. by right.
Qed.

Lemma first_lit_block_pat p : first_lit (block_pat p) = Some "b"%char.
Proof. reflexivity. Qed.

(** The rule for another tensor of the block does not find the key. *)
Lemma block_pat_unmatched p ds tail :
  Forall (fun d => is_digit d = true) ds → ds ≠ [] →
  block_rule_misses p tail = true →
  search (block_pat p) (txt "block." ++ ds ++ tail) = false.
Proof.
  intros Hds Hne Hcheck. unfold block_rule_misses in Hcheck.
  destruct (wild_then_lit (pat p)) as [a|] eqn:Ewl; [|done].
  destruct tail as [|c tail]; [done|].
  apply andb_true_iff in Hcheck as [Hcheck Hsearch].
  apply andb_true_iff in Hcheck as [Hcheck Hnone].
  apply andb_true_iff in Hcheck as [Hcheck Hac].
  apply andb_true_iff in Hcheck as [Ha Hc].
  apply negb_true_iff in Hsearch, Ha, Hc, Hac.
  assert (Hac' : a ≠ c) by (intros ->; by rewrite Ascii.eqb_refl in Hac).
  assert (Hnone' : rmatch (pat p) (c :: tail) = [])
    by (by destruct (rmatch (pat p) (c :: tail))).
  assert (Hr : ∃ r', pat p = RSeq (RCls CAny) r' ∧ first_lit r' = Some a).
  { unfold wild_then_lit in Ewl.
    destruct (pat p) as [| | |[|[| |]| | | |] r'| |]; try done. by exists r'. }
  destruct Hr as (r' & Hp & Hr').
  change (txt "block." ++ ds ++ c :: tail)
    with ("b"%char :: txt "lock." ++ ds ++ c :: tail).
  cbn [search].
  assert (Hhere : match_here (block_pat p)
                    ("b"%char :: txt "lock." ++ ds ++ c :: tail) = None).
  { unfold match_here, block_pat. cbn [rmatch].
    assert (rmatch (pat "block.") ("b"%char :: txt "lock." ++ ds ++ c :: tail)
            = [([], ds ++ c :: tail)]) as -> by reflexivity.
    cbn [flat_map]. rewrite app_nil_r.
    rewrite flat_map_nil; [done|].
    intros [c1 s1] Hin.
    apply list_elem_of_fmap in Hin as ([c0 s0] & [= -> ->] & Hin).
    apply list_elem_of_fmap in Hin as (rest & [= -> ->] & Hin).
    destruct (plus_rests_digits_all ds c tail rest Hds Hc Hin) as (ds' & Hds' & ->).
    assert (rmatch (pat p) (ds' ++ c :: tail) = []) as ->; [|done].
    destruct ds' as [|d ds']; [done|].
    rewrite Hp. cbn [app rmatch cmatch].
    destruct (negb (Ascii.eqb d newline)); [|done].
    cbn [flat_map]. rewrite (rmatch_first_lit r' a); [done|done|].
    intros x s'. destruct ds' as [|d' ds'']; cbn [app]; intros [= <- <-].
    - done.
    - intros ->. inversion Hds' as [|? ? _ Hd']. inversion Hd' as [|? ? Hda _].
      congruence. }
  rewrite Hhere.
  rewrite (app_assoc (txt "lock.") ds), (search_skip _ "b"%char); [done|done|].
  rewrite elem_of_app. intros [H|H].
  - revert H. apply (bool_decide_unpack _). by vm_compute.
  - by eapply (digit_not_letter ds "b"%char).
Qed.

(** The rule for the tensor finds the key at its start, with the digits as
    its group, and covers all of it. *)
Lemma block_key_match p ds c tail more :
  Forall (fun d => is_digit d = true) ds → ds ≠ [] →
  txt p = c :: tail → is_digit c = false →
  rmatch (pat p) (txt p) = ([], []) :: more →
  match_here (block_pat p) (txt "block." ++ ds ++ txt p) = Some ([Some ds], []).
Proof.
  intros Hds Hne Hp Hc Hm. unfold match_here, block_pat. cbn [rmatch].
  assert (rmatch (pat "block.") (txt "block." ++ ds ++ txt p)
          = [([], ds ++ txt p)]) as -> by reflexivity.
  cbn [flat_map]. rewrite app_nil_r.
  assert (Hplus : ∃ more', plus_rests CDigit (ds ++ txt p) = txt p :: more').
  { rewrite Hp. by apply plus_rests_digits. }
  destruct Hplus as [more' ->]. cbn [map flat_map]. rewrite Hm.
  cbn [map app head].
  replace (length (ds ++ txt p) - length (txt p)) with (length ds)
    by (rewrite length_app; lia).
  by rewrite take_app_length.
Qed.

Lemma block_key_sub p q ds c tail more :
  Forall (fun d => is_digit d = true) ds → ds ≠ [] →
  txt p = c :: tail → is_digit c = false →
  rmatch (pat p) (txt p) = ([], []) :: more →
  sub (block_pat p) [T "layers."; TRef 1; T q] (txt "block." ++ ds ++ txt p)
  = Ok (txt "layers." ++ ds ++ txt q).
Proof.
  intros Hds Hne Hp Hc Hm. unfold sub.
  change (txt "block." ++ ds ++ txt p)
    with ("b"%char :: txt "lock." ++ ds ++ txt p) at 1.
  cbn [sub_from].
  change ("b"%char :: txt "lock." ++ ds ++ txt p)
    with (txt "block." ++ ds ++ txt p).
  rewrite (block_key_match p ds c tail more) by done.
  cbn [expand T nth_error]. rsimpl.
  replace (length (txt "block." ++ ds ++ txt p) - length (@nil ascii))
    with (S (length (txt "lock." ++ ds ++ txt p)))
    by (rewrite !length_app; simpl; lia).
  rewrite <- (app_nil_r (txt "lock." ++ ds ++ txt p)) at 2.
  rewrite sub_from_skip. cbn [sub_from]. unfold match_here.
  rewrite (rmatch_first_lit (block_pat p) "b"%char) by done.
  cbn [head]. rsimpl. f_equal.
  change (default [] (Some ds)) with ds. by rewrite !app_nil_r.
Qed.

(** The one rule that rewrites the key of a tensor of a block. *)
Lemma block_key_rules k p q ds :
  Forall (fun d => is_digit d = true) ds → ds ≠ [] →
  block_table !! k = Some (p, [T "layers."; TRef 1; T q]) →
  block_rule_check k p q = true →
  apply_rules ORIGINAL_TO_CONVERTED_KEY_MAPPING (txt "block." ++ ds ++ txt p)
  = Ok (txt "layers." ++ ds ++ txt q).
Proof.
  intros Hds Hne Hk Hcheck. unfold block_rule_check in Hcheck.
  apply andb_true_iff in Hcheck as [Hcheck _].
  apply andb_true_iff in Hcheck as [Hcheck Hpost].
  apply andb_true_iff in Hcheck as [Hcheck Hself].
  apply andb_true_iff in Hcheck as [Hcheck Hhead].
  apply andb_true_iff in Hcheck as [Hfirst Hpre].
  destruct (txt p) as [|c tail] eqn:Hp; [done|]. apply negb_true_iff in Hhead.
  assert (Hm : ∃ more, rmatch (pat p) (txt p) = ([], []) :: more).
  { rewrite Hp.
    destruct (rmatch (pat p) (c :: tail)) as [|[[|] [|]] more]; try done.
    by exists more. }
  destruct Hm as [more Hm]. rewrite <- Hp in *.
  rewrite table_blocks, <- (take_drop_middle block_table k _ Hk).
  rewrite map_app, apply_rules_app.
  rewrite (apply_rules_unmatched _ _ (first_rules_skip_block ds _ Hds Hfirst)).
  rsimpl. rewrite apply_rules_app, apply_rules_unmatched.
  2:{ apply forallb_forall. intros rule Hin.
      apply in_map_iff in Hin as ([pj tj] & <- & Hin).
      rewrite forallb_forall in Hpre. specialize (Hpre _ Hin).
      cbn [fst block_rule] in *. by rewrite block_pat_unmatched. }
  rsimpl. cbn [map apply_rules apply_rule block_rule fst snd].
  rewrite (block_key_sub p q ds c tail more) by done. rsimpl.
  apply apply_rules_unmatched, forallb_forall. intros rule Hin.
  apply in_map_iff in Hin as ([pj tj] & <- & Hin).
  rewrite forallb_forall in Hpost. specialize (Hpost _ Hin). cbn [fst block_rule] in *.
  apply negb_true_iff in Hpost. apply negb_true_iff.
  rewrite app_assoc, (search_skip _ "b"%char); [done|done|].
  rewrite elem_of_app. intros [H|H].
  - revert H. apply (bool_decide_unpack _). by vm_compute.
  - by eapply (digit_not_letter ds "b"%char).
Qed.

(** Every rule of [block_table] with one group reference passes the test. *)
Lemma block_table_checked k p q :
  block_table !! k = Some (p, [T "layers."; TRef 1; T q]) →
  block_rule_check k p q = true.
Proof.
  intros Hk.
  do 10 (destruct k as [|k];
         [cbn in Hk; try discriminate Hk; injection Hk as <- Hq;
          apply (f_equal str) in Hq; rewrite !str_txt in Hq; subst q;
          by vm_compute |]).
  done.
Qed.

End BlockRules.

Section BlockRulesProperties.
Import Re Tensor Convert Props ConvertProps.

(** The table does what it is there for on the tensors of a block.  The
    rules after the first four are those of [block_table]; for each of them
    with a single group reference (all but the one for [attn.out]) and for
    every block number, the key [block.N] followed by the text of the
    pattern is renamed to [layers.N] followed by the replacement, alone and
    in any batch of keys the remapper accepts. *)
Theorem block_keys_are_renamed (ds : text) (k : nat) (p q : string) :
  Forall (fun d => is_digit d = true) ds → ds ≠ [] →
  block_table !! k = Some (p, [T "layers."; TRef 1; T q]) →
  skipn 4 ORIGINAL_TO_CONVERTED_KEY_MAPPING = map block_rule block_table
  ∧ convert_old_keys_to_new_keys (Some [block_key ds p])
    = Ok {[ block_key ds p := layer_name ds q ]}
  ∧ ∀ keys new_keys,
      Forall (fun k => nl_free (txt k) = true) keys → block_key ds p ∈ keys →
      convert_old_keys_to_new_keys (Some keys) = Ok new_keys →
      new_keys !! block_key ds p = Some (layer_name ds q).
Proof.
  intros Hds Hne Hk. split; [reflexivity|].
  pose proof (block_table_checked k p q Hk) as Hcheck.
  assert (Htxt : txt (block_key ds p) = txt "block." ++ ds ++ txt p)
    by (unfold block_key; apply txt_str).
  assert (Hnl : nl_free (txt (block_key ds p)) = true).
  { rewrite Htxt, !nl_free_app.
    assert (nl_free ds = true) as ->
      by (apply nl_free_spec; by apply digit_not_letter).
    unfold block_rule_check in Hcheck.
    apply andb_true_iff in Hcheck as [_ Hp].
    change (nl_free (txt p) = true) in Hp. by rewrite Hp. }
  assert (Hone : convert_old_keys_to_new_keys (Some [block_key ds p])
                 = Ok {[ block_key ds p := layer_name ds q ]}).
  { rewrite convert_single, Htxt by done.
    rewrite (block_key_rules k p q ds) by done. by rsimpl. }
  split; [done|]. intros keys new_keys Hkeys Hin Hconv.
  destruct (convert_key_alone keys new_keys (block_key ds p) Hkeys Hconv Hin)
    as (n & Hn & Hlook).
  rewrite Hone in Hn.
  apply (f_equal (fun r : result (gmap string string) =>
                    match r with Ok m => m !! block_key ds p | Raise _ => None end))
    in Hn.
  rewrite !lookup_singleton_eq in Hn. by rewrite Hlook, Hn.
Qed.

Lemma block_keys_are_renamed_witness :
  convert_old_keys_to_new_keys (Some ["block.12.mlp.gate"%string])
  = Ok {[ "block.12.mlp.gate"%string := "layers.12.mlp.router.weight"%string ]}
  ∧ skipn 4 ORIGINAL_TO_CONVERTED_KEY_MAPPING = map block_rule block_table
  ∧ convert_old_keys_to_new_keys (Some [block_key (txt "12") ".mlp.gate"])
    = Ok {[ block_key (txt "12") ".mlp.gate"
            := layer_name (txt "12") ".mlp.router.weight" ]}
  ∧ ∀ keys new_keys,
      Forall (fun k => nl_free (txt k) = true) keys →
      block_key (txt "12") ".mlp.gate" ∈ keys →
      convert_old_keys_to_new_keys (Some keys) = Ok new_keys →
      new_keys !! block_key (txt "12") ".mlp.gate"
      = Some (layer_name (txt "12") ".mlp.router.weight").
Proof.
  split; [reflexivity|].
  apply (block_keys_are_renamed (txt "12") 9 ".mlp.gate" ".mlp.router.weight").
  - repeat constructor.
  - discriminate.
  - reflexivity.
Defined.

End BlockRulesProperties.

Section RemapperTotality.
Import Re Tensor Convert Props ConvertProps.

Lemma apply_rules_total (rules : list (regex * option template)) (l : text) :
  Forall (fun rule => rule_ok rule = true) rules →
  ∃ o, apply_rules rules l = Ok o.
Proof.
  intros Hok. revert l; induction Hok as [|rule rules Hrule _ IH]; intros l.
  - by exists l.
  - cbn [apply_rules].
    destruct (apply_rule_total rule l Hrule) as [l1 ->]. rsimpl. apply IH.
Qed.

(** The rule for [attn.out] is the only way for the remapper to fail: when
    its pattern is found in no key, once the five rules before it have been
    applied to the key, the remapper returns a mapping. *)
Theorem remapper_fails_only_on_attn_out (keys : list string) :
  Forall (fun k => nl_free (txt k) = true) keys →
  (∀ k l, k ∈ keys →
     apply_rules rules_before_attn_out (txt k) = Ok l →
     search attn_out_pattern l = false) →
  ∃ d, convert_old_keys_to_new_keys (Some keys) = Ok d.
Proof.
  intros Hnl Hgood.
  destruct (convert_old_keys_to_new_keys (Some keys)) as [d|e] eqn:E;
    [by exists d|].
  exfalso. apply convert_batch_raises in E as (k & Hin & Hk); [|done].
  assert (Hknl : nl_free (txt k) = true) by (rewrite Forall_forall in Hnl; auto).
  rewrite convert_single in Hk by done.
  change ORIGINAL_TO_CONVERTED_KEY_MAPPING
    with (rules_before_attn_out
          ++ [(attn_out_pattern,
               Some [T "layers."; TRef 1; T ".self_attn."; TRef 2; T "_proj"])]
          ++ skipn 6 ORIGINAL_TO_CONVERTED_KEY_MAPPING) in Hk.
  rewrite apply_rules_app in Hk.
  destruct (apply_rules_total rules_before_attn_out (txt k)) as [l Hl].
  { apply Forall_forall. intros rule Hr%list_elem_of_In. revert rule Hr.
    apply forallb_forall. by vm_compute. }
  rewrite Hl in Hk. revert Hk. rsimpl. rewrite apply_rules_app.
  cbn [apply_rules apply_rule fst snd]. unfold sub.
  rewrite sub_from_unmatched by by eapply Hgood. rsimpl.
  destruct (apply_rules_total (skipn 6 ORIGINAL_TO_CONVERTED_KEY_MAPPING) l)
    as [l' ->]; [|by rsimpl].
  apply Forall_forall. intros rule Hr%list_elem_of_In. revert rule Hr.
  apply forallb_forall. by vm_compute.
Qed.

Lemma remapper_fails_only_on_attn_out_witness :
  ∃ d, convert_old_keys_to_new_keys
         (Some ["embedding.weight"; "block.0.attn.qkv.weight"; "rope.freqs"]%string)
       = Ok d.
Proof.
  apply (remapper_fails_only_on_attn_out
           ["embedding.weight"; "block.0.attn.qkv.weight"; "rope.freqs"]%string).
  - repeat constructor.
  - intros k l Hin Hl.
    repeat (apply elem_of_cons in Hin as [->|Hin];
            [vm_compute in Hl; by injection Hl as <-|]).
    by apply elem_of_nil in Hin.
Defined.

End RemapperTotality.
